(** * Hylaa GLPK interface (hylaa/glpk_interface/hylaa_glpk.h)

    A shallow embedding of class [LpData] and of the part of the GLPK
    problem object that the class drives, followed by the properties of the
    interface: row layout, call order, basis update, objective, retry policy,
    statistics and result buffer.

    Conventions.
    - C++ [int] is [Z].  The two process-wide counters of [GlobalLpData]
      only ever grow while the process lives; they are 32-bit two's
      complement ints whose additions wrap around ([wrap_int]).  The other
      ints are sizes and indices of one problem object; their overflow,
      undefined in C++, lies outside the model.
    - C++ [double] is Rocq's primitive binary64 [float]; [d != 0] is
      [negb (PrimFloat.eqb d 0)].
    - Arrays passed by pointer are lists; a read outside the list yields 0 and
      a write outside the list is dropped (both are undefined in C++).
    - [exit(1)] after a "Fatal Error" message and GLPK's own abort are the
      [Fatal] outcome, which carries the state at the point of the abort. *)

From Stdlib Require Import ZArith Floats Lia.
From stdpp Require Import base list.
Open Scope Z_scope.

(** The value read from outside an array of doubles. *)
#[global] Instance float_inhabited : Inhabited float := populate 0%float.

(** ** The solver library, as far as the interface uses it *)

Module Glpk.

(** Constants of glpk.h. *)
Definition GLP_MIN : Z := 1.
Definition GLP_MAX : Z := 2.

Definition GLP_FR : Z := 1.
Definition GLP_LO : Z := 2.
Definition GLP_UP : Z := 3.
Definition GLP_DB : Z := 4.
Definition GLP_FX : Z := 5.

Definition GLP_BS : Z := 1.
Definition GLP_NL : Z := 2.
Definition GLP_NU : Z := 3.
Definition GLP_NF : Z := 4.
Definition GLP_NS : Z := 5.

Definition GLP_UNDEF : Z := 1.
Definition GLP_FEAS : Z := 2.
Definition GLP_INFEAS : Z := 3.
Definition GLP_NOFEAS : Z := 4.
Definition GLP_OPT : Z := 5.
Definition GLP_UNBND : Z := 6.

Definition GLP_EBADB : Z := 1.
Definition GLP_ESING : Z := 2.
Definition GLP_ECOND : Z := 3.
Definition GLP_EBOUND : Z := 4.
Definition GLP_EFAIL : Z := 5.
Definition GLP_EOBJLL : Z := 6.
Definition GLP_EOBJUL : Z := 7.
Definition GLP_EITLIM : Z := 8.
Definition GLP_ETMLIM : Z := 9.
Definition GLP_ENOPFS : Z := 10.
Definition GLP_ENODFS : Z := 11.

(** A row (auxiliary variable): bound type and bounds, basis status and the
    coefficient entries [(column, value)] last given to [glp_set_mat_row].
    Entries are kept as passed; GLPK itself leaves out an entry whose value
    compares equal to zero, which reads back as a zero coefficient too. *)
Record GLPROW := mkROW {
  r_type : Z;
  r_lb : float;
  r_ub : float;
  r_stat : Z;
  r_ptr : list (Z * float)
}.

(** A column (structural variable): bounds, objective coefficient, basis
    status and primal value. *)
Record GLPCOL := mkCOL {
  c_type : Z;
  c_lb : float;
  c_ub : float;
  c_coef : float;
  c_stat : Z;
  c_prim : float
}.

Record glp_prob := mkPROB {
  dir : Z;
  c0 : float;
  row : list GLPROW;
  col : list GLPCOL;
  it_cnt : Z;
  sol_stat : Z
}.

Definition set_row (P : glp_prob) (rs : list GLPROW) : glp_prob :=
  mkPROB (dir P) (c0 P) rs (col P) (it_cnt P) (sol_stat P).

Definition set_col (P : glp_prob) (cs : list GLPCOL) : glp_prob :=
  mkPROB (dir P) (c0 P) (row P) cs (it_cnt P) (sol_stat P).

Definition glp_create_prob : glp_prob :=
  mkPROB GLP_MIN 0%float [] [] 0 GLP_UNDEF.

Definition glp_set_obj_dir (d : Z) (P : glp_prob) : option glp_prob :=
  if (d =? GLP_MIN) || (d =? GLP_MAX)
  then Some (mkPROB d (c0 P) (row P) (col P) (it_cnt P) (sol_stat P))
  else None.

Definition glp_get_num_rows (P : glp_prob) : Z := Z.of_nat (length (row P)).
Definition glp_get_num_cols (P : glp_prob) : Z := Z.of_nat (length (col P)).
Definition glp_get_it_cnt (P : glp_prob) : Z := it_cnt P.
Definition glp_get_status (P : glp_prob) : Z := sol_stat P.

(** Rows and columns are numbered from 1. *)
Definition in_range (i n : Z) : bool := (1 <=? i) && (i <=? n).
Definition pos (i : Z) : nat := Z.to_nat (i - 1).

Definition new_row : GLPROW := mkROW GLP_FR 0%float 0%float GLP_BS [].
Definition new_col : GLPCOL := mkCOL GLP_FX 0%float 0%float 0%float GLP_NS 0%float.

(** [glp_add_rows] and [glp_add_cols] reject a count below 1. *)
Definition glp_add_rows (nrs : Z) (P : glp_prob) : option glp_prob :=
  if nrs <? 1 then None
  else Some (set_row P (row P ++ replicate (Z.to_nat nrs) new_row)).

Definition glp_add_cols (ncs : Z) (P : glp_prob) : option glp_prob :=
  if ncs <? 1 then None
  else Some (set_col P (col P ++ replicate (Z.to_nat ncs) new_col)).

Definition valid_type (t : Z) : bool := (GLP_FR <=? t) && (t <=? GLP_FX).
Definition valid_stat (t : Z) : bool := (GLP_BS <=? t) && (t <=? GLP_NS).

(** Bounds stored for a bound type, and the status a non-basic variable
    takes under it. *)
Definition bnds_of (t : Z) (lb ub : float) : float * float :=
  if t =? GLP_FR then (0%float, 0%float)
  else if t =? GLP_LO then (lb, 0%float)
  else if t =? GLP_UP then (0%float, ub)
  else if t =? GLP_DB then (lb, ub)
  else (lb, lb).

Definition stat_after_bnds (t : Z) (lb ub : float) (s : Z) : Z :=
  if s =? GLP_BS then s
  else if t =? GLP_FR then GLP_NF
  else if t =? GLP_LO then GLP_NL
  else if t =? GLP_UP then GLP_NU
  else if t =? GLP_DB then
    (if (s =? GLP_NL) || (s =? GLP_NU) then s
     else if PrimFloat.leb (PrimFloat.abs lb) (PrimFloat.abs ub) then GLP_NL else GLP_NU)
  else GLP_NS.

Definition glp_set_row_bnds (i t : Z) (lb ub : float) (P : glp_prob) : option glp_prob :=
  if in_range i (glp_get_num_rows P) && valid_type t then
    Some (set_row P (alter (fun r =>
      mkROW t (bnds_of t lb ub).1 (bnds_of t lb ub).2
            (stat_after_bnds t lb ub (r_stat r)) (r_ptr r)) (pos i) (row P)))
  else None.

Definition glp_set_col_bnds (j t : Z) (lb ub : float) (P : glp_prob) : option glp_prob :=
  if in_range j (glp_get_num_cols P) && valid_type t then
    Some (set_col P (alter (fun c =>
      mkCOL t (bnds_of t lb ub).1 (bnds_of t lb ub).2 (c_coef c)
            (stat_after_bnds t lb ub (c_stat c)) (c_prim c)) (pos j) (col P)))
  else None.

(** Status a variable of bound type [t] takes when asked for status [s]. *)
Definition stat_for_type (t s : Z) : Z :=
  if s =? GLP_BS then s
  else if t =? GLP_FR then GLP_NF
  else if t =? GLP_LO then GLP_NL
  else if t =? GLP_UP then GLP_NU
  else if t =? GLP_DB then (if s =? GLP_NU then s else GLP_NL)
  else GLP_NS.

Definition glp_set_row_stat (i s : Z) (P : glp_prob) : option glp_prob :=
  if in_range i (glp_get_num_rows P) && valid_stat s then
    Some (set_row P (alter (fun r =>
      mkROW (r_type r) (r_lb r) (r_ub r) (stat_for_type (r_type r) s) (r_ptr r))
      (pos i) (row P)))
  else None.

Definition glp_set_col_stat (j s : Z) (P : glp_prob) : option glp_prob :=
  if in_range j (glp_get_num_cols P) && valid_stat s then
    Some (set_col P (alter (fun c =>
      mkCOL (c_type c) (c_lb c) (c_ub c) (c_coef c) (stat_for_type (c_type c) s) (c_prim c))
      (pos j) (col P)))
  else None.

(** Entries [ind[1..len]], [val[1..len]] of the two arrays given to
    [glp_set_mat_row]; position 0 of the arrays is not used. *)
Definition entries (len : Z) (ind : list Z) (val : list float) : list (Z * float) :=
  (fun k => (ind !!! k, val !!! k)) <$> seq 1 (Z.to_nat len).

Fixpoint distinct (l : list Z) : bool :=
  match l with
  | [] => true
  | x :: t => negb (existsb (Z.eqb x) t) && distinct t
  end.

(** [glp_set_mat_row] replaces the whole contents of row [i]; it rejects a
    row or column index out of range, a length outside [0..n] and repeated
    column indices. *)
Definition glp_set_mat_row (i len : Z) (ind : list Z) (val : list float)
    (P : glp_prob) : option glp_prob :=
  let es := entries len ind val in
  if in_range i (glp_get_num_rows P)
     && (0 <=? len) && (len <=? glp_get_num_cols P)
     && forallb (fun e => in_range e.1 (glp_get_num_cols P)) es
     && distinct es.*1
  then Some (set_row P (alter (fun r =>
         mkROW (r_type r) (r_lb r) (r_ub r) (r_stat r) es) (pos i) (row P)))
  else None.

(** Coefficient of row [i] in column [j]: the stored entry, else zero. *)
Fixpoint assoc (j : Z) (es : list (Z * float)) : float :=
  match es with
  | [] => 0%float
  | (k, v) :: t => if k =? j then v else assoc j t
  end.

Definition coef (P : glp_prob) (i j : Z) : float :=
  match row P !! pos i with
  | Some r => assoc j (r_ptr r)
  | None => 0%float
  end.

(** [glp_set_obj_coef]: column 0 addresses the constant term. *)
Definition glp_set_obj_coef (j : Z) (c : float) (P : glp_prob) : option glp_prob :=
  if (j <? 0) || (glp_get_num_cols P <? j) then None
  else if j =? 0 then
    Some (mkPROB (dir P) c (row P) (col P) (it_cnt P) (sol_stat P))
  else
    Some (set_col P (alter (fun x =>
      mkCOL (c_type x) (c_lb x) (c_ub x) c (c_stat x) (c_prim x)) (pos j) (col P))).

Definition glp_get_obj_coef (P : glp_prob) (j : Z) : float :=
  match col P !! pos j with Some c => c_coef c | None => 0%float end.

Definition glp_get_col_prim (P : glp_prob) (j : Z) : option float :=
  if in_range j (glp_get_num_cols P) then c_prim <$> col P !! pos j else None.

Definition glp_get_row_stat (P : glp_prob) (i : Z) : option Z :=
  if in_range i (glp_get_num_rows P) then r_stat <$> row P !! pos i else None.

Definition glp_get_col_stat (P : glp_prob) (j : Z) : option Z :=
  if in_range j (glp_get_num_cols P) then c_stat <$> col P !! pos j else None.

(** What one run of the simplex method reports: the return code, the number
    of pivots made, the solution status, and the basis statuses and primal
    values it leaves in the problem object.  The simplex method itself is
    not part of the interface; it is a parameter of the development. *)
Record simplex_answer := mkAnswer {
  sa_ret : Z;
  sa_iters : nat;
  sa_status : Z;
  sa_row_stat : Z -> Z;
  sa_col_stat : Z -> Z;
  sa_col_prim : Z -> float
}.

(** A solver sees the earlier simplex calls of the process (problem object
    and return code, latest first) and the problem object it is given. *)
Definition simplex_method : Type := list (glp_prob * Z) -> glp_prob -> simplex_answer.

(** [glp_simplex] leaves rows, bounds, coefficients and objective as they
    are; it stores statuses, primal values and the solution status, and
    advances the iteration count by the pivots made. *)
Definition glp_simplex (a : simplex_answer) (P : glp_prob) : Z * glp_prob :=
  (sa_ret a,
   mkPROB (dir P) (c0 P)
     (imap (fun k r => mkROW (r_type r) (r_lb r) (r_ub r)
                             (sa_row_stat a (Z.of_nat k + 1)) (r_ptr r)) (row P))
     (imap (fun k c => mkCOL (c_type c) (c_lb c) (c_ub c) (c_coef c)
                             (sa_col_stat a (Z.of_nat k + 1))
                             (sa_col_prim a (Z.of_nat k + 1))) (col P))
     (it_cnt P + Z.of_nat (sa_iters a))
     (sa_status a)).

End Glpk.

Import Glpk.

(** ** State of the process and of one [LpData] instance *)

(** C++ [int]: 32 bits, two's complement.  [wrap_int] is the value an
    addition leaves in an [int]: the sum itself inside
    [INT_MIN .. INT_MAX], and the sum shifted by a multiple of 2^32 into that
    range outside it. *)
Definition INT_MIN : Z := -2147483648.
Definition INT_MAX : Z := 2147483647.

Definition wrap_int (x : Z) : Z := (x - INT_MIN) mod 4294967296 + INT_MIN.

Definition int_range (x : Z) : Prop := INT_MIN <= x <= INT_MAX.

(** [struct GlobalLpData]: the process-wide statistics, two [int] counters
    that start at 0.  They are written by [minimize] only, through
    [wrap_int]. *)
Record GlobalLpData := mkGlobal {
  optimizations : Z;
  iterations : Z
}.

(** The private members of [class LpData].  [params] only switches the
    solver's messages off and is left out. *)
Record LpData := mkLpData {
  numOutputVars : Z;
  numInitVars : Z;
  numInputs : Z;
  numInitConstraints : Z;
  numOutputConstraints : Z;
  inputCsrData : list float;
  inputCsrIndices : list Z;
  inputCsrIndptr : list Z;
  inputRhs : list float;
  lp : glp_prob
}.

(** The process: the global counters, the instance under study, and a record
    of the simplex calls made so far (problem object as passed and return
    code, latest first).  The record is there for stating properties; the
    interface never reads it. *)
Record process := mkProcess {
  global : GlobalLpData;
  simplex_calls : list (glp_prob * Z);
  this : LpData
}.

Definition with_this (s : process) (d : LpData) : process :=
  mkProcess (global s) (simplex_calls s) d.

Definition with_lp (d : LpData) (P : glp_prob) : LpData :=
  mkLpData (numOutputVars d) (numInitVars d) (numInputs d)
           (numInitConstraints d) (numOutputConstraints d)
           (inputCsrData d) (inputCsrIndices d) (inputCsrIndptr d) (inputRhs d) P.

Definition with_numInitConstraints (d : LpData) (n : Z) : LpData :=
  mkLpData (numOutputVars d) (numInitVars d) (numInputs d)
           n (numOutputConstraints d)
           (inputCsrData d) (inputCsrIndices d) (inputCsrIndptr d) (inputRhs d) (lp d).

Definition with_numOutputConstraints (d : LpData) (n : Z) : LpData :=
  mkLpData (numOutputVars d) (numInitVars d) (numInputs d)
           (numInitConstraints d) n
           (inputCsrData d) (inputCsrIndices d) (inputCsrIndptr d) (inputRhs d) (lp d).

Definition with_inputCsr (d : LpData) (data : list float) (indices indptr : list Z)
    (rhs : list float) : LpData :=
  mkLpData (numOutputVars d) (numInitVars d) (numInputs d)
           (numInitConstraints d) (numOutputConstraints d)
           data indices indptr rhs (lp d).

(** How a call can end without returning. *)
Inductive error :=
| ConfigError                 (* "Fatal Error" on call order, sizes or lengths *)
| SolverAbort                 (* the solver library rejects an argument *)
| SimplexError (code : Z)     (* glp_simplex returned a nonzero code *)
| StatusError (status : Z).   (* solution status other than optimal or no-feasible *)

Inductive outcome (A : Type) :=
| Done (a : A) (s : process)
| Fatal (e : error) (s : process).
Arguments Done {A} a s.
Arguments Fatal {A} e s.

Definition final {A} (o : outcome A) : process :=
  match o with Done _ s => s | Fatal _ s => s end.

Definition M (A : Type) : Type := process -> outcome A.

Definition ret {A} (a : A) : M A := fun s => Done a s.

Definition bind {A B} (m : M A) (k : A -> M B) : M B :=
  fun s => match m s with
           | Done a s' => k a s'
           | Fatal e s' => Fatal e s'
           end.

Definition fatal {A} (e : error) : M A := fun s => Fatal e s.

Declare Scope lp_scope.
Delimit Scope lp_scope with lp.
Notation "x <- m ;; k" := (bind m (fun x => k))
  (at level 100, m at next level, right associativity) : lp_scope.
Notation "m ;; k" := (bind m (fun _ => k))
  (at level 100, right associativity) : lp_scope.
Open Scope lp_scope.

(** Reading a member, the problem object, or the global counters. *)
Definition gets {A} (f : LpData -> A) : M A := fun s => Done (f (this s)) s.
Definition glp_get {A} (f : glp_prob -> A) : M A := fun s => Done (f (lp (this s))) s.

Definition modify (f : LpData -> LpData) : M unit :=
  fun s => Done tt (with_this s (f (this s))).

(** A solver call that changes the problem object or aborts. *)
Definition glp (f : glp_prob -> option glp_prob) : M unit :=
  fun s => match f (lp (this s)) with
           | Some P => Done tt (with_this s (with_lp (this s) P))
           | None => Fatal SolverAbort s
           end.

(** A solver call that returns a value or aborts. *)
Definition glp_ask {A} (f : glp_prob -> option A) : M A :=
  fun s => match f (lp (this s)) with
           | Some a => Done a s
           | None => Fatal SolverAbort s
           end.

(** [for (int i = i0; ...; ++i)] run [n] times, threading the locals [a]. *)
Fixpoint for_ {A} (n : nat) (i : Z) (body : Z -> A -> M A) (a : A) : M A :=
  match n with
  | O => ret a
  | S n' => a' <- body i a ;; for_ n' (i + 1) body a'
  end.

(** [for (int i = 0; i < hi; ++i)]. *)
Definition for_upto {A} (hi : Z) (body : Z -> A -> M A) (a : A) : M A :=
  for_ (Z.to_nat hi) 0 body a.

(** The same for a loop that touches locals only. *)
Fixpoint loop {A} (n : nat) (i : Z) (body : Z -> A -> A) (a : A) : A :=
  match n with
  | O => a
  | S n' => loop n' (i + 1) body (body i a)
  end.

Definition loop_upto {A} (hi : Z) (body : Z -> A -> A) (a : A) : A :=
  loop (Z.to_nat hi) 0 body a.

Definition nonzero (d : float) : bool := negb (PrimFloat.eqb d 0%float).

(** [v[i]] and [v[i] = x] on arrays and vectors. *)
Definition rd {A} `{Inhabited A} (v : list A) (i : Z) : A := v !!! Z.to_nat i.
Definition wr {A} (v : list A) (i : Z) (x : A) : list A := <[Z.to_nat i := x]> v.

(** [vector<T> v(n, x)] and [v.resize(n)] with filler [x]. *)
Definition vector {A} (n : Z) (x : A) : list A := replicate (Z.to_nat n) x.
Definition resize {A} (v : list A) (n : Z) (x : A) : list A :=
  take (Z.to_nat n) v ++ replicate (Z.to_nat n - length v) x.

(** ** The methods of [LpData] *)

(** Members as set by the initialiser list and the default member
    initialisers, before the constructor body runs. *)
Definition blank (nOV nIV nIn : Z) : LpData :=
  mkLpData nOV nIV nIn (-1) (-1) [] [] [] [] glp_create_prob.

(** Constructor body. *)
Definition LpData_body : M unit :=
  nOV <- gets numOutputVars ;;
  nIV <- gets numInitVars ;;
  if (nOV <=? 0) || (nIV <=? 0) then fatal ConfigError else
  nIn <- gets numInputs ;;
  if negb (nIn =? 0) then fatal ConfigError else
  glp (fun _ => Some glp_create_prob) ;;
  glp (glp_set_obj_dir GLP_MIN) ;;
  glp (glp_add_cols (nOV + nIV)) ;;
  for_upto (nOV + nIV) (fun i _ =>
    glp (glp_set_col_bnds (i + 1) GLP_FR 0%float 0%float)) tt.

(** [LpData(numOutputVars, numInitVars, numInputs)] in a process with
    counters [g] and earlier simplex calls [calls]. *)
Definition LpData_new (g : GlobalLpData) (calls : list (glp_prob * Z))
    (nOV nIV nIn : Z) : outcome unit :=
  LpData_body (mkProcess g calls (blank nOV nIV nIn)).

Definition resetLp : M unit :=
  rows <- glp_get glp_get_num_rows ;;
  cols <- glp_get glp_get_num_cols ;;
  for_upto rows (fun r _ => glp (glp_set_row_stat (r + 1) GLP_BS)) tt ;;
  for_upto cols (fun c _ => glp (glp_set_col_stat (c + 1) GLP_NF)) tt.

Definition setInputConstraintsCsr (data : list float) (dataLen : Z)
    (indices : list Z) (indicesLen : Z) (indptr : list Z) (indptrLen : Z)
    (rhs : list float) (rhsLen : Z) : M unit :=
  if negb (dataLen =? indicesLen) then fatal ConfigError else
  if negb (indptrLen =? rhsLen + 1) then fatal ConfigError else
  if negb (rd indptr (indptrLen - 1) =? dataLen) then fatal ConfigError else
  modify (fun d => with_inputCsr d
            (resize (inputCsrData d) dataLen 0%float)
            (resize (inputCsrIndices d) indicesLen 0)
            (resize (inputCsrIndptr d) indptrLen 0)
            (resize (inputRhs d) rhsLen 0%float)) ;;
  modify (fun d => with_inputCsr d
            (loop_upto dataLen (fun i v => wr v i (rd data i)) (inputCsrData d))
            (inputCsrIndices d) (inputCsrIndptr d) (inputRhs d)) ;;
  modify (fun d => with_inputCsr d (inputCsrData d)
            (loop_upto indicesLen (fun i v => wr v i (rd indices i)) (inputCsrIndices d))
            (inputCsrIndptr d) (inputRhs d)) ;;
  modify (fun d => with_inputCsr d (inputCsrData d) (inputCsrIndices d)
            (loop_upto indptrLen (fun i v => wr v i (rd indptr i)) (inputCsrIndptr d))
            (inputRhs d)) ;;
  modify (fun d => with_inputCsr d (inputCsrData d) (inputCsrIndices d) (inputCsrIndptr d)
            (loop_upto rhsLen (fun i v => wr v i (rd rhs i)) (inputRhs d))).

(** The scan of one dense row into the scratch arrays: the locals are
    [rowIndex], [rowIndices] and [rowData]; [off] is the column offset. *)
Definition scan_row (mat : list float) (w row off : Z)
    (rowIndices : list Z) (rowData : list float) : Z * list Z * list float :=
  loop_upto w (fun i '(rowIndex, rowIndices, rowData) =>
    let d := rd mat (row * w + i) in
    if nonzero d
    then (rowIndex + 1, wr rowIndices rowIndex (off + i + 1), wr rowData rowIndex d)
    else (rowIndex, rowIndices, rowData)) (1, rowIndices, rowData).

Definition setInitConstraints (mat : list float) (w h : Z) (rhs : list float)
    (rhsLen : Z) : M unit :=
  nIC <- gets numInitConstraints ;;
  if negb (nIC =? -1) then fatal ConfigError else
  modify (fun d => with_numInitConstraints d rhsLen) ;;
  if negb (h =? rhsLen) then fatal ConfigError else
  nIV <- gets numInitVars ;;
  if negb (w =? nIV) then fatal ConfigError else
  rows <- glp_get glp_get_num_rows ;;
  if negb (rows =? 0) then fatal ConfigError else
  glp (glp_add_rows rhsLen) ;;
  for_upto rhsLen (fun i _ =>
    glp (glp_set_row_bnds (i + 1) GLP_UP 0%float (rd rhs i))) tt ;;
  for_upto rhsLen (fun row '(rowIndices, rowData) =>
    let '(rowIndex, rowIndices, rowData) := scan_row mat w row 0 rowIndices rowData in
    glp (glp_set_mat_row (row + 1) (rowIndex - 1) rowIndices rowData) ;;
    ret (rowIndices, rowData))
    (vector (w + 1) 0, vector (w + 1) 0%float) ;;
  ret tt.

Definition setOutputConstraints (mat : list float) (w h : Z) (rhs : list float)
    (rhsLen : Z) : M unit :=
  nOC <- gets numOutputConstraints ;;
  if negb (nOC =? -1) then fatal ConfigError else
  modify (fun d => with_numOutputConstraints d rhsLen) ;;
  nOV <- gets numOutputVars ;;
  if negb (w =? nOV) then fatal ConfigError else
  rows <- glp_get glp_get_num_rows ;;
  nIC <- gets numInitConstraints ;;
  if negb (rows =? nIC) then fatal ConfigError else
  nOC <- gets numOutputConstraints ;;
  (if 0 <? nOC then
     glp (glp_add_rows rhsLen) ;;
     for_upto rhsLen (fun r _ =>
       nIC <- gets numInitConstraints ;;
       glp (glp_set_row_bnds (nIC + r + 1) GLP_UP 0%float (rd rhs r))) tt ;;
     for_upto rhsLen (fun row '(rowIndices, rowData) =>
       nIV <- gets numInitVars ;;
       nIC <- gets numInitConstraints ;;
       let '(rowIndex, rowIndices, rowData) :=
         scan_row mat w row nIV rowIndices rowData in
       glp (glp_set_mat_row (nIC + row + 1) (rowIndex - 1) rowIndices rowData) ;;
       ret (rowIndices, rowData))
       (vector (w + 1) 0, vector (w + 1) 0%float) ;;
     ret tt
   else ret tt) ;;
  nOV <- gets numOutputVars ;;
  glp (glp_add_rows nOV) ;;
  for_upto nOV (fun r _ =>
    nIC <- gets numInitConstraints ;;
    nOC <- gets numOutputConstraints ;;
    glp (glp_set_row_bnds (nIC + nOC + r + 1) GLP_FX 0%float 0%float)) tt.

Definition setNoOutputConstraints : M unit :=
  nOC <- gets numOutputConstraints ;;
  if negb (nOC =? -1) then fatal ConfigError else
  nOV <- gets numOutputVars ;;
  setOutputConstraints [] nOV 0 [] 0.

(** The inner loop of [updateBasisMatrix] for output row [r]. *)
Definition fill_row (mat : list float) (w r : Z)
    (rowIndices : list Z) (rowData : list float) : list Z * list float :=
  loop_upto w (fun i '(rowIndices, rowData) =>
    ((if r =? 0 then wr rowIndices (i + 1) (1 + i) else rowIndices),
     wr rowData (i + 1) (rd mat (r * w + i)))) (rowIndices, rowData).

Definition updateBasisMatrix (mat : list float) (w h : Z) : M unit :=
  nIV <- gets numInitVars ;;
  nOV <- gets numOutputVars ;;
  if negb (w =? nIV) || negb (h =? nOV) then fatal ConfigError else
  nOC <- gets numOutputConstraints ;;
  if nOC =? -1 then fatal ConfigError else
  for_upto nOV (fun r '(rowIndices, rowData) =>
    nIC <- gets numInitConstraints ;;
    nOC <- gets numOutputConstraints ;;
    let lpRow := nIC + nOC + r + 1 in
    let '(rowIndices, rowData) := fill_row mat w r rowIndices rowData in
    let rowIndices := wr rowIndices (w + 1) (1 + w + r) in
    let rowData := wr rowData (w + 1) (-1)%float in
    glp (glp_set_mat_row lpRow (w + 1) rowIndices rowData) ;;
    ret (rowIndices, rowData))
    (vector (w + 2) 0, vector (w + 2) 0%float) ;;
  ret tt.

(** [processSimplexResult]: the return value and the result buffer.  The
    choice of the message printed before [exit(1)] has no other effect and is
    left out, as is the check that the two message tables have the same
    length, which they have. *)
Definition processSimplexResult (simplexRes : Z) (result : list float) (resLen : Z)
    : M (Z * list float) :=
  if simplexRes =? GLP_ENOPFS then ret (1, result)
  else if negb (simplexRes =? 0) then fatal (SimplexError simplexRes)
  else
    status <- glp_get glp_get_status ;;
    if status =? GLP_OPT then
      numCols <- glp_get glp_get_num_cols ;;
      result <- for_upto (Z.min resLen numCols) (fun col result =>
                  v <- glp_ask (fun P => glp_get_col_prim P (col + 1)) ;;
                  ret (wr result col v)) result ;;
      ret (0, result)
    else if status =? GLP_NOFEAS then ret (1, result)
    else fatal (StatusError status).

(** [addRows]: the private helper that appends [num] rows bounded above by
    [bound_vec]. *)
Definition addRows (num : Z) (bound_vec : list float) : M unit :=
  curRows <- glp_get glp_get_num_rows ;;
  glp (glp_add_rows num) ;;
  for_upto num (fun r _ =>
    glp (glp_set_row_bnds (curRows + r + 1) GLP_UP 0%float (rd bound_vec r))) tt.

Section Interface.

(** The simplex method of the solver library. *)
Variable solver : simplex_method.

(** One call of [glp_simplex(lp, &params)]. *)
Definition simplex : M Z :=
  fun s =>
    let P := lp (this s) in
    let '(r, P') := glp_simplex (solver (simplex_calls s) P) P in
    Done r (mkProcess (global s) ((P, r) :: simplex_calls s) (with_lp (this s) P')).

(** [global.iterations += newIterations; ++global.optimizations;] in [int]
    arithmetic. *)
Definition add_statistics (newIterations : Z) : M unit :=
  fun s => Done tt (mkProcess
    (mkGlobal (wrap_int (optimizations (global s) + 1))
              (wrap_int (iterations (global s) + newIterations)))
    (simplex_calls s) (this s)).

(** [minimize]: returns 0 on success and 1 on unsat, with the buffer. *)
Definition minimize (direction : list float) (dirLen : Z) (result : list float)
    (resLen : Z) : M (Z * list float) :=
  nIC <- gets numInitConstraints ;;
  nOC <- gets numOutputConstraints ;;
  if (nIC =? -1) || (nOC =? -1) then fatal ConfigError else
  nOV <- gets numOutputVars ;;
  if negb (dirLen =? nOV) then fatal ConfigError else
  for_upto nOV (fun i _ =>
    nIV <- gets numInitVars ;;
    glp (glp_set_obj_coef (1 + nIV + i) (rd direction i))) tt ;;
  startIterations <- glp_get glp_get_it_cnt ;;
  simplexRes <- simplex ;;
  simplexRes <- (if negb (simplexRes =? 0) then resetLp ;; simplex
                 else ret simplexRes) ;;
  it <- glp_get glp_get_it_cnt ;;
  add_statistics (it - startIterations) ;;
  processSimplexResult simplexRes result resLen.

(** The calls a client can make on an instance.  [printLp] only prints and
    is left out, as is the destructor; the private helpers are no calls of
    a client. *)
Inductive call :=
| ResetLp
| SetInputConstraintsCsr (data : list float) (dataLen : Z) (indices : list Z)
    (indicesLen : Z) (indptr : list Z) (indptrLen : Z) (rhs : list float) (rhsLen : Z)
| SetInitConstraints (mat : list float) (w h : Z) (rhs : list float) (rhsLen : Z)
| SetNoOutputConstraints
| SetOutputConstraints (mat : list float) (w h : Z) (rhs : list float) (rhsLen : Z)
| UpdateBasisMatrix (mat : list float) (w h : Z)
| Minimize (direction : list float) (dirLen : Z) (result : list float) (resLen : Z).

Definition exec (c : call) : M unit :=
  match c with
  | ResetLp => resetLp
  | SetInputConstraintsCsr data dataLen indices indicesLen indptr indptrLen rhs rhsLen =>
      setInputConstraintsCsr data dataLen indices indicesLen indptr indptrLen rhs rhsLen
  | SetInitConstraints mat w h rhs rhsLen => setInitConstraints mat w h rhs rhsLen
  | SetNoOutputConstraints => setNoOutputConstraints
  | SetOutputConstraints mat w h rhs rhsLen => setOutputConstraints mat w h rhs rhsLen
  | UpdateBasisMatrix mat w h => updateBasisMatrix mat w h
  | Minimize direction dirLen result resLen =>
      minimize direction dirLen result resLen ;; ret tt
  end.

Fixpoint run (cs : list call) : M unit :=
  match cs with
  | [] => ret tt
  | c :: cs' => exec c ;; run cs'
  end.

(** States an instance can be in: constructed, then any calls that
    returned. *)
Definition reachable (s : process) : Prop :=
  exists g calls nOV nIV nIn s0 cs,
    LpData_new g calls nOV nIV nIn = Done tt s0 /\ run cs s0 = Done tt s.

End Interface.

(** ** Vocabulary of the properties *)

(** [keeps f m]: whatever way [m] ends, the part [f] of the state is as it
    was. *)
Definition keeps {X A} (f : process -> X) (m : M A) : Prop :=
  forall s, f (final (m s)) = f s.

(** [gkeeps F g]: the solver call [g] leaves the part [F] of the problem
    object as it was. *)
Definition gkeeps {X} (F : glp_prob -> X) (g : glp_prob -> option glp_prob) : Prop :=
  forall P P', g P = Some P' -> F P' = F P.

(** Calls that rewrite rows only, and calls that rewrite columns only. *)
Definition row_only (g : glp_prob -> option glp_prob) : Prop :=
  forall P P', g P = Some P' -> exists rs, P' = set_row P rs.

Definition col_only (g : glp_prob -> option glp_prob) : Prop :=
  forall P P', g P = Some P' -> exists cs, P' = set_col P cs.

(** Row count, column count, column bound types and iteration count of the
    instance's problem object. *)
Definition nrows (s : process) : Z := glp_get_num_rows (lp (this s)).

Definition ncols (s : process) : Z := glp_get_num_cols (lp (this s)).

Definition ctypes (s : process) : list Z := c_type <$> col (lp (this s)).

Definition itcnt (s : process) : Z := glp_get_it_cnt (lp (this s)).

(** The sizes fixed at construction and the two row counts of the instance. *)
Definition dims (s : process) : Z * Z * Z * Z :=
  (numOutputVars (this s), numInitVars (this s),
   numInitConstraints (this s), numOutputConstraints (this s)).

(** The number of rows, the number of columns and the column bound types. *)
Definition shape (s : process) : Z * Z * list Z := (nrows s, ncols s, ctypes s).

(** The order property as the specification words it: an output installer
    called before [setInitConstraints] ends in the configuration error with
    the instance unchanged. *)
Definition order_error_leaves_instance_unchanged : Prop :=
  forall s mat w h rhs rhsLen,
    numInitConstraints (this s) = -1 ->
    setOutputConstraints mat w h rhs rhsLen s = Fatal ConfigError s.

(** A fresh instance with the given numbers of output and initial
    variables, in a process that has made no optimization yet. *)
Definition fresh (nOV nIV : Z) : process :=
  final (LpData_new (mkGlobal 0 0) [] nOV nIV 0).

(** Bound type, bounds and basis status of a row: all of it but the
    coefficient entries. *)
Definition row_meta (r : GLPROW) : Z * float * float * Z :=
  (r_type r, r_lb r, r_ub r, r_stat r).

(** The members other than the problem object; the problem object without
    its rows; the rows without their entries; the rows of the first two
    blocks. *)
Definition members (s : process) : LpData := with_lp (this s) glp_create_prob.

Definition beside_rows (s : process) : glp_prob := set_row (lp (this s)) [].

Definition rows_meta (s : process) : list (Z * float * float * Z) :=
  row_meta <$> row (lp (this s)).

Definition low_rows (s : process) : list GLPROW :=
  take (Z.to_nat (numInitConstraints (this s) + numOutputConstraints (this s)))
       (row (lp (this s))).

(** [s'] differs from [s] at most in the coefficient entries of rows after
    row [k]. *)
Definition only_coefs_after (k : Z) (s s' : process) : Prop :=
  global s' = global s /\ simplex_calls s' = simplex_calls s
  /\ members s' = members s /\ beside_rows s' = beside_rows s
  /\ rows_meta s' = rows_meta s
  /\ take (Z.to_nat k) (row (lp (this s'))) = take (Z.to_nat k) (row (lp (this s))).

(** The calls made once both blocks are installed. *)
Definition post_call (c : call) : Prop :=
  match c with
  | ResetLp | SetInputConstraintsCsr _ _ _ _ _ _ _ _
  | UpdateBasisMatrix _ _ _ | Minimize _ _ _ _ => True
  | _ => False
  end.

(** [numInitConstraints] is set and the problem has more rows than that:
    the output block has been installed. *)
Definition rows_beyond_init (s : process) : Prop :=
  numInitConstraints (this s) <> -1 /\ numInitConstraints (this s) < nrows s.

(** The two output installers. *)
Definition output_installer (c : call) : Prop :=
  match c with
  | SetOutputConstraints _ _ _ _ _ | SetNoOutputConstraints => True
  | _ => False
  end.

(** Primal value of column [j], or 0 if there is no such column. *)
Definition col_prim (s : process) (j : Z) : float :=
  default 0%float (glp_get_col_prim (lp (this s)) j).

(** The objective loop of [minimize]. *)
Definition set_objective (direction : list float) (nOV : Z) : M unit :=
  for_upto nOV (fun i _ =>
    nIV <- gets numInitVars ;;
    glp (glp_set_obj_coef (1 + nIV + i) (rd direction i))) tt.

(** The retry after a first simplex call that returned [r1]. *)
Definition retry (solver : simplex_method) (r1 : Z) : M Z :=
  if negb (r1 =? 0) then resetLp ;; simplex solver else ret r1.

(** Objective coefficients of the initial-variable columns. *)
Definition init_coefs (s : process) : list float :=
  take (Z.to_nat (numInitVars (this s))) (c_coef <$> col (lp (this s))).

(** The instance invariant: positive variable counts, one free column per
    variable, zero objective on the initial-variable columns, and the row
    layout once the output block is there. *)
Definition inv (s : process) : Prop :=
  0 < numOutputVars (this s) /\ 0 < numInitVars (this s)
  /\ ncols s = numInitVars (this s) + numOutputVars (this s)
  /\ Forall (eq GLP_FR) (ctypes s)
  /\ Forall (eq 0%float) (init_coefs s)
  /\ (numInitConstraints (this s) = -1 \/ 1 <= numInitConstraints (this s))
  /\ (0 <= numOutputConstraints (this s) ->
        1 <= numInitConstraints (this s)
        /\ nrows s = numInitConstraints (this s) + numOutputConstraints (this s)
                     + numOutputVars (this s)).

(** The objective of [minimize(direction)]: [direction[i]] on output
    column [nIV + i + 1], zero on the initial-variable columns [1..nIV]. *)
Definition objective_is (nIV nOV : Z) (direction : list float) (P : glp_prob) : Prop :=
  (forall i, 0 <= i < nOV -> glp_get_obj_coef P (nIV + i + 1) = rd direction i)
  /\ (forall j, 1 <= j <= nIV -> glp_get_obj_coef P j = 0%float).

(** Objective coefficients of all columns. *)
Definition obj_coefs (s : process) : list float := c_coef <$> col (lp (this s)).

(** A return code other than 0 and [GLP_ENOPFS]; the basis errors
    [GLP_EBADB], [GLP_ESING] and [GLP_ECOND] are of this kind. *)
Definition hard_error (r : Z) : bool := negb (r =? 0) && negb (r =? GLP_ENOPFS).

(** The entries [updateBasisMatrix] gives row [r] of the block: the matrix
    row on columns [1..w], then -1 on column [1 + w + r]. *)
Definition basis_entries (mat : list float) (w r : Z) : list (Z * float) :=
  ((fun k => (Z.of_nat k, rd mat (r * w + Z.of_nat k - 1))) <$> seq 1 (Z.to_nat w))
  ++ [(1 + w + r, (-1)%float)].

(** The rows after [k] rounds of the update loop: the rows [base ..
    base + k - 1] carry their basis entries, all else is as before. *)
Definition set_basis_rows (mat : list float) (w : Z) (base k : nat)
    (rows : list GLPROW) : list GLPROW :=
  imap (fun idx x =>
    if decide (base <= idx < base + k)%nat
    then mkROW (r_type x) (r_lb x) (r_ub x) (r_stat x)
               (basis_entries mat w (Z.of_nat (idx - base)))
    else x) rows.

(** The state [updateBasisMatrix] leaves when it returns. *)
Definition with_basis (mat : list float) (s : process) : process :=
  with_this s (with_lp (this s) (set_row (lp (this s))
    (set_basis_rows mat (numInitVars (this s))
       (Z.to_nat (numInitConstraints (this s) + numOutputConstraints (this s)))
       (Z.to_nat (numOutputVars (this s)))
       (row (lp (this s)))))).

(** The property as the specification words it: with a buffer of length
    [numOutputVars], [result[r]] is the primal value of output variable
    [r]. *)
Definition result_is_output_point (solver : simplex_method) : Prop :=
  forall (s s' : process) (direction : list float) (dirLen : Z)
         (result res' : list float) (rv : Z),
    reachable solver s ->
    Z.of_nat (length result) = numOutputVars (this s) ->
    minimize solver direction dirLen result (Z.of_nat (length result)) s
      = Done (rv, res') s' ->
    (exists P rest, simplex_calls s' = (P, 0) :: rest) ->
    glp_get_status (lp (this s')) = GLP_OPT ->
    rv = 0
    /\ forall r, 0 <= r < numOutputVars (this s) ->
         res' !! Z.to_nat r
         = glp_get_col_prim (lp (this s')) (numInitVars (this s) + r + 1).

(** The statistics as the specification words them: a [minimize] call that
    returns raises the optimization count by exactly 1 and does not lower
    the iteration count. *)
Definition statistics_grow (solver : simplex_method) : Prop :=
  forall (s s' : process) (direction : list float) (dirLen : Z)
         (result res' : list float) (resLen rv : Z),
    reachable solver s ->
    minimize solver direction dirLen result resLen s = Done (rv, res') s' ->
    optimizations (global s') = optimizations (global s) + 1
    /\ iterations (global s) <= iterations (global s').

(** Two initial and two output variables; the initial set is the unit box
    [|x| <= 1], [|y| <= 1]; no output constraints; the basis matrix scales
    [x] by 2. *)
Definition box_mat : list float := [1; 0; -1; 0; 0; 1; 0; -1]%float.

Definition box_rhs : list float := [1; 1; 1; 1]%float.

Definition scale_x : list float := [2; 0; 0; 1]%float.

(** A solver that answers with the vertex [x = -1], [y = -1], whose image
    is [(-2, -1)]: optimal for the direction [(1, 0)] on this instance. *)
Definition vertex_answer (ret : Z) : simplex_answer :=
  mkAnswer ret 2 GLP_OPT
    (fun i => if (i =? 2) || (i =? 4) then GLP_NU
              else if 5 <=? i then GLP_NS else GLP_BS)
    (fun _ => GLP_BS)
    (fun j => if j =? 3 then (-2)%float else (-1)%float).

Definition vertex_solver : simplex_method := fun _ _ => vertex_answer 0.

(** A solver whose first call in the process fails on a singular basis and
    whose later calls return [later]. *)
Definition stale_solver (later : Z) : simplex_method :=
  fun calls _ =>
    match calls with
    | [] => mkAnswer GLP_ESING 0 GLP_UNDEF (fun _ => GLP_NL) (fun _ => GLP_BS)
                     (fun _ => 0%float)
    | _ => vertex_answer later
    end.

(** The calls that set the box up, and the instance they leave. *)
Definition box_calls : list call :=
  [SetInitConstraints box_mat 2 4 box_rhs 4; SetNoOutputConstraints;
   UpdateBasisMatrix scale_x 2 2].

Definition box_instance (solver : simplex_method) : process :=
  final (run solver box_calls (fresh 2 2)).

(** The box with both blocks installed and no basis yet. *)
Definition installed_box : process :=
  final (run vertex_solver
           [SetInitConstraints box_mat 2 4 box_rhs 4; SetNoOutputConstraints]
           (fresh 2 2)).

(** The box in a process whose counters have reached the top of [int]. *)
Definition full_counters : GlobalLpData := mkGlobal INT_MAX INT_MAX.

Definition late_box : process :=
  final (run vertex_solver box_calls (final (LpData_new full_counters [] 2 2 0))).

(** [minimize] along [(1, 0)] on the box, with a buffer for all four
    columns and with a buffer of length [numOutputVars]. *)
Definition box_min (solver : simplex_method) (result : list float) : outcome (Z * list float) :=
  minimize solver [1; 0]%float 2 result (Z.of_nat (length result)) (box_instance solver).

(** *** Vocabulary of the further properties *)

(** The state with the rows of its problem replaced. *)
Definition with_rows (s : process) (rs : list GLPROW) : process :=
  with_this s (with_lp (this s) (set_row (lp (this s)) rs)).

(** The state with the columns of its problem replaced. *)
Definition with_cols (s : process) (cs : list GLPCOL) : process :=
  with_this s (with_lp (this s) (set_col (lp (this s)) cs)).

(** A free column as the constructor leaves it, and the instance the
    constructor builds. *)
Definition free_col : GLPCOL :=
  mkCOL GLP_FR 0%float 0%float 0%float GLP_NF 0%float.

Definition constructed (g : GlobalLpData) (calls : list (glp_prob * Z))
    (nOV nIV : Z) : process :=
  mkProcess g calls
    (with_lp (blank nOV nIV 0)
       (mkPROB GLP_MIN 0%float [] (replicate (Z.to_nat (nOV + nIV)) free_col)
               0 GLP_UNDEF)).

(** The constraints of a problem: per row the bound type, the bounds and
    the coefficient entries; per column the bound type and the bounds. *)
Definition row_part (P : glp_prob) : list (Z * float * float * list (Z * float)) :=
  (fun r => (r_type r, r_lb r, r_ub r, r_ptr r)) <$> row P.

Definition col_part (P : glp_prob) : list (Z * float * float) :=
  (fun c => (c_type c, c_lb c, c_ub c)) <$> col P.

Definition constraints (s : process)
    : list (Z * float * float * list (Z * float)) * list (Z * float * float) :=
  (row_part (lp (this s)), col_part (lp (this s))).

(** The nonzero entries of a dense matrix row among the columns [a ..
    a + n - 1], in column order, with column numbers shifted by [off]. *)
Definition sparse_from (mat : list float) (w row off : Z) (a n : nat) : list (Z * float) :=
  seq a n ≫= (fun i =>
    let d := rd mat (row * w + Z.of_nat i) in
    if nonzero d then [(off + Z.of_nat i + 1, d)] else []).

Definition sparse_row (mat : list float) (w row off : Z) : list (Z * float) :=
  sparse_from mat w row off 0 (Z.to_nat w).

(** A row [... <= ub] with the given entries, the block of such rows built
    from a dense matrix, and a row [... == 0] without entries. *)
Definition ineq_row (ub : float) (es : list (Z * float)) : GLPROW :=
  mkROW GLP_UP 0%float ub GLP_BS es.

Definition ineq_rows (mat : list float) (w off : Z) (rhs : list float) (n : nat)
    : list GLPROW :=
  (fun r => ineq_row (rd rhs (Z.of_nat r)) (sparse_row mat w (Z.of_nat r) off))
  <$> seq 0 n.

Definition fixed_row : GLPROW := mkROW GLP_FX 0%float 0%float GLP_BS [].

(** The rows after [k] rounds of a loop whose round [r] rewrites row
    [base + r] by [F r]. *)
Definition staged (F : nat -> GLPROW -> GLPROW) (base k : nat) (rows : list GLPROW)
    : list GLPROW :=
  imap (fun idx x => if decide (base <= idx < base + k)%nat then F (idx - base)%nat x else x)
       rows.

(** What [glp_set_row_bnds] and [glp_set_mat_row] do to the row they
    address. *)
Definition with_bnds (t : Z) (lb ub : float) (r : GLPROW) : GLPROW :=
  mkROW t (bnds_of t lb ub).1 (bnds_of t lb ub).2
        (stat_after_bnds t lb ub (r_stat r)) (r_ptr r).

Definition with_entries (es : list (Z * float)) (r : GLPROW) : GLPROW :=
  mkROW (r_type r) (r_lb r) (r_ub r) (r_stat r) es.

(** Bound type, upper bound and coefficients of row [i], as
    [glp_get_row_type], [glp_get_row_ub] and [glp_get_mat_row] report
    them. *)
Definition row_type (P : glp_prob) (i : Z) : option Z := r_type <$> row P !! pos i.
Definition row_ub (P : glp_prob) (i : Z) : option float := r_ub <$> row P !! pos i.

(** The coefficient that the scan of a dense matrix leaves for an entry
    [d]: the entry itself, or zero when [d] compares equal to zero. *)
Definition kept (d : float) : float := if nonzero d then d else 0%float.

(** The same outcome in a process changed by [T]. *)
Definition after {A} (T : process -> process) (o : outcome A) : outcome A :=
  match o with
  | Done a s => Done a (T s)
  | Fatal e s => Fatal e (T s)
  end.

(** The instance with other input constraints stored. *)
Definition with_inputs (data : list float) (indices indptr : list Z) (rhs : list float)
    (s : process) : process :=
  with_this s (with_inputCsr (this s) data indices indptr rhs).

(** [m] does not read the stored input constraints: with other ones
    stored it does the same. *)
Definition blind {A} (m : M A) : Prop :=
  forall data indices indptr rhs s,
    m (with_inputs data indices indptr rhs s)
    = after (with_inputs data indices indptr rhs) (m s).


(** The box with its initial block only, and one output constraint
    [x' + y' <= 3] for it. *)
Definition init_box : process :=
  final (setInitConstraints box_mat 2 4 box_rhs 4 (fresh 2 2)).

Definition sum_mat : list float := [1; 1]%float.
Definition sum_rhs : list float := [3]%float.

Definition output_box : process :=
  final (setOutputConstraints sum_mat 2 1 sum_rhs 1 init_box).

(** The rows of the basis block once [updateBasisMatrix] has filled them. *)
Definition basis_rows (mat : list float) (w : Z) (n : nat) : list GLPROW :=
  (fun r => mkROW GLP_FX 0%float 0%float GLP_BS (basis_entries mat w (Z.of_nat r)))
  <$> seq 0 n.

(** ** Reasoning about calls *)

Section Keeps.
Context {X : Type} (f : process -> X).

Lemma keeps_ret {A} (a : A) : keeps f (ret a).
Proof. intros s; reflexivity. Qed.

Lemma keeps_fatal {A} e : keeps f (@fatal A e).
Proof. intros s; reflexivity. Qed.

Lemma keeps_gets {A} (g : LpData -> A) : keeps f (gets g).
Proof. intros s; reflexivity. Qed.

Lemma keeps_glp_get {A} (g : glp_prob -> A) : keeps f (glp_get g).
Proof. intros s; reflexivity. Qed.

Lemma keeps_glp_ask {A} (g : glp_prob -> option A) : keeps f (glp_ask g).
Proof. intros s; unfold glp_ask; destruct (g _); reflexivity. Qed.

Lemma keeps_bind {A B} (m : M A) (k : A -> M B) :
  keeps f m -> (forall a, keeps f (k a)) -> keeps f (bind m k).
Proof.
  intros Hm Hk s. unfold bind. specialize (Hm s).
  destruct (m s) as [a s'|e s']; simpl in *; [|exact Hm].
  rewrite Hk. exact Hm.
Qed.

Lemma keeps_for {A} n i (body : Z -> A -> M A) a :
  (forall i a, keeps f (body i a)) -> keeps f (for_ n i body a).
Proof.
  intros Hb. revert i a. induction n as [|n IH]; intros i a; simpl.
  - apply keeps_ret.
  - apply keeps_bind; [apply Hb | intros; apply IH].
Qed.

Lemma keeps_for_upto {A} hi (body : Z -> A -> M A) a :
  (forall i a, keeps f (body i a)) -> keeps f (for_upto hi body a).
Proof. apply keeps_for. Qed.

Lemma keeps_glp g :
  (forall s P, g (lp (this s)) = Some P -> f (with_this s (with_lp (this s) P)) = f s) ->
  keeps f (glp g).
Proof.
  intros H s. unfold glp. destruct (g _) eqn:E; simpl; [apply H, E | reflexivity].
Qed.

Lemma keeps_modify g :
  (forall s, f (with_this s (g (this s))) = f s) -> keeps f (modify g).
Proof. intros H s. apply H. Qed.

End Keeps.

(** Splits a goal [keeps f m] along the structure of [m], down to the solver
    calls, member updates and simplex calls in it. *)
Ltac keeps_step :=
  match goal with
  | |- keeps _ (ret _) => apply keeps_ret
  | |- keeps _ (fatal _) => apply keeps_fatal
  | |- keeps _ (gets _) => apply keeps_gets
  | |- keeps _ (glp_get _) => apply keeps_glp_get
  | |- keeps _ (glp_ask _) => apply keeps_glp_ask
  | |- keeps _ (bind _ _) => apply keeps_bind; [|intros ?]
  | |- keeps _ (for_upto _ _ _) => apply keeps_for_upto; intros ? ?
  | |- keeps _ (for_ _ _ _ _) => apply keeps_for; intros ? ?
  | |- keeps _ (if ?b then _ else _) => destruct b
  | |- keeps _ (match ?x with (_, _) => _ end) => destruct x
  end.

Ltac keeps_split := repeat keeps_step.

(** The same, stopping in front of loops. *)
Ltac keeps_outer :=
  repeat match goal with
  | |- keeps _ (for_upto _ _ _) => fail 1
  | |- keeps _ (for_ _ _ _ _) => fail 1
  | |- _ => keeps_step
  end.

(** A problem-object part that a solver call keeps is kept by the call. *)
Lemma keeps_glp_part {X} (F : glp_prob -> X) g :
  gkeeps F g -> keeps (fun s => F (lp (this s))) (glp g).
Proof. intros H. apply keeps_glp. intros s P E. simpl. apply (H _ _ E). Qed.

(** Members other than the problem object, the counters and the record of
    simplex calls are out of reach of the solver calls. *)
Lemma keeps_glp_member {X} (D : LpData -> X) g :
  (forall d P, D (with_lp d P) = D d) -> keeps (fun s => D (this s)) (glp g).
Proof. intros H. apply keeps_glp. intros s P _. simpl. apply H. Qed.

Lemma keeps_glp_global g : keeps global (glp g).
Proof. apply keeps_glp. reflexivity. Qed.

Lemma keeps_glp_calls g : keeps simplex_calls (glp g).
Proof. apply keeps_glp. reflexivity. Qed.

(** *** What the solver calls leave alone *)

Ltac glp_inv H :=
  match type of H with
  | ?g = Some _ =>
      let h := head_of g in unfold h in H;
      repeat case_match; simplify_eq
  end
with head_of g :=
  match g with
  | ?h _ _ _ _ _ => h
  | ?h _ _ _ _ => h
  | ?h _ _ _ => h
  | ?h _ _ => h
  | ?h _ => h
  end.

Lemma fmap_alter_same {A B} (G : A -> B) (h : A -> A) (i : nat) (l : list A) :
  (forall x, G (h x) = G x) -> G <$> alter h i l = G <$> l.
Proof.
  intros H. apply list_eq. intros k. rewrite !list_lookup_fmap.
  destruct (decide (i = k)) as [->|Hne].
  - rewrite list_lookup_alter_eq. destruct (l !! k); simpl; [rewrite H|]; reflexivity.
  - rewrite list_lookup_alter_ne by congruence. reflexivity.
Qed.

Lemma row_only_add_rows n : row_only (glp_add_rows n).
Proof. intros P P' H. glp_inv H. eauto. Qed.

Lemma row_only_set_row_bnds i t lb ub : row_only (glp_set_row_bnds i t lb ub).
Proof. intros P P' H. glp_inv H. eauto. Qed.

Lemma row_only_set_row_stat i st : row_only (glp_set_row_stat i st).
Proof. intros P P' H. glp_inv H. eauto. Qed.

Lemma row_only_set_mat_row i len ind val : row_only (glp_set_mat_row i len ind val).
Proof. intros P P' H. glp_inv H. eauto. Qed.

Lemma col_only_add_cols n : col_only (glp_add_cols n).
Proof. intros P P' H. glp_inv H. eauto. Qed.

Lemma col_only_set_col_bnds j t lb ub : col_only (glp_set_col_bnds j t lb ub).
Proof. intros P P' H. glp_inv H. eauto. Qed.

Lemma col_only_set_col_stat j st : col_only (glp_set_col_stat j st).
Proof. intros P P' H. glp_inv H. eauto. Qed.

Create HintDb glpk discriminated.
#[export] Hint Resolve row_only_add_rows row_only_set_row_bnds row_only_set_row_stat
  row_only_set_mat_row col_only_add_cols col_only_set_col_bnds col_only_set_col_stat : glpk.

Lemma row_only_col g : row_only g -> gkeeps col g.
Proof. intros H P P' E. destruct (H _ _ E) as [rs ->]. reflexivity. Qed.

Lemma row_only_it_cnt g : row_only g -> gkeeps it_cnt g.
Proof. intros H P P' E. destruct (H _ _ E) as [rs ->]. reflexivity. Qed.

Lemma col_only_row g : col_only g -> gkeeps row g.
Proof. intros H P P' E. destruct (H _ _ E) as [rs ->]. reflexivity. Qed.

Lemma col_only_it_cnt g : col_only g -> gkeeps it_cnt g.
Proof. intros H P P' E. destruct (H _ _ E) as [rs ->]. reflexivity. Qed.

Lemma set_obj_coef_row j c : gkeeps row (glp_set_obj_coef j c).
Proof. intros P P' H. glp_inv H; reflexivity. Qed.

Lemma set_obj_coef_it_cnt j c : gkeeps it_cnt (glp_set_obj_coef j c).
Proof. intros P P' H. glp_inv H; reflexivity. Qed.

Lemma set_obj_coef_ncols j c : gkeeps (fun P => length (col P)) (glp_set_obj_coef j c).
Proof. intros P P' H. glp_inv H; simpl; [reflexivity | apply length_alter]. Qed.

Lemma set_obj_coef_ctypes j c : gkeeps (fun P => c_type <$> col P) (glp_set_obj_coef j c).
Proof.
  intros P P' H. glp_inv H; simpl; [reflexivity|].
  apply fmap_alter_same. reflexivity.
Qed.

Lemma set_row_bnds_nrows i t lb ub :
  gkeeps (fun P => length (row P)) (glp_set_row_bnds i t lb ub).
Proof. intros P P' H. glp_inv H. simpl. apply length_alter. Qed.

Lemma set_row_stat_nrows i st : gkeeps (fun P => length (row P)) (glp_set_row_stat i st).
Proof. intros P P' H. glp_inv H. simpl. apply length_alter. Qed.

Lemma set_mat_row_nrows i len ind val :
  gkeeps (fun P => length (row P)) (glp_set_mat_row i len ind val).
Proof. intros P P' H. glp_inv H. simpl. apply length_alter. Qed.

Lemma set_col_bnds_ncols j t lb ub :
  gkeeps (fun P => length (col P)) (glp_set_col_bnds j t lb ub).
Proof. intros P P' H. glp_inv H. simpl. apply length_alter. Qed.

Lemma set_col_stat_ncols j st : gkeeps (fun P => length (col P)) (glp_set_col_stat j st).
Proof. intros P P' H. glp_inv H. simpl. apply length_alter. Qed.

Lemma set_col_stat_ctypes j st : gkeeps (fun P => c_type <$> col P) (glp_set_col_stat j st).
Proof.
  intros P P' H. glp_inv H. simpl.
  apply fmap_alter_same. reflexivity.
Qed.

Lemma set_col_stat_coefs j st : gkeeps (fun P => c_coef <$> col P) (glp_set_col_stat j st).
Proof.
  intros P P' H. glp_inv H. simpl.
  apply fmap_alter_same. reflexivity.
Qed.

Lemma gkeeps_compose {X Y} (F : glp_prob -> X) (G : X -> Y) g :
  gkeeps F g -> gkeeps (fun P => G (F P)) g.
Proof. intros H P P' E. rewrite (H _ _ E). reflexivity. Qed.

(** ** Input constraints in CSR form *)

Lemma length_resize {A} (v : list A) n x : length (resize v n x) = Z.to_nat n.
Proof. unfold resize. rewrite length_app, length_take, length_replicate. lia. Qed.

(** The element-by-element copy [for (i = 0; i < n; ++i) dst[i] = src[i]]
    over arrays of the same length yields the source. *)
Lemma copy_loop {A} `{Inhabited A} (src : list A) :
  forall n k (dst : list A),
    (k + n = length src)%nat -> length dst = length src ->
    take k dst = take k src ->
    loop n (Z.of_nat k) (fun i v => wr v i (rd src i)) dst = src.
Proof.
  induction n as [|n IH]; intros k dst Hk Hlen Htake; simpl.
  - rewrite Nat.add_0_r in Hk. subst k.
    rewrite <- Hlen, firstn_all in Htake at 1.
    rewrite firstn_all in Htake. exact Htake.
  - replace (Z.of_nat k + 1) with (Z.of_nat (S k)) by lia.
    apply IH.
    + lia.
    + unfold wr. rewrite length_insert. exact Hlen.
    + unfold wr, rd. rewrite Nat2Z.id.
      assert (Hlt : (k < length src)%nat) by lia.
      destruct (lookup_lt_is_Some_2 src k Hlt) as [x Hx].
      rewrite (list_lookup_total_correct _ _ _ Hx).
      rewrite (take_S_r src k x Hx).
      rewrite (take_S_r (<[k:=x]> dst) k x).
      * rewrite take_insert_ge by lia. rewrite Htake. reflexivity.
      * apply list_lookup_insert_eq. lia.
Qed.

Lemma copy_into_resized {A} `{Inhabited A} (src old : list A) (x : A) :
  loop_upto (Z.of_nat (length src)) (fun i v => wr v i (rd src i))
            (resize old (Z.of_nat (length src)) x) = src.
Proof.
  unfold loop_upto. rewrite Nat2Z.id.
  apply (copy_loop src (length src) 0%nat).
  - lia.
  - rewrite length_resize. lia.
  - reflexivity.
Qed.

(** C9: [setInputConstraintsCsr], called with the lengths of its arrays,
    stores the four arrays and returns exactly when
    [len(data) == len(indices)], [len(indptr) == len(rhs) + 1] and
    [indptr[last] == len(data)]; in every other case it ends in the fatal
    configuration error, with the instance as it was. *)
Theorem setInputConstraintsCsr_accepts_exactly_wellformed
    (data : list float) (indices indptr : list Z) (rhs : list float) (s : process) :
  setInputConstraintsCsr
    data (Z.of_nat (length data)) indices (Z.of_nat (length indices))
    indptr (Z.of_nat (length indptr)) rhs (Z.of_nat (length rhs)) s
  = if (Z.of_nat (length data) =? Z.of_nat (length indices))
       && (Z.of_nat (length indptr) =? Z.of_nat (length rhs) + 1)
       && (rd indptr (Z.of_nat (length indptr) - 1) =? Z.of_nat (length data))
    then Done tt (with_this s (with_inputCsr (this s) data indices indptr rhs))
    else Fatal ConfigError s.
Proof.
  unfold setInputConstraintsCsr.
  destruct (Z.of_nat (length data) =? Z.of_nat (length indices)); simpl; [|reflexivity].
  destruct (Z.of_nat (length indptr) =? Z.of_nat (length rhs) + 1); simpl; [|reflexivity].
  destruct (rd indptr (Z.of_nat (length indptr) - 1) =? Z.of_nat (length data));
    simpl; [|reflexivity].
  unfold bind, modify, with_this, with_inputCsr; simpl.
  rewrite !copy_into_resized. reflexivity.
Qed.

(** *** Parts of the state that calls leave alone *)

Lemma keeps_pair {X Y A} (f : process -> X) (g : process -> Y) (m : M A) :
  keeps f m -> keeps g m -> keeps (fun s => (f s, g s)) m.
Proof. intros Hf Hg s. rewrite Hf, Hg. reflexivity. Qed.

Lemma keeps_done {X A} (f : process -> X) (m : M A) s a s' :
  keeps f m -> m s = Done a s' -> f s' = f s.
Proof. intros H E. specialize (H s). rewrite E in H. exact H. Qed.

Lemma keeps_final {X A} (f : process -> X) (m : M A) s :
  keeps f m -> f (final (m s)) = f s.
Proof. intros H. apply H. Qed.

Lemma num_rows_of_length g :
  gkeeps (fun P => length (row P)) g -> gkeeps glp_get_num_rows g.
Proof. intros H P P' E. unfold glp_get_num_rows. rewrite (H _ _ E). reflexivity. Qed.

Lemma num_rows_of_row g : gkeeps row g -> gkeeps glp_get_num_rows g.
Proof. intros H P P' E. unfold glp_get_num_rows. rewrite (H _ _ E). reflexivity. Qed.

Lemma num_cols_of_length g :
  gkeeps (fun P => length (col P)) g -> gkeeps glp_get_num_cols g.
Proof. intros H P P' E. unfold glp_get_num_cols. rewrite (H _ _ E). reflexivity. Qed.

Lemma num_cols_of_col g : gkeeps col g -> gkeeps glp_get_num_cols g.
Proof. intros H P P' E. unfold glp_get_num_cols. rewrite (H _ _ E). reflexivity. Qed.

Lemma ctypes_of_col g : gkeeps col g -> gkeeps (fun P => c_type <$> col P) g.
Proof. intros H P P' E. rewrite (H _ _ E). reflexivity. Qed.

Lemma keeps_nrows_glp g : gkeeps glp_get_num_rows g -> keeps nrows (glp g).
Proof. apply (keeps_glp_part glp_get_num_rows). Qed.

Lemma keeps_ncols_glp g : gkeeps glp_get_num_cols g -> keeps ncols (glp g).
Proof. apply (keeps_glp_part glp_get_num_cols). Qed.

Lemma keeps_ctypes_glp g : gkeeps (fun P => c_type <$> col P) g -> keeps ctypes (glp g).
Proof. apply (keeps_glp_part (fun P => c_type <$> col P)). Qed.

Lemma keeps_itcnt_glp g : gkeeps it_cnt g -> keeps itcnt (glp g).
Proof. apply (keeps_glp_part it_cnt). Qed.

Lemma keeps_dims_glp g : keeps dims (glp g).
Proof. apply keeps_glp. reflexivity. Qed.

Lemma keeps_shape_modify g :
  (forall d, lp (g d) = lp d) -> keeps shape (modify g).
Proof.
  intros H. apply keeps_modify. intros s.
  unfold shape, nrows, ncols, ctypes. simpl. rewrite H. reflexivity.
Qed.

Lemma keeps_itcnt_modify g :
  (forall d, lp (g d) = lp d) -> keeps itcnt (modify g).
Proof. intros H. apply keeps_modify. intros s. unfold itcnt. simpl. rewrite H. reflexivity. Qed.

Lemma keeps_shape_parts {A} (m : M A) :
  keeps nrows m -> keeps ncols m -> keeps ctypes m -> keeps shape m.
Proof. intros H1 H2 H3 s. unfold shape. rewrite H1, H2, H3. reflexivity. Qed.

#[export] Hint Resolve row_only_col row_only_it_cnt col_only_row col_only_it_cnt
  set_obj_coef_row set_obj_coef_it_cnt set_obj_coef_ncols set_obj_coef_ctypes
  set_row_bnds_nrows set_row_stat_nrows set_mat_row_nrows
  set_col_bnds_ncols set_col_stat_ncols set_col_stat_ctypes
  num_rows_of_length num_rows_of_row num_cols_of_length num_cols_of_col ctypes_of_col
  keeps_nrows_glp keeps_ncols_glp keeps_ctypes_glp keeps_itcnt_glp keeps_dims_glp
  keeps_glp_global keeps_glp_calls : glpk.

Ltac keeps_auto := keeps_split; eauto 6 with glpk.

(** [resetLp] changes basis statuses only. *)
Lemma resetLp_keeps_dims : keeps dims resetLp.
Proof. unfold resetLp. keeps_auto. Qed.

Lemma resetLp_keeps_shape : keeps shape resetLp.
Proof. apply keeps_shape_parts; unfold resetLp; keeps_auto. Qed.

Lemma resetLp_keeps_itcnt : keeps itcnt resetLp.
Proof. unfold resetLp. keeps_auto. Qed.

Lemma resetLp_keeps_global : keeps global resetLp.
Proof. unfold resetLp. keeps_auto. Qed.

Lemma resetLp_keeps_calls : keeps simplex_calls resetLp.
Proof. unfold resetLp. keeps_auto. Qed.

Lemma setInputConstraintsCsr_keeps_dims a b c d e f g h :
  keeps dims (setInputConstraintsCsr a b c d e f g h).
Proof. unfold setInputConstraintsCsr. keeps_split; apply keeps_modify; reflexivity. Qed.

Lemma setInputConstraintsCsr_keeps_shape a b c d e f g h :
  keeps shape (setInputConstraintsCsr a b c d e f g h).
Proof. unfold setInputConstraintsCsr. keeps_split; apply keeps_shape_modify; reflexivity. Qed.

Lemma updateBasisMatrix_keeps_dims mat w h : keeps dims (updateBasisMatrix mat w h).
Proof. unfold updateBasisMatrix. keeps_auto. Qed.

Lemma updateBasisMatrix_keeps_shape mat w h : keeps shape (updateBasisMatrix mat w h).
Proof. apply keeps_shape_parts; unfold updateBasisMatrix; keeps_auto. Qed.

Lemma processSimplexResult_keeps {X} (f : process -> X) r result resLen :
  keeps f (processSimplexResult r result resLen).
Proof. unfold processSimplexResult. keeps_auto. Qed.

(** *** Taking a returned call apart *)

Lemma bind_done {A B} (m : M A) (k : A -> M B) s b s' :
  bind m k s = Done b s' -> exists a s1, m s = Done a s1 /\ k a s1 = Done b s'.
Proof. unfold bind. destruct (m s) as [a s1|]; [eauto | discriminate]. Qed.

Lemma glp_done g s u s' :
  glp g s = Done u s' ->
  exists P, g (lp (this s)) = Some P /\ s' = with_this s (with_lp (this s) P).
Proof. unfold glp. destruct (g _); [|discriminate]. intros [= <- <-]. eauto. Qed.

Lemma add_rows_num_rows n P P' :
  glp_add_rows n P = Some P' ->
  1 <= n /\ glp_get_num_rows P' = glp_get_num_rows P + n.
Proof.
  intros H. glp_inv H. unfold glp_get_num_rows. simpl.
  rewrite length_app, length_replicate. lia.
Qed.

Lemma add_rows_done n s u s' :
  glp (glp_add_rows n) s = Done u s' ->
  1 <= n /\ nrows s' = nrows s + n /\ dims s' = dims s
  /\ ncols s' = ncols s /\ ctypes s' = ctypes s.
Proof.
  intros H. apply glp_done in H as (P & E & ->).
  pose proof (add_rows_num_rows _ _ _ E) as [? ?].
  pose proof (row_only_col _ (row_only_add_rows n) _ _ E) as Hc.
  unfold nrows, ncols, ctypes, glp_get_num_cols. simpl. rewrite Hc. auto.
Qed.

Lemma frame_done {A} (m : M A) s a s' :
  keeps dims m -> keeps nrows m -> keeps ncols m -> keeps ctypes m ->
  m s = Done a s' ->
  dims s' = dims s /\ nrows s' = nrows s /\ ncols s' = ncols s /\ ctypes s' = ctypes s.
Proof.
  intros H1 H2 H3 H4 E.
  rewrite <- (keeps_done _ _ _ _ _ H1 E), <- (keeps_done _ _ _ _ _ H2 E),
          <- (keeps_done _ _ _ _ _ H3 E), <- (keeps_done _ _ _ _ _ H4 E).
  auto.
Qed.

(** From a returned block of solver calls that add no rows: sizes, row and
    column counts and column types are as before. *)
Ltac frame_of H :=
  match type of H with
  | ?m ?s = Done ?a ?s' =>
      let K := fresh "K" in
      assert (K : dims s' = dims s /\ nrows s' = nrows s
                  /\ ncols s' = ncols s /\ ctypes s' = ctypes s)
        by (apply (frame_done m s a s');
            [keeps_auto | keeps_auto | keeps_auto | keeps_auto | exact H]);
      destruct K as (? & ? & ? & ?)
  end.

Lemma dims_eq s s' :
  dims s' = dims s ->
  numOutputVars (this s') = numOutputVars (this s)
  /\ numInitVars (this s') = numInitVars (this s)
  /\ numInitConstraints (this s') = numInitConstraints (this s)
  /\ numOutputConstraints (this s') = numOutputConstraints (this s).
Proof. unfold dims. intros [= -> -> -> ->]. auto. Qed.

(** What a returned [setInitConstraints] tells. *)
Lemma setInitConstraints_done mat w h rhs rhsLen s u s' :
  setInitConstraints mat w h rhs rhsLen s = Done u s' ->
  numInitConstraints (this s) = -1 /\ h = rhsLen /\ w = numInitVars (this s)
  /\ nrows s = 0 /\ 1 <= rhsLen
  /\ numInitConstraints (this s') = rhsLen /\ nrows s' = rhsLen
  /\ numOutputConstraints (this s') = numOutputConstraints (this s)
  /\ numOutputVars (this s') = numOutputVars (this s)
  /\ numInitVars (this s') = numInitVars (this s)
  /\ ncols s' = ncols s /\ ctypes s' = ctypes s.
Proof.
  unfold setInitConstraints. intros H. destruct u.
  apply bind_done in H as (nIC & s1 & [= <- <-] & H).
  destruct (numInitConstraints (this s) =? -1) eqn:E1; simpl in H; [|discriminate].
  apply bind_done in H as ([] & s1 & [= <-] & H).
  destruct (h =? rhsLen) eqn:E2; simpl in H; [|discriminate].
  apply bind_done in H as (nIV & s2 & [= <- <-] & H).
  simpl in H.
  destruct (w =? numInitVars (this s)) eqn:E3; simpl in H; [|discriminate].
  apply bind_done in H as (rows & s2 & [= <- <-] & H).
  simpl in H.
  destruct (glp_get_num_rows (lp (this s)) =? 0) eqn:E4; simpl in H; [|discriminate].
  apply bind_done in H as ([] & s2 & Hadd & H).
  apply bind_done in H as ([] & s3 & Hl1 & H).
  apply bind_done in H as (bufs & s4 & Hl2 & [= <-]).
  apply add_rows_done in Hadd as (Hn & Hr & Hd & Hc & Ht).
  frame_of Hl1. frame_of Hl2.
  apply Z.eqb_eq in E1, E2, E3, E4.
  assert (Hd' : dims s4 = dims s2) by congruence.
  apply dims_eq in Hd' as (D1 & D2 & D3 & D4).
  apply dims_eq in Hd as (D1' & D2' & D3' & D4'). simpl in *.
  change (glp_get_num_rows (lp (this s))) with (nrows s) in *.
  change (nrows (with_this s (with_numInitConstraints (this s) rhsLen)))
    with (nrows s) in *.
  change (ncols (with_this s (with_numInitConstraints (this s) rhsLen)))
    with (ncols s) in *.
  change (ctypes (with_this s (with_numInitConstraints (this s) rhsLen)))
    with (ctypes s) in *.
  repeat split; try congruence; try lia.
Qed.

(** What a returned [setOutputConstraints] tells. *)
Lemma setOutputConstraints_done mat w h rhs rhsLen s u s' :
  setOutputConstraints mat w h rhs rhsLen s = Done u s' ->
  numOutputConstraints (this s) = -1 /\ w = numOutputVars (this s)
  /\ nrows s = numInitConstraints (this s) /\ 1 <= numOutputVars (this s)
  /\ numOutputConstraints (this s') = rhsLen
  /\ nrows s' = nrows s + Z.max 0 rhsLen + numOutputVars (this s)
  /\ numInitConstraints (this s') = numInitConstraints (this s)
  /\ numOutputVars (this s') = numOutputVars (this s)
  /\ numInitVars (this s') = numInitVars (this s)
  /\ ncols s' = ncols s /\ ctypes s' = ctypes s.
Proof.
  unfold setOutputConstraints. intros H. destruct u.
  apply bind_done in H as (nOC & s1 & [= <- <-] & H).
  destruct (numOutputConstraints (this s) =? -1) eqn:E1; simpl in H; [|discriminate].
  apply bind_done in H as ([] & s1 & [= <-] & H).
  apply bind_done in H as (nOV & s1 & [= <- <-] & H). simpl in H.
  destruct (w =? numOutputVars (this s)) eqn:E2; simpl in H; [|discriminate].
  apply bind_done in H as (rows & s1 & [= <- <-] & H).
  apply bind_done in H as (nIC & s1 & [= <- <-] & H). simpl in H.
  destruct (glp_get_num_rows (lp (this s)) =? numInitConstraints (this s)) eqn:E3;
    simpl in H; [|discriminate].
  apply bind_done in H as (nOC & s1 & [= <- <-] & H). simpl in H.
  apply bind_done in H as ([] & s2 & Hblock & H).
  apply bind_done in H as (nOV & s3 & [= <- <-] & H).
  apply bind_done in H as ([] & s3 & Hadd & Hl3).
  set (s1 := with_this s (with_numOutputConstraints (this s) rhsLen)) in *.
  assert (K2 : dims s2 = dims s1 /\ nrows s2 = nrows s1 + Z.max 0 rhsLen
               /\ ncols s2 = ncols s1 /\ ctypes s2 = ctypes s1).
  { destruct (0 <? rhsLen) eqn:E4.
    - apply bind_done in Hblock as ([] & t1 & Ha & Hb).
      apply bind_done in Hb as ([] & t2 & Hl1 & Hb).
      apply bind_done in Hb as (bufs & t3 & Hl2 & [= <-]).
      apply add_rows_done in Ha as (Hn & Hr & Hd & Hc & Ht).
      frame_of Hl1. frame_of Hl2.
      repeat split; try congruence. lia.
    - injection Hblock as <-. apply Z.ltb_ge in E4. repeat split. lia. }
  destruct K2 as (Kd2 & Kr2 & Kc2 & Kt2).
  apply add_rows_done in Hadd as (Hn & Hr & Hd & Hc & Ht).
  frame_of Hl3.
  assert (Hd' : dims s' = dims s1) by congruence.
  apply dims_eq in Hd' as (D1 & D2 & D3 & D4).
  apply dims_eq in Kd2 as (D1' & D2' & D3' & D4').
  apply Z.eqb_eq in E1, E2, E3.
  change (glp_get_num_rows (lp (this s))) with (nrows s) in *.
  assert (S1 : nrows s1 = nrows s /\ ncols s1 = ncols s /\ ctypes s1 = ctypes s)
    by (repeat split).
  destruct S1 as (S1 & S2 & S3).
  subst s1. simpl in *.
  repeat split; try congruence; try lia.
Qed.

Lemma setNoOutputConstraints_eq s :
  numOutputConstraints (this s) = -1 ->
  setNoOutputConstraints s = setOutputConstraints [] (numOutputVars (this s)) 0 [] 0 s.
Proof.
  intros H. unfold setNoOutputConstraints, bind at 1, gets at 1. simpl.
  rewrite H. reflexivity.
Qed.

Lemma setNoOutputConstraints_done s u s' :
  setNoOutputConstraints s = Done u s' ->
  setOutputConstraints [] (numOutputVars (this s)) 0 [] 0 s = Done u s'.
Proof.
  intros H. rewrite <- H. symmetry. apply setNoOutputConstraints_eq.
  unfold setNoOutputConstraints, bind at 1, gets at 1 in H. simpl in H.
  destruct (numOutputConstraints (this s) =? -1) eqn:E; [|discriminate].
  apply Z.eqb_eq, E.
Qed.

(** *** Calls made in the wrong order *)

Lemma with_numOutputConstraints_same s :
  with_this s (with_numOutputConstraints (this s) (numOutputConstraints (this s))) = s.
Proof. destruct s as [g c []]. reflexivity. Qed.

(** With a row count other than [numInitConstraints], the output installer
    ends in the configuration error; by then it has stored its [rhsLen] if
    [numOutputConstraints] was still unset. *)
Lemma setOutputConstraints_order_error mat w h rhs rhsLen s :
  nrows s <> numInitConstraints (this s) ->
  setOutputConstraints mat w h rhs rhsLen s =
    Fatal ConfigError
      (with_this s (with_numOutputConstraints (this s)
         (if numOutputConstraints (this s) =? -1 then rhsLen
          else numOutputConstraints (this s)))).
Proof.
  intros Hne. unfold setOutputConstraints, bind, gets, modify, glp_get. simpl.
  destruct (numOutputConstraints (this s) =? -1) eqn:E1; simpl.
  - destruct (w =? numOutputVars (this s)); simpl; [|reflexivity].
    destruct (glp_get_num_rows (lp (this s)) =? numInitConstraints (this s)) eqn:E3;
      simpl; [|reflexivity].
    apply Z.eqb_eq in E3. contradiction.
  - rewrite with_numOutputConstraints_same. reflexivity.
Qed.

Lemma setNoOutputConstraints_order_error s :
  nrows s <> numInitConstraints (this s) ->
  setNoOutputConstraints s =
    Fatal ConfigError
      (with_this s (with_numOutputConstraints (this s)
         (if numOutputConstraints (this s) =? -1 then 0
          else numOutputConstraints (this s)))).
Proof.
  intros Hne. destruct (numOutputConstraints (this s) =? -1) eqn:E1.
  - rewrite setNoOutputConstraints_eq by (apply Z.eqb_eq, E1).
    rewrite setOutputConstraints_order_error by exact Hne. rewrite E1. reflexivity.
  - unfold setNoOutputConstraints, bind, gets. simpl. rewrite E1. simpl.
    rewrite with_numOutputConstraints_same. reflexivity.
Qed.

Lemma nrows_nonneg s : 0 <= nrows s.
Proof. unfold nrows, glp_get_num_rows. lia. Qed.

(** C4, as stated, fails: on a fresh instance with one variable of each
    kind, [setOutputConstraints] with no rows ends in the configuration
    error, but [numOutputConstraints] has gone from -1 to 0 by then. *)
Lemma order_error_changes_numOutputConstraints :
  LpData_new (mkGlobal 0 0) [] 1 1 0 = Done tt (fresh 1 1)
  /\ numInitConstraints (this (fresh 1 1)) = -1
  /\ numOutputConstraints (this (fresh 1 1)) = -1
  /\ (exists s', setOutputConstraints [] 1 0 [] 0 (fresh 1 1) = Fatal ConfigError s'
                 /\ numOutputConstraints (this s') = 0)
  /\ ~ order_error_leaves_instance_unchanged.
Proof.
  split; [reflexivity|]. split; [reflexivity|]. split; [reflexivity|].
  split.
  - eexists. split; [vm_compute; reflexivity | reflexivity].
  - intros H. specialize (H (fresh 1 1) [] 1 0 [] 0 eq_refl).
    assert (E : numOutputConstraints (this (final
                 (setOutputConstraints [] 1 0 [] 0 (fresh 1 1)))) = 0)
      by (vm_compute; reflexivity).
    rewrite H in E. vm_compute in E. discriminate.
Qed.

(** C4, amended: an output installer called before [setInitConstraints]
    (that is, with [numInitConstraints] unset) always ends in the
    configuration error; the problem object, [numInitConstraints] and every
    other part of the state are as before, except that
    [numOutputConstraints], if it was unset, now holds the [rhsLen] of the
    call (0 for [setNoOutputConstraints]).  [updateBasisMatrix] called
    before an output installer has set [numOutputConstraints] always ends
    in the configuration error with the state exactly as before. *)
Theorem call_order_errors (s : process) :
  (numInitConstraints (this s) = -1 ->
     (forall mat w h rhs rhsLen,
        setOutputConstraints mat w h rhs rhsLen s =
          Fatal ConfigError
            (with_this s (with_numOutputConstraints (this s)
               (if numOutputConstraints (this s) =? -1 then rhsLen
                else numOutputConstraints (this s)))))
     /\ setNoOutputConstraints s =
          Fatal ConfigError
            (with_this s (with_numOutputConstraints (this s)
               (if numOutputConstraints (this s) =? -1 then 0
                else numOutputConstraints (this s)))))
  /\ (numOutputConstraints (this s) = -1 ->
        forall mat w h, updateBasisMatrix mat w h s = Fatal ConfigError s).
Proof.
  split.
  - intros Hi. pose proof (nrows_nonneg s).
    split; [intros|]; [apply setOutputConstraints_order_error
                      | apply setNoOutputConstraints_order_error]; lia.
  - intros Ho mat w h. unfold updateBasisMatrix, bind, gets. simpl.
    destruct (negb (w =? numInitVars (this s)) || negb (h =? numOutputVars (this s)));
      [reflexivity|].
    rewrite Ho. reflexivity.
Qed.

Lemma call_order_errors_witness :
  numInitConstraints (this (fresh 2 2)) = -1
  /\ numOutputConstraints (this (fresh 2 2)) = -1
  /\ setNoOutputConstraints (fresh 2 2) =
       Fatal ConfigError
         (with_this (fresh 2 2) (with_numOutputConstraints (this (fresh 2 2)) 0))
  /\ updateBasisMatrix [1; 0; 0; 1]%float 2 2 (fresh 2 2) = Fatal ConfigError (fresh 2 2).
Proof.
  split; [reflexivity|]. split; [reflexivity|].
  destruct (call_order_errors (fresh 2 2)) as [Hi Ho].
  split.
  - exact (proj2 (Hi eq_refl)).
  - exact (Ho eq_refl _ _ _).
Defined.

(** ** Row layout and installation *)

Lemma for_nonneg {X A} (f : process -> X) n i (body : Z -> A -> M A) a :
  0 <= i -> (forall j a, 0 <= j -> keeps f (body j a)) -> keeps f (for_ n i body a).
Proof.
  intros Hi Hb. revert i a Hi. induction n as [|n IH]; intros i a Hi; simpl.
  - apply keeps_ret.
  - apply keeps_bind; [apply Hb, Hi | intros; apply IH; lia].
Qed.

Lemma set_mat_row_meta i len ind val :
  gkeeps (fun P => row_meta <$> row P) (glp_set_mat_row i len ind val).
Proof. intros P P' H. glp_inv H. simpl. apply fmap_alter_same. reflexivity. Qed.

Lemma row_only_beside g : row_only g -> gkeeps (fun P => set_row P []) g.
Proof. intros H P P' E. destruct (H _ _ E) as [rs ->]. reflexivity. Qed.

Lemma set_mat_row_take k i len ind val P P' :
  (k <= pos i)%nat ->
  glp_set_mat_row i len ind val P = Some P' -> take k (row P') = take k (row P).
Proof. intros Hk H. glp_inv H. simpl. apply take_alter_ge. exact Hk. Qed.

Lemma updateBasisMatrix_keeps_low_rows mat w h : keeps low_rows (updateBasisMatrix mat w h).
Proof.
  unfold updateBasisMatrix. keeps_outer.
  unfold for_upto. apply for_nonneg; [lia|]. intros r [rowIndices rowData] Hr s.
  unfold bind at 1, gets at 1. unfold bind at 1, gets at 1.
  destruct (fill_row mat w r rowIndices rowData) as [ri rd'].
  unfold bind. destruct (glp _ s) as [[] s1|e s1] eqn:E; simpl.
  - apply glp_done in E as (P & E & ->). unfold low_rows. simpl.
    eapply set_mat_row_take; [|exact E]. unfold pos. lia.
  - unfold glp in E. destruct (glp_set_mat_row _ _ _ _ _); [discriminate|].
    injection E as _ <-. reflexivity.
Qed.

Lemma updateBasisMatrix_only_coefs mat w h s :
  only_coefs_after (numInitConstraints (this s) + numOutputConstraints (this s))
                   s (final (updateBasisMatrix mat w h s)).
Proof.
  unfold only_coefs_after.
  pose proof (updateBasisMatrix_keeps_low_rows mat w h s) as Hl.
  pose proof (updateBasisMatrix_keeps_dims mat w h s) as Hd.
  apply dims_eq in Hd as (_ & _ & D3 & D4).
  unfold low_rows in Hl. rewrite D3, D4 in Hl.
  repeat split; [..|exact Hl]; unfold updateBasisMatrix.
  - apply (keeps_final global). keeps_auto.
  - apply (keeps_final simplex_calls). keeps_auto.
  - apply (keeps_final members). keeps_split; apply keeps_glp; reflexivity.
  - apply (keeps_final beside_rows). keeps_split.
    apply (keeps_glp_part (fun P => set_row P [])), row_only_beside. auto with glpk.
  - apply (keeps_final rows_meta). keeps_split.
    apply (keeps_glp_part (fun P => row_meta <$> row P)), set_mat_row_meta.
Qed.

Section Calls.

Variable solver : simplex_method.

Lemma simplex_unfold s :
  simplex solver s =
    Done (sa_ret (solver (simplex_calls s) (lp (this s))))
         (mkProcess (global s)
            ((lp (this s), sa_ret (solver (simplex_calls s) (lp (this s))))
               :: simplex_calls s)
            (with_lp (this s)
               (glp_simplex (solver (simplex_calls s) (lp (this s))) (lp (this s))).2)).
Proof. reflexivity. Qed.

Lemma simplex_keeps_dims : keeps dims (simplex solver).
Proof. intros s. reflexivity. Qed.

Lemma simplex_keeps_global : keeps global (simplex solver).
Proof. intros s. reflexivity. Qed.

Lemma simplex_keeps_nrows : keeps nrows (simplex solver).
Proof.
  intros s. rewrite simplex_unfold. unfold nrows, glp_get_num_rows. simpl.
  rewrite length_imap. reflexivity.
Qed.

Lemma simplex_keeps_ncols : keeps ncols (simplex solver).
Proof.
  intros s. rewrite simplex_unfold. unfold ncols, glp_get_num_cols. simpl.
  rewrite length_imap. reflexivity.
Qed.

Lemma fmap_imap_same {A B} (G : A -> B) (h : nat -> A -> A) (l : list A) :
  (forall k x, G (h k x) = G x) -> G <$> imap h l = G <$> l.
Proof.
  intros H. apply list_eq. intros k. rewrite !list_lookup_fmap, list_lookup_imap.
  destruct (l !! k); simpl; [rewrite H|]; reflexivity.
Qed.

Lemma simplex_keeps_ctypes : keeps ctypes (simplex solver).
Proof.
  intros s. rewrite simplex_unfold. unfold ctypes. simpl.
  apply fmap_imap_same. reflexivity.
Qed.

Lemma add_statistics_keeps {X} (f : process -> X) n :
  (forall g c d, f (mkProcess g c d) = f (mkProcess (mkGlobal 0 0) c d)) ->
  keeps f (add_statistics n).
Proof. intros H s. simpl. destruct s as [g c d]. simpl. rewrite H. symmetry. apply H. Qed.

Hint Resolve simplex_keeps_dims simplex_keeps_global simplex_keeps_nrows
  simplex_keeps_ncols simplex_keeps_ctypes : glpk.

Ltac keeps_calls :=
  unfold minimize, resetLp, processSimplexResult;
  keeps_split; eauto 6 with glpk; try (apply add_statistics_keeps; reflexivity).

Lemma minimize_keeps_dims d dl r rl : keeps dims (minimize solver d dl r rl).
Proof. keeps_calls. Qed.

Lemma minimize_keeps_shape d dl r rl : keeps shape (minimize solver d dl r rl).
Proof. apply keeps_shape_parts; keeps_calls. Qed.

Lemma post_call_keeps c :
  post_call c -> keeps (fun s => (dims s, shape s)) (exec solver c).
Proof.
  destruct c; simpl; try contradiction; intros _; apply keeps_pair.
  - apply resetLp_keeps_dims.
  - apply resetLp_keeps_shape.
  - apply setInputConstraintsCsr_keeps_dims.
  - apply setInputConstraintsCsr_keeps_shape.
  - apply updateBasisMatrix_keeps_dims.
  - apply updateBasisMatrix_keeps_shape.
  - apply keeps_bind; [apply minimize_keeps_dims | intros; apply keeps_ret].
  - apply keeps_bind; [apply minimize_keeps_shape | intros; apply keeps_ret].
Qed.

Lemma run_post_keeps cs :
  Forall post_call cs -> keeps (fun s => (dims s, shape s)) (run solver cs).
Proof.
  induction 1 as [|c cs Hc _ IH]; simpl.
  - apply keeps_ret.
  - apply keeps_bind; [apply post_call_keeps, Hc | intros; exact IH].
Qed.

(** C2: right after [setInitConstraints] with [initRows] rows and an output
    installer with [outputRows >= 0] rows, the problem has
    [initRows + outputRows + numOutputVars] rows; whatever
    [updateBasisMatrix], [minimize], [setInputConstraintsCsr] and [resetLp]
    calls follow, the row count stays the same, and an [updateBasisMatrix]
    call changes nothing but coefficient entries of the rows after the
    first [initRows + outputRows]. *)
Theorem row_count_layout
    (s s1 s2 : process) (mat : list float) (w h : Z) (rhs : list float) (initRows : Z)
    (omat : list float) (ow oh : Z) (orhs : list float) (outputRows : Z) :
  setInitConstraints mat w h rhs initRows s = Done tt s1 ->
  (setOutputConstraints omat ow oh orhs outputRows s1 = Done tt s2
   \/ (outputRows = 0 /\ setNoOutputConstraints s1 = Done tt s2)) ->
  0 <= outputRows ->
  nrows s2 = initRows + outputRows + numOutputVars (this s2)
  /\ forall cs, Forall post_call cs ->
       nrows (final (run solver cs s2)) = nrows s2
       /\ forall bmat bw bh,
            only_coefs_after (initRows + outputRows)
              (final (run solver cs s2))
              (final (updateBasisMatrix bmat bw bh (final (run solver cs s2)))).
Proof.
  intros Hinit Hout Hnonneg.
  apply setInitConstraints_done in Hinit
    as (_ & _ & _ & _ & _ & Hic & Hrows1 & _).
  assert (Hout' : exists m a b r,
             setOutputConstraints m a b r outputRows s1 = Done tt s2).
  { destruct Hout as [Hout|[-> Hout]]; [eauto|].
    apply setNoOutputConstraints_done in Hout. eauto. }
  destruct Hout' as (m & a & b & r & Hout').
  apply setOutputConstraints_done in Hout'
    as (_ & _ & _ & _ & Hoc & Hrows2 & Hic2 & Hov & _).
  split; [rewrite Hrows2, Hov; lia|].
  intros cs Hcs.
  pose proof (run_post_keeps cs Hcs s2) as K. simpl in K.
  assert (Kd : dims (final (run solver cs s2)) = dims s2) by congruence.
  assert (Kr : nrows (final (run solver cs s2)) = nrows s2)
    by (unfold shape in K; congruence).
  clear K. split; [exact Kr|]. intros bmat bw bh.
  apply dims_eq in Kd as (_ & _ & D3 & D4).
  replace (initRows + outputRows)
    with (numInitConstraints (this (final (run solver cs s2)))
          + numOutputConstraints (this (final (run solver cs s2))))
    by congruence.
  apply updateBasisMatrix_only_coefs.
Qed.

(** *** No second installation *)

Lemma post_call_done c s s' :
  post_call c -> exec solver c s = Done tt s' ->
  dims s' = dims s /\ nrows s' = nrows s.
Proof.
  intros Hc H. pose proof (keeps_done _ _ _ _ _ (post_call_keeps c Hc) H) as K.
  simpl in K. unfold shape in K. split; congruence.
Qed.

(** Once [numInitConstraints] is set it stays as it is, whatever is
    called. *)
Lemma exec_keeps_numInitConstraints c s s' :
  exec solver c s = Done tt s' ->
  numInitConstraints (this s) <> -1 ->
  numInitConstraints (this s') = numInitConstraints (this s).
Proof.
  intros H Hset. pose proof (post_call_done c s s') as Hp.
  destruct c; simpl in H, Hp.
  1,2,6,7: (destruct (Hp I H) as [Kd _]; apply dims_eq in Kd; tauto).
  - apply setInitConstraints_done in H. tauto.
  - apply setNoOutputConstraints_done, setOutputConstraints_done in H. tauto.
  - apply setOutputConstraints_done in H. tauto.
Qed.

Lemma run_keeps_numInitConstraints cs s s' :
  run solver cs s = Done tt s' ->
  numInitConstraints (this s) <> -1 ->
  numInitConstraints (this s') = numInitConstraints (this s).
Proof.
  revert s. induction cs as [|c cs IH]; intros s H Hset; simpl in H.
  - injection H as <-. reflexivity.
  - apply bind_done in H as ([] & s1 & Hc & Hr).
    pose proof (exec_keeps_numInitConstraints _ _ _ Hc Hset) as E.
    rewrite <- E. apply IH; [exact Hr | congruence].
Qed.

Lemma exec_rows_beyond_init c s s' :
  exec solver c s = Done tt s' -> rows_beyond_init s -> rows_beyond_init s'.
Proof.
  intros H [Hset Hlt]. unfold rows_beyond_init.
  pose proof (post_call_done c s s') as Hp.
  destruct c; simpl in H, Hp.
  1,2,6,7: (destruct (Hp I H) as [Kd Kr];
            apply dims_eq in Kd as (_ & _ & -> & _); rewrite Kr; auto).
  - apply setInitConstraints_done in H. tauto.
  - apply setNoOutputConstraints_done, setOutputConstraints_done in H.
    destruct H as (_ & _ & Heq & _). lia.
  - apply setOutputConstraints_done in H.
    destruct H as (_ & _ & Heq & _). lia.
Qed.

Lemma run_rows_beyond_init cs s s' :
  run solver cs s = Done tt s' -> rows_beyond_init s -> rows_beyond_init s'.
Proof.
  revert s. induction cs as [|c cs IH]; intros s H Hb; simpl in H.
  - injection H as <-. exact Hb.
  - apply bind_done in H as ([] & s1 & Hc & Hr).
    eapply IH; [exact Hr|]. eapply exec_rows_beyond_init; eauto.
Qed.

Lemma setInitConstraints_twice mat w h rhs rhsLen s :
  numInitConstraints (this s) <> -1 ->
  setInitConstraints mat w h rhs rhsLen s = Fatal ConfigError s.
Proof.
  intros Hset. unfold setInitConstraints, bind, gets. simpl.
  destruct (numInitConstraints (this s) =? -1) eqn:E; [|reflexivity].
  apply Z.eqb_eq in E. contradiction.
Qed.

(** C7: after a [setInitConstraints] call that returned, every later
    [setInitConstraints] call ends in the configuration error, whatever its
    arguments and whatever calls came between; after an output installer
    ([setOutputConstraints] or [setNoOutputConstraints]) that returned, every
    later call of either output installer ends in the configuration error,
    whatever its arguments and whatever calls came between. *)
Theorem no_second_install (s s1 s2 : process) (first : call) (between : list call) :
  exec solver first s = Done tt s1 ->
  run solver between s1 = Done tt s2 ->
  ((exists mat w h rhs rhsLen, first = SetInitConstraints mat w h rhs rhsLen) ->
     forall mat w h rhs rhsLen,
       setInitConstraints mat w h rhs rhsLen s2 = Fatal ConfigError s2)
  /\ (output_installer first ->
        (forall mat w h rhs rhsLen,
           exists s3, setOutputConstraints mat w h rhs rhsLen s2 = Fatal ConfigError s3)
        /\ exists s3, setNoOutputConstraints s2 = Fatal ConfigError s3).
Proof.
  intros Hfirst Hrun. split.
  - intros (mat & w & h & rhs & rhsLen & ->) mat' w' h' rhs' rhsLen'.
    simpl in Hfirst. apply setInitConstraints_done in Hfirst
      as (_ & _ & _ & _ & Hpos & Hic & _).
    apply setInitConstraints_twice.
    rewrite (run_keeps_numInitConstraints _ _ _ Hrun); lia.
  - intros Hinst.
    assert (Hb : rows_beyond_init s1).
    { assert (Hout : exists m a b r n, setOutputConstraints m a b r n s = Done tt s1).
      { destruct first; simpl in Hinst; try contradiction; simpl in Hfirst.
        - apply setNoOutputConstraints_done in Hfirst. eauto 6.
        - eauto 6. }
      destruct Hout as (m & a & b & r & n & Hout).
      apply setOutputConstraints_done in Hout
        as (_ & _ & Heq & Hov & _ & Hrows & Hic & _).
      pose proof (nrows_nonneg s). unfold rows_beyond_init. lia. }
    apply (run_rows_beyond_init _ _ _ Hrun) in Hb. destruct Hb as [_ Hlt].
    split; [intros mat w h rhs rhsLen|]; eexists.
    + apply setOutputConstraints_order_error. lia.
    + apply setNoOutputConstraints_order_error. lia.
Qed.

End Calls.

(** ** Loops with an invariant *)

(** If the invariant holds on entry and every iteration that returns carries
    it from [k] to [k + 1], it holds at [n] when the loop returns. *)
Lemma for_inv {A} (I : nat -> A -> process -> Prop) n i0 (body : Z -> A -> M A) a s :
  I 0%nat a s ->
  (forall k a s, (k < n)%nat -> I k a s ->
     match body (i0 + Z.of_nat k) a s with
     | Done a' s' => I (S k) a' s'
     | Fatal _ _ => True
     end) ->
  match for_ n i0 body a s with
  | Done a' s' => I n a' s'
  | Fatal _ _ => True
  end.
Proof.
  revert I i0 a s. induction n as [|n IH]; intros I i0 a s H0 Hstep; simpl.
  - exact H0.
  - unfold bind. pose proof (Hstep 0%nat a s ltac:(lia) H0) as H1.
    rewrite Z.add_0_r in H1.
    destruct (body i0 a s) as [a1 s1|]; [|exact H1].
    apply (IH (fun k => I (S k))); [exact H1|].
    intros k a' s' Hk HI. specialize (Hstep (S k) a' s' ltac:(lia) HI).
    replace (i0 + 1 + Z.of_nat k) with (i0 + Z.of_nat (S k)) by lia. exact Hstep.
Qed.

(** If moreover every iteration returns, so does the loop. *)
Lemma for_total {A} (I : nat -> A -> process -> Prop) n i0 (body : Z -> A -> M A) a s :
  I 0%nat a s ->
  (forall k a s, (k < n)%nat -> I k a s ->
     exists a' s', body (i0 + Z.of_nat k) a s = Done a' s' /\ I (S k) a' s') ->
  exists a' s', for_ n i0 body a s = Done a' s' /\ I n a' s'.
Proof.
  revert I i0 a s. induction n as [|n IH]; intros I i0 a s H0 Hstep; simpl.
  - eauto.
  - unfold bind. destruct (Hstep 0%nat a s ltac:(lia) H0) as (a1 & s1 & E & H1).
    rewrite Z.add_0_r in E. rewrite E.
    apply (IH (fun k => I (S k))); [exact H1|].
    intros k a' s' Hk HI.
    destruct (Hstep (S k) a' s' ltac:(lia) HI) as (a2 & s2 & E2 & H2).
    replace (i0 + 1 + Z.of_nat k) with (i0 + Z.of_nat (S k)) by lia. eauto.
Qed.

(** ** The result buffer *)

(** The copy loop of [processSimplexResult] writes the primal value of
    column [c + 1] to [result[c]] for [c] below the bound and leaves the rest
    of the buffer and the state alone. *)
Lemma copy_prims n result s :
  match for_ n 0 (fun col result =>
          v <- glp_ask (fun P => glp_get_col_prim P (col + 1)) ;;
          ret (wr result col v)) result s with
  | Done res' s' =>
      s' = s /\ length res' = length result
      /\ (forall c, (c < n)%nat -> (c < length result)%nat ->
            res' !! c = Some (col_prim s (Z.of_nat c + 1))
            /\ glp_get_col_prim (lp (this s)) (Z.of_nat c + 1)
               = Some (col_prim s (Z.of_nat c + 1)))
      /\ (forall c, (n <= c)%nat -> res' !! c = result !! c)
  | Fatal _ _ => True
  end.
Proof.
  apply (for_inv (fun k res' s' =>
    s' = s /\ length res' = length result
    /\ (forall c, (c < k)%nat -> (c < length result)%nat ->
          res' !! c = Some (col_prim s (Z.of_nat c + 1))
          /\ glp_get_col_prim (lp (this s)) (Z.of_nat c + 1)
             = Some (col_prim s (Z.of_nat c + 1)))
    /\ (forall c, (k <= c)%nat -> res' !! c = result !! c))).
  - repeat split; intros; lia.
  - intros k res s1 Hk (-> & Hlen & Hlow & Hhigh). rewrite Z.add_0_l.
    unfold bind, glp_ask.
    destruct (glp_get_col_prim (lp (this s)) (Z.of_nat k + 1)) as [v|] eqn:E; [|exact I].
    simpl. unfold wr. rewrite Nat2Z.id.
    split; [reflexivity|]. split; [rewrite length_insert; exact Hlen|]. split.
    + intros c Hc Hc'. destruct (decide (c = k)) as [->|Hne].
      * unfold col_prim. rewrite E. simpl. split; [|reflexivity].
        apply list_lookup_insert_eq. lia.
      * rewrite list_lookup_insert_ne by congruence. apply Hlow; lia.
    + intros c Hc. rewrite list_lookup_insert_ne by lia. apply Hhigh. lia.
Qed.

(** What a returned [processSimplexResult] tells: the state is untouched;
    either the answer is 1 and the buffer is as it was, or the answer is 0,
    the return code was 0, the status is optimal and the buffer holds the
    column values up to the bound. *)
Lemma processSimplexResult_done r result resLen s rv res' s' :
  processSimplexResult r result resLen s = Done (rv, res') s' ->
  s' = s
  /\ ((rv = 1 /\ res' = result
       /\ (r = GLP_ENOPFS \/ (r = 0 /\ glp_get_status (lp (this s)) = GLP_NOFEAS)))
      \/ (rv = 0 /\ r = 0 /\ glp_get_status (lp (this s)) = GLP_OPT
          /\ length res' = length result
          /\ (forall c, 0 <= c < Z.min resLen (ncols s) ->
                (Z.to_nat c < length result)%nat ->
                res' !! Z.to_nat c = Some (col_prim s (c + 1))
                /\ glp_get_col_prim (lp (this s)) (c + 1) = Some (col_prim s (c + 1)))
          /\ (forall k, Z.min resLen (ncols s) <= Z.of_nat k ->
                res' !! k = result !! k))).
Proof.
  unfold processSimplexResult. intros H.
  destruct (r =? GLP_ENOPFS) eqn:E1.
  { injection H as <- <- <-. apply Z.eqb_eq in E1. auto 6. }
  destruct (r =? 0) eqn:E2; simpl in H; [|discriminate].
  apply Z.eqb_eq in E2.
  apply bind_done in H as (status & s1 & [= <- <-] & H).
  destruct (glp_get_status (lp (this s)) =? GLP_OPT) eqn:E3.
  - apply bind_done in H as (numCols & s1 & [= <- <-] & H).
    apply bind_done in H as (res1 & s1 & Hloop & [= <- <- <-]).
    unfold for_upto in Hloop.
    pose proof (copy_prims (Z.to_nat (Z.min resLen (glp_get_num_cols (lp (this s)))))
                           result s) as Hc.
    rewrite Hloop in Hc. destruct Hc as (-> & Hlen & Hlow & Hhigh).
    apply Z.eqb_eq in E3. split; [reflexivity|]. right.
    repeat split; try assumption.
    + specialize (Hlow (Z.to_nat c)). rewrite Z2Nat.id in Hlow by lia.
      apply Hlow; [|assumption]. unfold ncols in *. lia.
    + specialize (Hlow (Z.to_nat c)). rewrite Z2Nat.id in Hlow by lia.
      apply Hlow; [|assumption]. unfold ncols in *. lia.
    + intros k Hk. apply Hhigh. unfold ncols in *. lia.
  - destruct (glp_get_status (lp (this s)) =? GLP_NOFEAS) eqn:E4; [|discriminate].
    injection H as <- <- <-. apply Z.eqb_eq in E4. auto 8.
Qed.

(** ** Optimization calls *)

Section Minimize.

Variable solver : simplex_method.

Lemma simplex_done s r s' :
  simplex solver s = Done r s' ->
  simplex_calls s' = (lp (this s), r) :: simplex_calls s
  /\ global s' = global s
  /\ exists n : nat, itcnt s' = itcnt s + Z.of_nat n.
Proof.
  rewrite simplex_unfold. intros [= <- <-]. simpl.
  split; [reflexivity|]. split; [reflexivity|]. eexists. reflexivity.
Qed.

Lemma retry_done r1 s r s' :
  retry solver r1 s = Done r s' ->
  global s' = global s
  /\ (exists n : nat, itcnt s' = itcnt s + Z.of_nat n)
  /\ ((r1 = 0 /\ r = 0 /\ s' = s)
      \/ (r1 <> 0 /\ exists sr, resetLp s = Done tt sr /\ simplex solver sr = Done r s')).
Proof.
  unfold retry. destruct (r1 =? 0) eqn:E; simpl; intros H.
  - injection H as <- <-. apply Z.eqb_eq in E.
    split; [reflexivity|]. split; [exists 0%nat; lia | auto].
  - apply bind_done in H as ([] & sr & Hr & Hs). apply Z.eqb_neq in E.
    pose proof (keeps_done _ _ _ _ _ resetLp_keeps_global Hr) as Kg.
    pose proof (keeps_done _ _ _ _ _ resetLp_keeps_itcnt Hr) as Ki.
    destruct (simplex_done _ _ _ Hs) as (_ & Hg & n & Hn).
    split; [congruence|]. split; [exists n; congruence|]. right. eauto.
Qed.

Lemma set_objective_keeps_global d n : keeps global (set_objective d n).
Proof. unfold set_objective. keeps_auto. Qed.

Lemma set_objective_keeps_itcnt d n : keeps itcnt (set_objective d n).
Proof. unfold set_objective. keeps_auto. Qed.

Lemma set_objective_keeps_calls d n : keeps simplex_calls (set_objective d n).
Proof. unfold set_objective. keeps_auto. Qed.

(** What a returned [minimize] tells: the checks passed, the objective was
    set, the simplex method ran once or twice, the counters were advanced
    and [processSimplexResult] gave the answer on the final state. *)
Lemma minimize_done direction dirLen result resLen s rv res' s' :
  minimize solver direction dirLen result resLen s = Done (rv, res') s' ->
  numInitConstraints (this s) <> -1 /\ numOutputConstraints (this s) <> -1
  /\ dirLen = numOutputVars (this s)
  /\ exists s1 r1 s2 r s3,
       set_objective direction (numOutputVars (this s)) s = Done tt s1
       /\ simplex solver s1 = Done r1 s2
       /\ retry solver r1 s2 = Done r s3
       /\ s' = mkProcess
                 (mkGlobal (wrap_int (optimizations (global s3) + 1))
                           (wrap_int (iterations (global s3) + (itcnt s3 - itcnt s1))))
                 (simplex_calls s3) (this s3)
       /\ processSimplexResult r result resLen s' = Done (rv, res') s'.
Proof.
  unfold minimize. intros H.
  apply bind_done in H as (nIC & s0 & [= <- <-] & H).
  apply bind_done in H as (nOC & s0 & [= <- <-] & H).
  destruct (numInitConstraints (this s) =? -1) eqn:E1; [discriminate|].
  destruct (numOutputConstraints (this s) =? -1) eqn:E2; [discriminate|].
  simpl in H.
  apply bind_done in H as (nOV & s0 & [= <- <-] & H).
  destruct (dirLen =? numOutputVars (this s)) eqn:E3; simpl in H; [|discriminate].
  apply bind_done in H as ([] & s1 & Hobj & H).
  apply bind_done in H as (start & s1' & [= <- <-] & H).
  apply bind_done in H as (r1 & s2 & Hs1 & H).
  apply bind_done in H as (r & s3 & Hretry & H).
  apply bind_done in H as (it & s3' & [= <- <-] & H).
  apply bind_done in H as ([] & s4 & [= <-] & H).
  apply Z.eqb_neq in E1, E2. apply Z.eqb_eq in E3.
  split; [exact E1|]. split; [exact E2|]. split; [exact E3|].
  exists s1, r1, s2, r, s3.
  pose proof (processSimplexResult_done _ _ _ _ _ _ _ H) as [-> _].
  repeat split; assumption.
Qed.

Lemma wrap_int_in_range x : int_range x -> wrap_int x = x.
Proof.
  unfold int_range, wrap_int, INT_MIN, INT_MAX. intros H.
  rewrite Z.mod_small by lia. lia.
Qed.

(** C8, amended: a [minimize] call that returns, with whatever answer and
    with or without the retry, leaves in [global.optimizations] the [int]
    sum of the old count and 1, and in [global.iterations] the [int] sum of
    the old count and the number [n >= 0] of pivots by which the solver's
    iteration count went up during the call.  As long as these sums do not
    leave the range of [int], the optimization count has gone up by exactly 1
    and the iteration count by [n], so it has not gone down. *)
Theorem minimize_statistics direction dirLen result resLen s rv res' s' :
  minimize solver direction dirLen result resLen s = Done (rv, res') s' ->
  exists n : nat,
    glp_get_it_cnt (lp (this s')) = glp_get_it_cnt (lp (this s)) + Z.of_nat n
    /\ optimizations (global s') = wrap_int (optimizations (global s) + 1)
    /\ iterations (global s') = wrap_int (iterations (global s) + Z.of_nat n)
    /\ (int_range (optimizations (global s) + 1) ->
          optimizations (global s') = optimizations (global s) + 1)
    /\ (int_range (iterations (global s) + Z.of_nat n) ->
          iterations (global s') = iterations (global s) + Z.of_nat n
          /\ iterations (global s) <= iterations (global s')).
Proof.
  intros H. apply minimize_done in H
    as (_ & _ & _ & s1 & r1 & s2 & r & s3 & Hobj & Hs & Hr & -> & _).
  pose proof (keeps_done _ _ _ _ _ (set_objective_keeps_global _ _) Hobj) as G1.
  pose proof (keeps_done _ _ _ _ _ (set_objective_keeps_itcnt _ _) Hobj) as I1.
  destruct (simplex_done _ _ _ Hs) as (_ & G2 & n1 & I2).
  destruct (retry_done _ _ _ _ Hr) as (G3 & (n2 & I3) & _).
  exists (n1 + n2)%nat. unfold itcnt in *. simpl. rewrite G3, G2, G1.
  replace (glp_get_it_cnt (lp (this s3)) - glp_get_it_cnt (lp (this s1)))
    with (Z.of_nat (n1 + n2)) by lia.
  split; [lia|]. split; [reflexivity|]. split; [reflexivity|]. split.
  - intros Hin. apply wrap_int_in_range, Hin.
  - intros Hin. rewrite (wrap_int_in_range _ Hin). lia.
Qed.

(** C10: a [minimize] call that returns answers 0 or 1.  With answer 1 the
    result buffer is as it was.  The buffer changes only when the final
    status is optimal (and the answer is 0); then its length is unchanged
    and every entry at index [min(resLen, numCols)] or beyond, hence every
    entry at index [resLen] or beyond, is as it was. *)
Theorem minimize_result_frame direction dirLen result resLen s rv res' s' :
  minimize solver direction dirLen result resLen s = Done (rv, res') s' ->
  (rv = 0 \/ rv = 1)
  /\ (rv = 1 -> res' = result)
  /\ (res' <> result -> glp_get_status (lp (this s')) = GLP_OPT /\ rv = 0)
  /\ length res' = length result
  /\ (forall k, Z.min resLen (glp_get_num_cols (lp (this s'))) <= Z.of_nat k ->
        res' !! k = result !! k)
  /\ (forall k, resLen <= Z.of_nat k -> res' !! k = result !! k).
Proof.
  intros H. apply minimize_done in H as (_ & _ & _ & s1 & r1 & s2 & r & s3 & _ & _ & _ & _ & H).
  apply processSimplexResult_done in H as [_ H].
  destruct H as [(-> & -> & _)|(-> & _ & Hopt & Hlen & _ & Hhigh)].
  - split; [auto|]. split; [auto|]. split; [congruence|]. auto.
  - split; [auto|]. split; [discriminate|]. split; [auto|]. split; [exact Hlen|].
    split; [exact Hhigh|]. intros k Hk. apply Hhigh. lia.
Qed.

End Minimize.

(** ** What holds of every instance *)

Lemma coefs_of_col g : gkeeps col g -> gkeeps (fun P => c_coef <$> col P) g.
Proof. intros H P P' E. rewrite (H _ _ E). reflexivity. Qed.

Lemma keeps_init_coefs_glp g :
  gkeeps (fun P => c_coef <$> col P) g -> keeps init_coefs (glp g).
Proof.
  intros H. apply keeps_glp. intros s P E. unfold init_coefs. simpl.
  rewrite (H _ _ E). reflexivity.
Qed.

Lemma keeps_init_coefs_modify g :
  (forall d, lp (g d) = lp d) -> (forall d, numInitVars (g d) = numInitVars d) ->
  keeps init_coefs (modify g).
Proof.
  intros H1 H2. apply keeps_modify. intros s. unfold init_coefs. simpl.
  rewrite H1, H2. reflexivity.
Qed.

#[export] Hint Resolve coefs_of_col keeps_init_coefs_glp set_col_stat_coefs : glpk.

Lemma setInitConstraints_keeps_init_coefs mat w h rhs rhsLen :
  keeps init_coefs (setInitConstraints mat w h rhs rhsLen).
Proof.
  unfold setInitConstraints. keeps_auto. apply keeps_init_coefs_modify; reflexivity.
Qed.

Lemma setOutputConstraints_keeps_init_coefs mat w h rhs rhsLen :
  keeps init_coefs (setOutputConstraints mat w h rhs rhsLen).
Proof.
  unfold setOutputConstraints. keeps_auto. apply keeps_init_coefs_modify; reflexivity.
Qed.

Lemma setNoOutputConstraints_keeps_init_coefs : keeps init_coefs setNoOutputConstraints.
Proof.
  unfold setNoOutputConstraints. keeps_outer.
  apply setOutputConstraints_keeps_init_coefs.
Qed.

Lemma resetLp_keeps_init_coefs : keeps init_coefs resetLp.
Proof. unfold resetLp. keeps_auto. Qed.

Lemma updateBasisMatrix_keeps_init_coefs mat w h :
  keeps init_coefs (updateBasisMatrix mat w h).
Proof. unfold updateBasisMatrix. keeps_auto. Qed.

Lemma setInputConstraintsCsr_keeps_init_coefs a b c d e f g h :
  keeps init_coefs (setInputConstraintsCsr a b c d e f g h).
Proof.
  unfold setInputConstraintsCsr. keeps_split; apply keeps_init_coefs_modify; reflexivity.
Qed.

Lemma set_obj_coef_take_coefs n j c P P' :
  (n <= pos j)%nat -> glp_set_obj_coef j c P = Some P' ->
  take n (c_coef <$> col P') = take n (c_coef <$> col P).
Proof.
  intros Hn H. glp_inv H; simpl; [reflexivity|].
  rewrite <- !fmap_take, take_alter_ge by exact Hn. reflexivity.
Qed.

Section Invariant.

Variable solver : simplex_method.

Lemma set_objective_keeps_init_coefs d n : keeps init_coefs (set_objective d n).
Proof.
  unfold set_objective, for_upto. apply for_nonneg; [lia|]. intros i [] Hi s.
  unfold bind at 1, gets at 1.
  destruct (glp _ s) as [[] s1|e s1] eqn:E; simpl.
  - apply glp_done in E as (P & E & ->). unfold init_coefs. simpl.
    eapply set_obj_coef_take_coefs; [|exact E]. unfold pos. lia.
  - unfold glp in E. destruct (glp_set_obj_coef _ _ _); [discriminate|].
    injection E as _ <-. reflexivity.
Qed.

Lemma simplex_keeps_init_coefs : keeps init_coefs (simplex solver).
Proof.
  intros s. rewrite simplex_unfold. unfold init_coefs. simpl.
  f_equal. apply fmap_imap_same. reflexivity.
Qed.

Lemma minimize_keeps_init_coefs d dl r rl : keeps init_coefs (minimize solver d dl r rl).
Proof.
  unfold minimize. keeps_outer.
  - apply set_objective_keeps_init_coefs.
  - apply simplex_keeps_init_coefs.
  - apply resetLp_keeps_init_coefs.
  - apply simplex_keeps_init_coefs.
  - apply add_statistics_keeps. reflexivity.
  - apply processSimplexResult_keeps.
Qed.

Lemma exec_keeps_init_coefs c : keeps init_coefs (exec solver c).
Proof.
  destruct c; simpl.
  - apply resetLp_keeps_init_coefs.
  - apply setInputConstraintsCsr_keeps_init_coefs.
  - apply setInitConstraints_keeps_init_coefs.
  - apply setNoOutputConstraints_keeps_init_coefs.
  - apply setOutputConstraints_keeps_init_coefs.
  - apply updateBasisMatrix_keeps_init_coefs.
  - apply keeps_bind; [apply minimize_keeps_init_coefs | intros; apply keeps_ret].
Qed.

(** Every call that returns carries the invariant over. *)
Lemma exec_inv c s s' : exec solver c s = Done tt s' -> inv s -> inv s'.
Proof.
  intros H (Hov & Hiv & Hcols & Hfr & Hzero & Hic & Hlay).
  pose proof (keeps_done _ _ _ _ _ (exec_keeps_init_coefs c) H) as Kz.
  pose proof (post_call_done solver c s s') as Hp.
  pose proof (fun Hc => keeps_done _ _ _ _ _ (post_call_keeps solver c Hc) H) as Hs.
  unfold inv. rewrite Kz. clear Kz.
  destruct c; simpl in H, Hp, Hs.
  1,2,6,7: (specialize (Hs I); simpl in Hs; unfold shape in Hs;
            assert (Kd : dims s' = dims s) by congruence;
            assert (Kr : nrows s' = nrows s) by congruence;
            assert (Kc : ncols s' = ncols s) by congruence;
            assert (Kt : ctypes s' = ctypes s) by congruence;
            apply dims_eq in Kd as (-> & -> & -> & ->);
            rewrite Kr, Kc, Kt; tauto).
  - apply setInitConstraints_done in H
      as (Hu & _ & _ & _ & Hpos & -> & Hr & -> & -> & -> & -> & ->).
    repeat split; try assumption; try lia.
  - apply setNoOutputConstraints_done, setOutputConstraints_done in H
      as (Hu & _ & Heq & _ & -> & Hr & -> & -> & -> & -> & ->).
    pose proof (nrows_nonneg s).
    repeat split; try assumption; try lia.
  - apply setOutputConstraints_done in H
      as (Hu & _ & Heq & _ & -> & Hr & -> & -> & -> & -> & ->).
    pose proof (nrows_nonneg s).
    repeat split; try assumption; try lia.
Qed.

Lemma run_inv cs s s' : run solver cs s = Done tt s' -> inv s -> inv s'.
Proof.
  revert s. induction cs as [|c cs IH]; intros s H Hinv; simpl in H.
  - injection H as <-. exact Hinv.
  - apply bind_done in H as ([] & s1 & Hc & Hr).
    eapply IH; [exact Hr|]. eapply exec_inv; eauto.
Qed.

End Invariant.

Lemma set_col_bnds_effect j t lb ub P P' :
  glp_set_col_bnds j t lb ub P = Some P' ->
  P' = set_col P (alter (fun c =>
         mkCOL t (bnds_of t lb ub).1 (bnds_of t lb ub).2 (c_coef c)
               (stat_after_bnds t lb ub (c_stat c)) (c_prim c)) (pos j) (col P)).
Proof. intros H. glp_inv H. reflexivity. Qed.

(** The state the constructor leaves. *)
Lemma LpData_new_done g calls nOV nIV nIn s0 :
  LpData_new g calls nOV nIV nIn = Done tt s0 ->
  inv s0
  /\ numOutputVars (this s0) = nOV /\ numInitVars (this s0) = nIV
  /\ numInitConstraints (this s0) = -1 /\ numOutputConstraints (this s0) = -1
  /\ nrows s0 = 0 /\ global s0 = g /\ simplex_calls s0 = calls.
Proof.
  unfold LpData_new, LpData_body. intros H.
  apply bind_done in H as (a & s1 & [= <- <-] & H).
  apply bind_done in H as (b & s1 & [= <- <-] & H). simpl in H.
  destruct (nOV <=? 0) eqn:E1; [discriminate|].
  destruct (nIV <=? 0) eqn:E2; [discriminate|]. simpl in H.
  apply bind_done in H as (c & s1 & [= <- <-] & H). simpl in H.
  destruct (nIn =? 0) eqn:E3; [|discriminate]. simpl in H.
  apply bind_done in H as ([] & s1 & [= <-] & H).
  apply bind_done in H as ([] & s1 & [= <-] & H).
  apply bind_done in H as ([] & s2 & Hadd & H).
  apply glp_done in Hadd as (P & Hadd & ->). glp_inv Hadd.
  apply Z.leb_gt in E1, E2.
  set (n := Z.to_nat (nOV + nIV)) in *.
  set (d0 := blank nOV nIV nIn) in *.
  unfold for_upto in H. fold n in H.
  match type of H with
  | for_ _ _ ?body ?a ?st = _ =>
      pose proof (for_inv (fun k (_ : unit) s =>
        global s = g /\ simplex_calls s = calls
        /\ members s = members (mkProcess g calls d0)
        /\ row (lp (this s)) = [] /\ length (col (lp (this s))) = n
        /\ Forall (fun c => c_coef c = 0%float) (col (lp (this s)))
        /\ forall j c, (j < k)%nat -> col (lp (this s)) !! j = Some c ->
                       c_type c = GLP_FR)
        n 0 body a st) as L
  end.
  rewrite H in L. clear H.
  destruct L as (Hg & Hc & Hm & Hrow & Hlen & Hco & Hty).
  - simpl. repeat split; try reflexivity.
    + rewrite length_replicate. reflexivity.
    + apply Forall_replicate. reflexivity.
    + intros; lia.
  - intros k [] s1 Hk (Hg & Hc & Hm & Hrow & Hlen & Hco & Hty).
    destruct (glp _ s1) as [[] s2|] eqn:E; [|exact I].
    apply glp_done in E as (P & E & ->). apply set_col_bnds_effect in E. subst P.
    split; [exact Hg|]. split; [exact Hc|]. split; [exact Hm|].
    split; [exact Hrow|]. simpl. rewrite length_alter. split; [exact Hlen|]. split.
    + apply Forall_lookup_2. intros j c Hj.
      destruct (decide (pos (0 + Z.of_nat k + 1) = j)) as [<-|Hne].
      * rewrite list_lookup_alter_eq in Hj.
        destruct (col (lp (this s1)) !! _) as [c'|] eqn:E'; [|discriminate].
        injection Hj as <-. simpl. eapply Forall_lookup_1 in Hco; eauto.
      * rewrite list_lookup_alter_ne in Hj by exact Hne.
        eapply Forall_lookup_1 in Hco; eauto.
    + intros j c Hj Hl.
      destruct (decide (pos (0 + Z.of_nat k + 1) = j)) as [<-|Hne].
      * rewrite list_lookup_alter_eq in Hl.
        destruct (col (lp (this s1)) !! _) as [c'|]; [|discriminate].
        injection Hl as <-. reflexivity.
      * rewrite list_lookup_alter_ne in Hl by exact Hne.
        apply (Hty j); [|exact Hl]. unfold pos in Hne. lia.
  - unfold members in Hm. simpl in Hm.
    assert (Hd : dims s0 = (nOV, nIV, -1, -1)).
    { unfold dims. destruct (this s0). simpl in *. injection Hm as -> -> -> -> ->.
      reflexivity. }
    unfold dims in Hd. injection Hd as D1 D2 D3 D4.
    assert (Hn : nrows s0 = 0) by (unfold nrows, glp_get_num_rows; rewrite Hrow; reflexivity).
    split; [|repeat split; assumption]. unfold inv.
    rewrite D1, D2, D3, D4, Hn.
    repeat split; try lia.
    + unfold ncols, glp_get_num_cols. rewrite Hlen. subst n. lia.
    + unfold ctypes. apply Forall_fmap, Forall_lookup_2. intros j c Hj. simpl.
      symmetry. apply (Hty j); [|exact Hj]. apply lookup_lt_Some in Hj. lia.
    + unfold init_coefs. rewrite D2. apply Forall_take, Forall_fmap.
      eapply Forall_impl; [exact Hco|]. intros c Hc0. simpl. congruence.
Qed.

(** Every reachable state satisfies the invariant. *)
Lemma reachable_inv solver s : reachable solver s -> inv s.
Proof.
  intros (g & calls & nOV & nIV & nIn & s0 & cs & Hnew & Hrun).
  apply (run_inv solver cs s0 s Hrun).
  apply LpData_new_done in Hnew. tauto.
Qed.

(** ** The objective *)

Lemma get_obj_coef_lookup P j :
  glp_get_obj_coef P j = default 0%float ((c_coef <$> col P) !! pos j).
Proof.
  unfold glp_get_obj_coef. rewrite list_lookup_fmap.
  destruct (col P !! pos j); reflexivity.
Qed.

Lemma objective_is_coefs nIV nOV d P P' :
  c_coef <$> col P' = c_coef <$> col P ->
  objective_is nIV nOV d P -> objective_is nIV nOV d P'.
Proof.
  intros E [H1 H2]. split; intros; rewrite get_obj_coef_lookup, E, <- get_obj_coef_lookup; auto.
Qed.

Lemma set_obj_coef_effect j c P :
  1 <= j <= glp_get_num_cols P ->
  glp_set_obj_coef j c P =
    Some (set_col P (alter (fun x =>
      mkCOL (c_type x) (c_lb x) (c_ub x) c (c_stat x) (c_prim x)) (pos j) (col P))).
Proof.
  intros Hj. unfold glp_set_obj_coef.
  destruct (j <? 0) eqn:E1; [apply Z.ltb_lt in E1; lia|].
  destruct (glp_get_num_cols P <? j) eqn:E2; [apply Z.ltb_lt in E2; lia|].
  destruct (j =? 0) eqn:E3; [apply Z.eqb_eq in E3; lia|]. reflexivity.
Qed.

Lemma obj_coef_after_set j j' c P :
  1 <= j <= glp_get_num_cols P -> 1 <= j' ->
  glp_get_obj_coef (set_col P (alter (fun x =>
      mkCOL (c_type x) (c_lb x) (c_ub x) c (c_stat x) (c_prim x)) (pos j) (col P))) j'
  = if decide (j' = j) then c else glp_get_obj_coef P j'.
Proof.
  intros Hj Hj'. unfold glp_get_obj_coef, glp_get_num_cols in *. simpl.
  destruct (decide (j' = j)) as [->|Hne].
  - rewrite list_lookup_alter_eq.
    destruct (lookup_lt_is_Some_2 (col P) (pos j)) as [x ->]; [unfold pos; lia|].
    reflexivity.
  - rewrite list_lookup_alter_ne by (unfold pos; lia). reflexivity.
Qed.

Lemma init_coefs_zero s j :
  Forall (eq 0%float) (init_coefs s) -> 1 <= j <= numInitVars (this s) ->
  glp_get_obj_coef (lp (this s)) j = 0%float.
Proof.
  intros Hz Hj. rewrite get_obj_coef_lookup. unfold init_coefs in Hz.
  destruct ((c_coef <$> col (lp (this s))) !! pos j) as [c|] eqn:E; [|reflexivity].
  simpl. symmetry. apply (Forall_lookup_1 _ _ (pos j) c Hz).
  rewrite lookup_take_lt by (unfold pos; lia). exact E.
Qed.

(** On an instance with one column per variable the objective loop returns
    and leaves the objective of the direction. *)
Lemma set_objective_done direction s :
  inv s ->
  exists s1,
    set_objective direction (numOutputVars (this s)) s = Done tt s1
    /\ objective_is (numInitVars (this s)) (numOutputVars (this s)) direction (lp (this s1)).
Proof.
  intros (Hov & Hiv & Hcols & _ & Hzero & _).
  set (nIV := numInitVars (this s)). set (nOV := numOutputVars (this s)).
  destruct (for_total (fun k (_ : unit) s' =>
      numInitVars (this s') = nIV /\ ncols s' = ncols s
      /\ forall i, (i < k)%nat ->
           glp_get_obj_coef (lp (this s')) (nIV + Z.of_nat i + 1) = rd direction (Z.of_nat i))
    (Z.to_nat nOV) 0
    (fun i _ => nIV <- gets numInitVars ;;
                glp (glp_set_obj_coef (1 + nIV + i) (rd direction i))) tt s)
    as ([] & s1 & Hrun & Hn & Hc & Hobj).
  - repeat split. intros; lia.
  - intros k [] s' Hk (Hn & Hc & Hobj).
    unfold bind at 1, gets at 1. rewrite Hn, Z.add_0_l.
    assert (Hj : 1 <= 1 + nIV + Z.of_nat k <= glp_get_num_cols (lp (this s'))).
    { change (glp_get_num_cols (lp (this s'))) with (ncols s'). rewrite Hc, Hcols.
      fold nIV nOV. lia. }
    unfold glp. rewrite (set_obj_coef_effect _ _ _ Hj).
    eexists tt, _. split; [reflexivity|].
    split; [exact Hn|]. split.
    + unfold ncols, glp_get_num_cols in *. simpl. rewrite length_alter. exact Hc.
    + intros i Hi. simpl. rewrite obj_coef_after_set by lia.
      destruct (decide _) as [E|E].
      * replace (Z.of_nat i) with (Z.of_nat k) by lia. reflexivity.
      * apply Hobj. lia.
  - exists s1. split; [exact Hrun|]. split.
    + intros i Hi. specialize (Hobj (Z.to_nat i)).
      rewrite Z2Nat.id in Hobj by lia. apply Hobj. fold nOV in Hi. lia.
    + intros j Hj.
      pose proof (keeps_done _ _ _ _ _
        (set_objective_keeps_init_coefs direction nOV) Hrun) as Kz.
      apply init_coefs_zero; [rewrite Kz; exact Hzero | rewrite Hn; exact Hj].
Qed.

(** ** Resetting the basis *)

Lemma set_row_stat_effect i st P :
  1 <= i <= glp_get_num_rows P -> valid_stat st = true ->
  glp_set_row_stat i st P =
    Some (set_row P (alter (fun r =>
      mkROW (r_type r) (r_lb r) (r_ub r) (stat_for_type (r_type r) st) (r_ptr r))
      (pos i) (row P))).
Proof.
  intros Hi Hv. unfold glp_set_row_stat, in_range. rewrite Hv.
  destruct (1 <=? i) eqn:E1; [|apply Z.leb_gt in E1; lia].
  destruct (i <=? glp_get_num_rows P) eqn:E2; [|apply Z.leb_gt in E2; lia].
  reflexivity.
Qed.

Lemma set_col_stat_effect j st P :
  1 <= j <= glp_get_num_cols P -> valid_stat st = true ->
  glp_set_col_stat j st P =
    Some (set_col P (alter (fun c =>
      mkCOL (c_type c) (c_lb c) (c_ub c) (c_coef c) (stat_for_type (c_type c) st) (c_prim c))
      (pos j) (col P))).
Proof.
  intros Hj Hv. unfold glp_set_col_stat, in_range. rewrite Hv.
  destruct (1 <=? j) eqn:E1; [|apply Z.leb_gt in E1; lia].
  destruct (j <=? glp_get_num_cols P) eqn:E2; [|apply Z.leb_gt in E2; lia].
  reflexivity.
Qed.

(** Setting a property on item [k] of a list whose earlier items have it. *)
Lemma alter_extends {A} (Q : A -> Prop) (G : A -> Prop) (h : A -> A) (k : nat) (l : list A) :
  (forall x, G x -> Q (h x)) -> (forall x, G x -> G (h x)) ->
  Forall G l ->
  (forall i x, (i < k)%nat -> l !! i = Some x -> Q x) ->
  Forall G (alter h k l)
  /\ forall i x, (i < S k)%nat -> alter h k l !! i = Some x -> Q x.
Proof.
  intros HQ HG Hall Hlow. split.
  - apply Forall_lookup_2. intros i x Hi.
    destruct (decide (k = i)) as [<-|Hne].
    + rewrite list_lookup_alter_eq in Hi.
      destruct (l !! k) as [y|] eqn:E; [|discriminate]. injection Hi as <-.
      apply HG. eapply Forall_lookup_1; eauto.
    + rewrite list_lookup_alter_ne in Hi by exact Hne. eapply Forall_lookup_1; eauto.
  - intros i x Hi Hx. destruct (decide (k = i)) as [<-|Hne].
    + rewrite list_lookup_alter_eq in Hx.
      destruct (l !! k) as [y|] eqn:E; [|discriminate]. injection Hx as <-.
      apply HQ. eapply Forall_lookup_1; eauto.
    + rewrite list_lookup_alter_ne in Hx by exact Hne. apply (Hlow i); [lia | exact Hx].
Qed.

(** On an instance whose columns are all free, [resetLp] returns with every
    row basic and every column non-basic free. *)
Lemma resetLp_done s :
  Forall (eq GLP_FR) (ctypes s) ->
  exists s', resetLp s = Done tt s'
    /\ Forall (fun r => r_stat r = GLP_BS) (row (lp (this s')))
    /\ Forall (fun c => c_stat c = GLP_NF) (col (lp (this s'))).
Proof.
  intros Hfr. unfold resetLp, bind at 1, glp_get at 1. unfold bind at 1, glp_get at 1.
  unfold for_upto.
  destruct (for_total (fun k (_ : unit) s' =>
      col (lp (this s')) = col (lp (this s))
      /\ length (row (lp (this s'))) = length (row (lp (this s)))
      /\ forall i r, (i < k)%nat -> row (lp (this s')) !! i = Some r -> r_stat r = GLP_BS)
    (Z.to_nat (glp_get_num_rows (lp (this s)))) 0
    (fun r _ => glp (glp_set_row_stat (r + 1) GLP_BS)) tt s)
    as ([] & sa & Ha & Hcol & Hlen & Hbs).
  { repeat split. intros; lia. }
  { intros k [] s' Hk (Hcol & Hlen & Hbs). rewrite Z.add_0_l.
    unfold glp. rewrite set_row_stat_effect;
      [|unfold glp_get_num_rows in *; lia|reflexivity].
    eexists tt, _. split; [reflexivity|]. simpl.
    split; [exact Hcol|]. split; [rewrite length_alter; exact Hlen|].
    replace (pos (Z.of_nat k + 1)) with k by (unfold pos; lia).
    apply (alter_extends (fun r => r_stat r = GLP_BS) (fun _ => True));
      [reflexivity | auto | apply Forall_true; auto | exact Hbs]. }
  unfold bind at 1. rewrite Ha.
  destruct (for_total (fun k (_ : unit) s' =>
      row (lp (this s')) = row (lp (this sa))
      /\ length (col (lp (this s'))) = length (col (lp (this s)))
      /\ Forall (fun c => c_type c = GLP_FR) (col (lp (this s')))
      /\ forall j c, (j < k)%nat -> col (lp (this s')) !! j = Some c -> c_stat c = GLP_NF)
    (Z.to_nat (glp_get_num_cols (lp (this s)))) 0
    (fun c _ => glp (glp_set_col_stat (c + 1) GLP_NF)) tt sa)
    as ([] & sb & Hb & Hrow & Hlen' & _ & Hnf).
  { split; [reflexivity|]. split; [rewrite Hcol; reflexivity|]. split.
    - rewrite Hcol. unfold ctypes in Hfr. rewrite Forall_fmap in Hfr.
      eapply Forall_impl; [exact Hfr|]. simpl. auto.
    - intros; lia. }
  { intros k [] s' Hk (Hrow & Hlen' & Hty & Hnf). rewrite Z.add_0_l.
    unfold glp. rewrite set_col_stat_effect;
      [|unfold glp_get_num_cols in *; lia|reflexivity].
    eexists tt, _. split; [reflexivity|]. simpl.
    split; [exact Hrow|]. split; [rewrite length_alter; exact Hlen'|].
    replace (pos (Z.of_nat k + 1)) with k by (unfold pos; lia).
    apply (alter_extends (fun c => c_stat c = GLP_NF) (fun c => c_type c = GLP_FR));
      [ intros x Hx; simpl; rewrite Hx; reflexivity | auto | exact Hty | exact Hnf ]. }
  exists sb. split; [exact Hb|]. split.
  - rewrite Hrow. apply Forall_lookup_2. intros i r Hi.
    apply (Hbs i); [|exact Hi]. apply lookup_lt_Some in Hi.
    unfold glp_get_num_rows. lia.
  - apply Forall_lookup_2. intros j c Hj.
    apply (Hnf j); [|exact Hj]. apply lookup_lt_Some in Hj.
    unfold glp_get_num_cols. lia.
Qed.

(** ** Solving, and solving again *)

Lemma set_objective_keeps_ctypes d n : keeps ctypes (set_objective d n).
Proof. unfold set_objective. keeps_auto. Qed.

Section Retry.

Variable solver : simplex_method.

Lemma simplex_keeps_obj_coefs : keeps obj_coefs (simplex solver).
Proof.
  intros s. rewrite simplex_unfold. unfold obj_coefs. simpl.
  apply fmap_imap_same. reflexivity.
Qed.

Lemma resetLp_keeps_obj_coefs : keeps obj_coefs resetLp.
Proof.
  unfold resetLp. keeps_split;
    apply (keeps_glp_part (fun P => c_coef <$> col P)); auto with glpk.
Qed.

(** [minimize] after its checks and the objective loop. *)
Lemma minimize_from_solve direction dirLen result resLen s s1 :
  numInitConstraints (this s) <> -1 -> numOutputConstraints (this s) <> -1 ->
  dirLen = numOutputVars (this s) ->
  set_objective direction (numOutputVars (this s)) s = Done tt s1 ->
  minimize solver direction dirLen result resLen s =
    (r1 <- simplex solver ;;
     r <- retry solver r1 ;;
     it <- glp_get glp_get_it_cnt ;;
     add_statistics (it - itcnt s1) ;;
     processSimplexResult r result resLen) s1.
Proof.
  intros H1 H2 H3 Hobj. unfold minimize.
  unfold bind at 1, gets at 1. unfold bind at 1, gets at 1.
  apply Z.eqb_neq in H1, H2. rewrite H1, H2. simpl.
  unfold bind at 1, gets at 1. rewrite H3, Z.eqb_refl. simpl.
  unfold bind at 1. unfold set_objective in Hobj. rewrite Hobj.
  unfold bind at 1, glp_get at 1. reflexivity.
Qed.

(** The simplex calls a [minimize] call adds to the record, and how the
    call ends, by the return codes of the solver. *)
Lemma minimize_calls direction dirLen result resLen s s1 :
  inv s ->
  numInitConstraints (this s) <> -1 -> numOutputConstraints (this s) <> -1 ->
  dirLen = numOutputVars (this s) ->
  set_objective direction (numOutputVars (this s)) s = Done tt s1 ->
  let o := minimize solver direction dirLen result resLen s in
  let r1 := sa_ret (solver (simplex_calls s) (lp (this s1))) in
  (r1 = 0 /\ simplex_calls (final o) = (lp (this s1), r1) :: simplex_calls s)
  \/ (r1 <> 0 /\ exists P1 r2,
        r2 = sa_ret (solver ((lp (this s1), r1) :: simplex_calls s) P1)
        /\ simplex_calls (final o) = (P1, r2) :: (lp (this s1), r1) :: simplex_calls s
        /\ c_coef <$> col P1 = c_coef <$> col (lp (this s1))
        /\ Forall (fun r => r_stat r = GLP_BS) (row P1)
        /\ Forall (fun c => c_stat c = GLP_NF) (col P1)
        /\ (hard_error r2 = true -> exists s', o = Fatal (SimplexError r2) s')
        /\ (r2 = GLP_ENOPFS -> exists s', o = Done (1, result) s')).
Proof.
  intros Hinv H1 H2 H3 Hobj o r1.
  assert (Ho : o = minimize solver direction dirLen result resLen s) by reflexivity.
  clearbody o.
  rewrite (minimize_from_solve _ _ _ _ _ _ H1 H2 H3 Hobj) in Ho.
  pose proof (keeps_done _ _ _ _ _ (set_objective_keeps_calls _ _) Hobj) as Kc.
  unfold bind at 1 in Ho. rewrite simplex_unfold, Kc in Ho. fold r1 in Ho.
  set (a := solver (simplex_calls s) (lp (this s1))) in *.
  set (s2 := mkProcess _ _ _) in Ho.
  unfold bind at 1, retry in Ho.
  destruct (r1 =? 0) eqn:E; simpl in Ho.
  - left. apply Z.eqb_eq in E. split; [exact E|].
    unfold bind at 1, glp_get at 1 in Ho. unfold bind at 1 in Ho. simpl in Ho.
    rewrite Ho, (processSimplexResult_keeps simplex_calls). reflexivity.
  - right. apply Z.eqb_neq in E. split; [exact E|].
    assert (Hfr : Forall (eq GLP_FR) (ctypes s2)).
    { pose proof (keeps_done _ _ _ _ _
        (set_objective_keeps_ctypes direction (numOutputVars (this s))) Hobj) as Kt.
      subst s2. unfold ctypes. simpl. rewrite fmap_imap_same by reflexivity.
      fold (ctypes s1). rewrite Kt. apply Hinv. }
    destruct (resetLp_done s2 Hfr) as (sr & Hr & Hbs & Hnf).
    unfold bind at 1 in Ho. rewrite Hr, simplex_unfold in Ho.
    pose proof (keeps_done _ _ _ _ _ resetLp_keeps_calls Hr) as Kc2.
    pose proof (keeps_done _ _ _ _ _ resetLp_keeps_obj_coefs Hr) as Ko2.
    rewrite Kc2 in Ho.
    set (r2 := sa_ret _) in Ho. exists (lp (this sr)), r2.
    unfold bind at 1, glp_get at 1 in Ho. unfold bind at 1 in Ho. simpl in Ho.
    rewrite Ho, (processSimplexResult_keeps simplex_calls). simpl.
    split; [reflexivity|]. split; [reflexivity|]. split.
    { unfold obj_coefs in Ko2. rewrite Ko2. subst s2. simpl.
      apply fmap_imap_same. reflexivity. }
    split; [exact Hbs|]. split; [exact Hnf|]. split.
    + intros Hh. unfold hard_error in Hh. apply andb_true_iff in Hh as [Ha Hb].
      unfold processSimplexResult.
      apply negb_true_iff in Ha, Hb. rewrite Ha, Hb. simpl. eauto.
    + intros Hr2. unfold processSimplexResult. rewrite Hr2. simpl. eauto.
Qed.

End Retry.

Section Solve.

Variable solver : simplex_method.

(** C6: on any instance, after any calls, a [minimize] call with a
    direction of length [numOutputVars] that passes its checks hands the
    solver, at each simplex call it makes (one, or two with the retry), a
    problem whose objective has [direction[i]] on column
    [numInitVars + i + 1] for [i < numOutputVars] and 0 on the columns
    [1 .. numInitVars]. *)
Theorem minimize_objective (s : process) (direction result : list float) (resLen : Z) :
  reachable solver s ->
  numInitConstraints (this s) <> -1 -> numOutputConstraints (this s) <> -1 ->
  Z.of_nat (length direction) = numOutputVars (this s) ->
  exists P0 r0 later,
    simplex_calls (final (minimize solver direction (Z.of_nat (length direction))
                            result resLen s))
      = later ++ (P0, r0) :: simplex_calls s
    /\ (length later <= 1)%nat
    /\ Forall (fun e => objective_is (numInitVars (this s)) (numOutputVars (this s))
                          direction e.1)
              (later ++ [(P0, r0)]).
Proof.
  intros Hreach H1 H2 Hlen. apply reachable_inv in Hreach as Hinv.
  destruct (set_objective_done direction s Hinv) as (s1 & Hobj & Hgoal).
  pose proof (minimize_calls solver direction _ result resLen s s1
                Hinv H1 H2 Hlen Hobj) as Hc.
  simpl in Hc. exists (lp (this s1)), (sa_ret (solver (simplex_calls s) (lp (this s1)))).
  destruct Hc as [[_ Hc]|[_ (P1 & r2 & _ & Hc & Hco & _)]].
  - exists []. split; [exact Hc|]. split; [simpl; lia|].
    constructor; [exact Hgoal | constructor].
  - exists [(P1, r2)]. split; [exact Hc|]. split; [simpl; lia|].
    constructor; [|constructor; [exact Hgoal | constructor]].
    eapply objective_is_coefs; [exact Hco | exact Hgoal].
Qed.

(** C3: in a [minimize] call that passes its checks, if the first simplex
    call returns a hard error, there is exactly one more simplex call; the
    problem it is given has every row basic and every column non-basic
    free; if that call returns a hard error again the [minimize] call is
    fatal, and if it returns [GLP_ENOPFS] the [minimize] call returns 1
    (infeasible) with the result buffer untouched. *)
Theorem minimize_retries_once
    (s : process) (direction : list float) (dirLen : Z) (result : list float)
    (resLen : Z) :
  reachable solver s ->
  numInitConstraints (this s) <> -1 -> numOutputConstraints (this s) <> -1 ->
  dirLen = numOutputVars (this s) ->
  exists P0 later,
    let r1 := sa_ret (solver (simplex_calls s) P0) in
    let o := minimize solver direction dirLen result resLen s in
    simplex_calls (final o) = later ++ (P0, r1) :: simplex_calls s
    /\ (hard_error r1 = true ->
          exists P1,
            let r2 := sa_ret (solver ((P0, r1) :: simplex_calls s) P1) in
            later = [(P1, r2)]
            /\ Forall (fun r => r_stat r = GLP_BS) (row P1)
            /\ Forall (fun c => c_stat c = GLP_NF) (col P1)
            /\ (hard_error r2 = true -> exists s', o = Fatal (SimplexError r2) s')
            /\ (r2 = GLP_ENOPFS -> exists s', o = Done (1, result) s')).
Proof.
  intros Hreach H1 H2 Hlen. apply reachable_inv in Hreach as Hinv.
  destruct (set_objective_done direction s Hinv) as (s1 & Hobj & _).
  pose proof (minimize_calls solver direction dirLen result resLen s s1
                Hinv H1 H2 Hlen Hobj) as Hc.
  simpl in Hc. exists (lp (this s1)).
  destruct Hc as [[Hz Hc]|[Hnz (P1 & r2 & -> & Hc & _ & Hbs & Hnf & Hfatal & Hinf)]].
  - exists []. simpl. split; [exact Hc|]. rewrite Hz. discriminate.
  - eexists [(P1, _)]. simpl. split; [exact Hc|]. intros _. exists P1.
    auto.
Qed.

End Solve.

(** ** The basis block *)

Lemma loop_inv {A} (I : nat -> A -> Prop) n i0 (body : Z -> A -> A) a :
  I 0%nat a ->
  (forall k a, (k < n)%nat -> I k a -> I (S k) (body (i0 + Z.of_nat k) a)) ->
  I n (loop n i0 body a).
Proof.
  revert I i0 a. induction n as [|n IH]; intros I i0 a H0 Hstep; simpl.
  - exact H0.
  - apply (IH (fun k => I (S k))).
    + specialize (Hstep 0%nat a ltac:(lia) H0). rewrite Z.add_0_r in Hstep. exact Hstep.
    + intros k a' Hk HI. specialize (Hstep (S k) a' ltac:(lia) HI).
      replace (i0 + 1 + Z.of_nat k) with (i0 + Z.of_nat (S k)) by lia. exact Hstep.
Qed.

(** After [fill_row] the data array holds the matrix row at [1..w]; the index
    array holds [1..w] there if it did before or if [r] is 0. *)
Lemma fill_row_spec mat w r (ri : list Z) (rdat : list float) :
  0 <= w -> length ri = Z.to_nat (w + 2) -> length rdat = Z.to_nat (w + 2) ->
  (r = 0 \/ forall k, (1 <= k <= Z.to_nat w)%nat -> ri !!! k = Z.of_nat k) ->
  let '(ri', rd') := fill_row mat w r ri rdat in
  length ri' = Z.to_nat (w + 2) /\ length rd' = Z.to_nat (w + 2)
  /\ (forall k, (1 <= k <= Z.to_nat w)%nat -> ri' !!! k = Z.of_nat k)
  /\ (forall k, (1 <= k <= Z.to_nat w)%nat -> rd' !!! k = rd mat (r * w + Z.of_nat k - 1)).
Proof.
  intros Hw Hli Hld Hidx. unfold fill_row, loop_upto.
  pose proof (loop_inv (fun n '(ri', rd') =>
      length ri' = Z.to_nat (w + 2) /\ length rd' = Z.to_nat (w + 2)
      /\ (forall k, (1 <= k <= Z.to_nat w)%nat ->
            (r <> 0 \/ (k <= n)%nat) -> ri' !!! k = Z.of_nat k)
      /\ (forall k, (1 <= k <= n)%nat -> rd' !!! k = rd mat (r * w + Z.of_nat k - 1)))
    (Z.to_nat w) 0
    (fun i '(rowIndices, rowData) =>
       ((if r =? 0 then wr rowIndices (i + 1) (1 + i) else rowIndices),
        wr rowData (i + 1) (rd mat (r * w + i)))) (ri, rdat)) as L.
  destruct (loop _ _ _ _) as [ri' rd'].
  destruct L as (L1 & L2 & L3 & L4).
  - split; [exact Hli|]. split; [exact Hld|]. split; [|intros; lia].
    intros k Hk [Hr|Hr]; [|lia]. destruct Hidx as [->|Hidx]; [congruence | auto].
  - intros n [ri0 rd0] Hn (L1 & L2 & L3 & L4). rewrite Z.add_0_l.
    unfold wr. replace (Z.to_nat (Z.of_nat n + 1)) with (S n) by lia.
    split; [destruct (r =? 0); [rewrite length_insert|]; exact L1|].
    split; [rewrite length_insert; exact L2|]. split.
    + intros k Hk Hor. destruct (r =? 0) eqn:E.
      * apply Z.eqb_eq in E. destruct (decide (k = S n)) as [->|Hne].
        -- rewrite list_lookup_total_insert_eq by lia. lia.
        -- rewrite list_lookup_total_insert_ne by congruence.
           apply L3; [exact Hk|]. right. destruct Hor; [congruence | lia].
      * apply Z.eqb_neq in E. apply L3; auto.
    + intros k Hk. destruct (decide (k = S n)) as [->|Hne].
      * rewrite list_lookup_total_insert_eq by lia. f_equal. lia.
      * rewrite list_lookup_total_insert_ne by congruence. apply L4. lia.
  - split; [exact L1|]. split; [exact L2|]. split; [|exact L4].
    intros k Hk. apply L3; [exact Hk|]. right. lia.
Qed.

(** The arrays handed to [glp_set_mat_row] for row [r] spell out
    [basis_entries]. *)
Lemma entries_basis mat w r (ri : list Z) (rdat : list float) :
  0 <= w -> length ri = Z.to_nat (w + 2) -> length rdat = Z.to_nat (w + 2) ->
  (forall k, (1 <= k <= Z.to_nat w)%nat -> ri !!! k = Z.of_nat k) ->
  (forall k, (1 <= k <= Z.to_nat w)%nat -> rdat !!! k = rd mat (r * w + Z.of_nat k - 1)) ->
  entries (w + 1) (wr ri (w + 1) (1 + w + r)) (wr rdat (w + 1) (-1)%float)
  = basis_entries mat w r.
Proof.
  intros Hw Hli Hld Hi Hd. unfold entries, basis_entries, wr.
  replace (Z.to_nat (w + 1)) with (Z.to_nat w + 1)%nat by lia.
  rewrite seq_app, fmap_app. f_equal.
  - apply list_fmap_ext. intros i k Hk. apply lookup_seq in Hk as [-> Hlt].
    rewrite !list_lookup_total_insert_ne by lia.
    rewrite Hi, Hd by lia. reflexivity.
  - simpl. replace (S (Z.to_nat w)) with (Z.to_nat w + 1)%nat by lia.
    rewrite !list_lookup_total_insert_eq by lia. reflexivity.
Qed.

Lemma distinct_NoDup (l : list Z) : NoDup l -> distinct l = true.
Proof.
  induction 1 as [|x l Hx _ IH]; simpl; [reflexivity|].
  rewrite IH, andb_true_r. apply negb_true_iff.
  destruct (existsb (Z.eqb x) l) eqn:E; [|reflexivity].
  apply existsb_exists in E as (y & Hy & Heq). apply Z.eqb_eq in Heq. subst y.
  exfalso. apply Hx. apply list_elem_of_In. exact Hy.
Qed.

Lemma basis_entries_keys mat w r :
  (basis_entries mat w r).*1 = (Z.of_nat <$> seq 1 (Z.to_nat w)) ++ [1 + w + r].
Proof.
  unfold basis_entries. rewrite fmap_app, <- list_fmap_compose. reflexivity.
Qed.

(** [glp_set_mat_row] accepts the entries of a basis row when the row exists
    and there is a column for every entry. *)
Lemma set_mat_row_basis mat w r i (ri : list Z) (rdat : list float) P :
  entries (w + 1) ri rdat = basis_entries mat w r ->
  1 <= i <= glp_get_num_rows P -> 0 <= w -> 0 <= r -> 1 + w + r <= glp_get_num_cols P ->
  glp_set_mat_row i (w + 1) ri rdat P =
    Some (set_row P (alter (fun x =>
      mkROW (r_type x) (r_lb x) (r_ub x) (r_stat x) (basis_entries mat w r))
      (pos i) (row P))).
Proof.
  intros He Hi Hw Hr Hc. unfold glp_set_mat_row. rewrite He.
  assert (E1 : in_range i (glp_get_num_rows P) = true).
  { unfold in_range. apply andb_true_iff. split; apply Z.leb_le; lia. }
  assert (E2 : (0 <=? w + 1) = true) by (apply Z.leb_le; lia).
  assert (E3 : (w + 1 <=? glp_get_num_cols P) = true) by (apply Z.leb_le; lia).
  assert (E4 : forallb (fun e => in_range e.1 (glp_get_num_cols P))
                       (basis_entries mat w r) = true).
  { apply forallb_forall. intros [j v] Hin. simpl.
    apply (in_map fst) in Hin. simpl in Hin.
    change (map fst (basis_entries mat w r)) with ((basis_entries mat w r).*1) in Hin.
    rewrite basis_entries_keys in Hin. apply list_elem_of_In in Hin.
    unfold in_range. apply andb_true_iff.
    apply elem_of_app in Hin as [Hin|Hin].
    - apply list_elem_of_fmap in Hin as (k & -> & Hk). apply elem_of_seq in Hk.
      split; apply Z.leb_le; lia.
    - apply list_elem_of_singleton in Hin. subst j. split; apply Z.leb_le; lia. }
  assert (E5 : distinct (basis_entries mat w r).*1 = true).
  { apply distinct_NoDup. rewrite basis_entries_keys. apply NoDup_app. split; [|split].
    - apply NoDup_fmap; [intros ? ?; lia | apply NoDup_seq].
    - intros j Hin Hin'. apply list_elem_of_fmap in Hin as (k & -> & Hk).
      apply elem_of_seq in Hk. apply list_elem_of_singleton in Hin'. lia.
    - apply NoDup_singleton. }
  rewrite E1, E2, E3, E4, E5. reflexivity.
Qed.

Lemma set_basis_rows_0 mat w base rows : set_basis_rows mat w base 0 rows = rows.
Proof.
  unfold set_basis_rows. apply list_eq. intros i. rewrite list_lookup_imap.
  destruct (rows !! i); simpl; [|reflexivity].
  destruct (decide _); [lia | reflexivity].
Qed.

Lemma set_basis_rows_S mat w (base k : nat) rows :
  alter (fun x => mkROW (r_type x) (r_lb x) (r_ub x) (r_stat x)
                        (basis_entries mat w (Z.of_nat k)))
        (base + k)%nat (set_basis_rows mat w base k rows)
  = set_basis_rows mat w base (S k) rows.
Proof.
  unfold set_basis_rows. apply list_eq. intros i.
  destruct (decide (base + k = i)%nat) as [<-|Hne].
  - rewrite list_lookup_alter_eq, !list_lookup_imap.
    destruct (rows !! (base + k)%nat) as [x|]; simpl; [|reflexivity].
    destruct (decide (base <= base + k < base + k)%nat); [lia|].
    destruct (decide (base <= base + k < base + S k)%nat); [|lia].
    replace (base + k - base)%nat with k by lia. reflexivity.
  - rewrite list_lookup_alter_ne by exact Hne. rewrite !list_lookup_imap.
    destruct (rows !! i) as [x|]; simpl; [|reflexivity].
    destruct (decide (base <= i < base + k)%nat);
      destruct (decide (base <= i < base + S k)%nat); try lia; reflexivity.
Qed.

Lemma set_basis_rows_idem mat w base k rows :
  set_basis_rows mat w base k (set_basis_rows mat w base k rows)
  = set_basis_rows mat w base k rows.
Proof.
  unfold set_basis_rows. apply list_eq. intros i. rewrite !list_lookup_imap.
  destruct (rows !! i) as [x|]; simpl; [|reflexivity].
  destruct (decide _); reflexivity.
Qed.

Lemma length_set_basis_rows mat w base k rows :
  length (set_basis_rows mat w base k rows) = length rows.
Proof. apply length_imap. Qed.

Lemma bind_gets {A B} (f : LpData -> A) (k : A -> M B) s :
  bind (gets f) k s = k (f (this s)) s.
Proof. reflexivity. Qed.

Lemma process_eta s :
  with_this s (with_lp (this s) (set_row (lp (this s)) (row (lp (this s))))) = s.
Proof. destruct s as [g c [? ? ? ? ? ? ? ? ? []]]. reflexivity. Qed.

(** With both blocks installed, [updateBasisMatrix] with a matrix of the
    right shape returns, and the state it leaves is [with_basis]. *)
Lemma updateBasisMatrix_exact mat w h s :
  inv s -> 0 <= numOutputConstraints (this s) ->
  w = numInitVars (this s) -> h = numOutputVars (this s) ->
  updateBasisMatrix mat w h s = Done tt (with_basis mat s).
Proof.
  intros (Hov & Hiv & Hcols & _ & _ & _ & Hlay) Hoc -> ->.
  destruct (Hlay Hoc) as [Hic Hrows].
  unfold updateBasisMatrix.
  rewrite !bind_gets, !Z.eqb_refl.
  change (negb true || negb true) with false. cbv iota.
  rewrite (bind_gets numOutputConstraints).
  destruct (numOutputConstraints (this s) =? -1) eqn:E; [apply Z.eqb_eq in E; lia|].
  set (nIV := numInitVars (this s)) in *. set (nOV := numOutputVars (this s)) in *.
  set (nIC := numInitConstraints (this s)) in *.
  set (nOC := numOutputConstraints (this s)) in *.
  set (base := Z.to_nat (nIC + nOC)).
  set (state := fun k => with_this s (with_lp (this s) (set_row (lp (this s))
                  (set_basis_rows mat nIV base k (row (lp (this s))))))).
  unfold for_upto, bind.
  match goal with
  | |- match for_ ?n ?i ?body ?a ?st with _ => _ end = _ =>
      destruct (for_total (fun k '(ri, rdat) sk =>
          sk = state k
          /\ length ri = Z.to_nat (nIV + 2) /\ length rdat = Z.to_nat (nIV + 2)
          /\ (k = 0%nat \/ forall j, (1 <= j <= Z.to_nat nIV)%nat -> ri !!! j = Z.of_nat j))
        n i body a st) as ([ri rdat] & s' & Hrun & -> & _)
  end.
  - split; [|split; [|split]].
    + unfold state. rewrite set_basis_rows_0. symmetry. apply process_eta.
    + unfold vector. apply length_replicate.
    + unfold vector. apply length_replicate.
    + left. reflexivity.
  - intros k [ri rdat] sk Hk (-> & Hli & Hld & Hidx). rewrite Z.add_0_l.
    unfold gets. cbv beta iota.
    change (numInitConstraints (this (state k))) with nIC.
    change (numOutputConstraints (this (state k))) with nOC.
    pose proof (fill_row_spec mat nIV (Z.of_nat k) ri rdat ltac:(lia) Hli Hld) as Hf.
    destruct (fill_row mat nIV (Z.of_nat k) ri rdat) as [ri' rd'].
    destruct Hf as (Hli' & Hld' & Hi' & Hd').
    { destruct Hidx as [->|Hidx]; [left; reflexivity | right; exact Hidx]. }
    pose proof (entries_basis mat nIV (Z.of_nat k) ri' rd' ltac:(lia) Hli' Hld' Hi' Hd')
      as He.
    unfold glp.
    rewrite (set_mat_row_basis mat nIV (Z.of_nat k) _ _ _ _ He).
    + eexists (_, _), _. split; [reflexivity|]. split.
      * unfold state. simpl. unfold with_this, with_lp, set_row. simpl. do 3 f_equal.
        replace (pos (nIC + nOC + Z.of_nat k + 1)) with (base + k)%nat
          by (unfold pos; subst base; lia).
        apply set_basis_rows_S.
      * unfold wr. rewrite !length_insert. split; [exact Hli'|]. split; [exact Hld'|].
        right. intros j Hj. rewrite list_lookup_total_insert_ne by lia. apply Hi'. exact Hj.
    + unfold glp_get_num_rows. simpl. rewrite length_set_basis_rows.
      unfold nrows, glp_get_num_rows in Hrows. lia.
    + lia.
    + lia.
    + unfold ncols in Hcols. unfold state. simpl. fold nIV nOV in Hcols.
      unfold glp_get_num_cols in *. simpl. lia.
  - rewrite Hrun. reflexivity.
Qed.

Lemma assoc_seq (f : nat -> float) a n tl j :
  assoc j (((fun k => (Z.of_nat k, f k)) <$> seq a n) ++ tl)
  = if decide (Z.of_nat a <= j < Z.of_nat a + Z.of_nat n)
    then f (Z.to_nat j) else assoc j tl.
Proof.
  revert a. induction n as [|n IH]; intros a; simpl.
  - destruct (decide _); [lia | reflexivity].
  - destruct (Z.of_nat a =? j) eqn:E.
    + apply Z.eqb_eq in E. subst j. rewrite Nat2Z.id.
      destruct (decide _); [reflexivity | lia].
    + apply Z.eqb_neq in E. rewrite IH.
      destruct (decide _); destruct (decide _); try lia; reflexivity.
Qed.

Lemma assoc_basis_entries mat w r j :
  0 <= w -> 0 <= r ->
  assoc j (basis_entries mat w r)
  = if decide (1 <= j <= w) then rd mat (r * w + (j - 1))
    else if decide (j = 1 + w + r) then (-1)%float else 0%float.
Proof.
  intros Hw Hr. unfold basis_entries.
  rewrite (assoc_seq (fun k => rd mat (r * w + Z.of_nat k - 1))).
  destruct (decide (Z.of_nat 1 <= j < _)); destruct (decide (1 <= j <= w)); try lia.
  - f_equal. lia.
  - simpl. destruct (decide (j = 1 + w + r)) as [->|Hne].
    + rewrite Z.eqb_refl. reflexivity.
    + destruct (1 + w + r =? j) eqn:E; [apply Z.eqb_eq in E; lia | reflexivity].
Qed.

Lemma coef_with_basis mat s r j :
  inv s -> 0 <= numOutputConstraints (this s) -> 0 <= r < numOutputVars (this s) ->
  coef (lp (this (with_basis mat s)))
       (numInitConstraints (this s) + numOutputConstraints (this s) + r + 1) j
  = assoc j (basis_entries mat (numInitVars (this s)) r).
Proof.
  intros (Hov & Hiv & Hcols & _ & _ & _ & Hlay) Hoc Hr.
  destruct (Hlay Hoc) as [Hic Hrows].
  unfold coef, with_basis. simpl. unfold set_basis_rows. rewrite list_lookup_imap.
  set (base := Z.to_nat (numInitConstraints (this s) + numOutputConstraints (this s))).
  replace (pos _) with (base + Z.to_nat r)%nat by (unfold pos; subst base; lia).
  destruct (lookup_lt_is_Some_2 (row (lp (this s))) (base + Z.to_nat r)) as [x ->].
  { unfold nrows, glp_get_num_rows in Hrows. subst base. lia. }
  simpl. destruct (decide _); [|lia]. simpl.
  replace (Z.of_nat (base + Z.to_nat r - base)) with r by lia. reflexivity.
Qed.

Lemma with_basis_idem mat s : with_basis mat (with_basis mat s) = with_basis mat s.
Proof. unfold with_basis. simpl. rewrite set_basis_rows_idem. reflexivity. Qed.

Section Basis.

Variable solver : simplex_method.

(** C5: on an instance with both blocks installed, [updateBasisMatrix]
    with a [numOutputVars] by [numInitVars] matrix returns; afterwards, for
    each output row [r], row [initRows + outputRows + r + 1] of the
    problem (rows count from 1) has coefficient [matrix[r][i]] on
    initial-variable column [i + 1], -1 on the column of output variable
    [r], and 0 on every other column; and calling it once more with the
    same matrix returns with the state unchanged. *)
Theorem updateBasisMatrix_rewrites_basis_rows (s : process) (mat : list float) (w h : Z) :
  reachable solver s ->
  0 <= numOutputConstraints (this s) ->
  w = numInitVars (this s) -> h = numOutputVars (this s) ->
  Z.of_nat (length mat) = h * w ->
  exists s',
    updateBasisMatrix mat w h s = Done tt s'
    /\ (forall r, 0 <= r < numOutputVars (this s) ->
          let lpRow := numInitConstraints (this s) + numOutputConstraints (this s) + r + 1 in
          (forall i, 0 <= i < numInitVars (this s) ->
             coef (lp (this s')) lpRow (i + 1) = rd mat (r * w + i))
          /\ coef (lp (this s')) lpRow (numInitVars (this s) + r + 1) = (-1)%float
          /\ (forall j, j < 1 \/ numInitVars (this s) < j ->
                j <> numInitVars (this s) + r + 1 ->
                coef (lp (this s')) lpRow j = 0%float))
    /\ updateBasisMatrix mat w h s' = Done tt s'.
Proof.
  intros Hreach Hoc Hw Hh _. apply reachable_inv in Hreach as Hinv.
  pose proof (updateBasisMatrix_exact mat w h s Hinv Hoc Hw Hh) as Hrun.
  exists (with_basis mat s). split; [exact Hrun|]. split.
  - intros r Hr lpRow. subst lpRow.
    assert (Hiv : 0 <= numInitVars (this s)) by (destruct Hinv as (_ & ? & _); lia).
    split; [|split].
    + intros i Hi. rewrite coef_with_basis, assoc_basis_entries by (assumption || lia).
      destruct (decide _); [|lia]. subst w. f_equal. lia.
    + rewrite coef_with_basis, assoc_basis_entries by (assumption || lia).
      destruct (decide _); [lia|]. destruct (decide _); [reflexivity | lia].
    + intros j Hj Hne.
      rewrite coef_with_basis, assoc_basis_entries by (assumption || lia).
      destruct (decide _); [lia|]. destruct (decide _); [lia | reflexivity].
  - assert (Hinv' : inv (with_basis mat s)).
    { apply (exec_inv solver (UpdateBasisMatrix mat w h) s); [exact Hrun | exact Hinv]. }
    rewrite (updateBasisMatrix_exact mat w h (with_basis mat s) Hinv');
      [rewrite with_basis_idem; reflexivity | exact Hoc | exact Hw | exact Hh].
Qed.

End Basis.

(** ** The point returned by [minimize] *)

Section Point.

Variable solver : simplex_method.

(** C1, amended: when a [minimize] call returns after a final simplex
    call with return code 0 and with solution status optimal, the answer is
    0 (feasible) and the buffer holds the primal values of the columns in
    column order: [result[c]] is the value of column [c + 1] for every
    [c < min(resLen, numInitVars + numOutputVars)].  The initial variables
    come first; the value of output variable [r] is at
    [result[numInitVars + r]] when the buffer reaches that far. *)
Theorem minimize_optimal_point
    (s s' : process) (direction : list float) (dirLen : Z) (result res' : list float)
    (resLen rv : Z) :
  reachable solver s ->
  minimize solver direction dirLen result resLen s = Done (rv, res') s' ->
  (exists P rest, simplex_calls s' = (P, 0) :: rest) ->
  glp_get_status (lp (this s')) = GLP_OPT ->
  rv = 0
  /\ (forall c, 0 <= c < Z.min resLen (numInitVars (this s) + numOutputVars (this s)) ->
        (Z.to_nat c < length result)%nat ->
        is_Some (res' !! Z.to_nat c)
        /\ res' !! Z.to_nat c = glp_get_col_prim (lp (this s')) (c + 1))
  /\ (forall r, 0 <= r < numOutputVars (this s) ->
        numInitVars (this s) + r < resLen ->
        (Z.to_nat (numInitVars (this s) + r) < length result)%nat ->
        res' !! Z.to_nat (numInitVars (this s) + r)
        = glp_get_col_prim (lp (this s')) (numInitVars (this s) + r + 1)).
Proof.
  intros Hreach Hmin (P & rest & Hlog) Hopt. apply reachable_inv in Hreach as Hinv.
  pose proof (keeps_done _ _ _ _ _ (minimize_keeps_shape solver _ _ _ _) Hmin) as Ks.
  assert (Kc : ncols s' = ncols s) by (unfold shape in Ks; congruence).
  destruct Hinv as (Hov & Hiv & Hcols & _).
  apply minimize_done in Hmin
    as (_ & _ & _ & s1 & r1 & s2 & r & s3 & _ & Hs & Hr & Hs' & Hp).
  assert (Hr0 : r = 0).
  { apply retry_done in Hr as (_ & _ & [(_ & -> & _)|(_ & sr & _ & Hs2)]);
      [reflexivity|].
    apply simplex_done in Hs2 as (Hl & _). rewrite Hs' in Hlog. simpl in Hlog.
    congruence. }
  subst r. apply processSimplexResult_done in Hp as [_ Hp].
  destruct Hp as [(_ & _ & [He|[_ He]])|(-> & _ & _ & _ & Hlow & _)].
  - discriminate.
  - rewrite Hopt in He. discriminate.
  - rewrite Kc, Hcols in Hlow.
    assert (Hcol : forall c,
              0 <= c < Z.min resLen (numInitVars (this s) + numOutputVars (this s)) ->
              (Z.to_nat c < length result)%nat ->
              is_Some (res' !! Z.to_nat c)
              /\ res' !! Z.to_nat c = glp_get_col_prim (lp (this s')) (c + 1)).
    { intros c Hc Hc'. destruct (Hlow c Hc Hc') as [E1 E2]. rewrite E1, E2. eauto. }
    split; [reflexivity|]. split; [exact Hcol|].
    intros r0 Hr0 Hlen Hlen'. apply Hcol; [lia | exact Hlen'].
Qed.

End Point.

(** ** A worked instance *)

Lemma box_instance_reachable :
  reachable vertex_solver (box_instance vertex_solver).
Proof.
  exists (mkGlobal 0 0), [], 2, 2, 0, (fresh 2 2), box_calls.
  split; vm_compute; reflexivity.
Defined.

Lemma box_instance_reachable_stale later :
  reachable (stale_solver later) (box_instance (stale_solver later)).
Proof.
  exists (mkGlobal 0 0), [], 2, 2, 0, (fresh 2 2), box_calls.
  split; vm_compute; reflexivity.
Defined.

Ltac evaluate := vm_compute; reflexivity.

Lemma installed_box_reachable : reachable vertex_solver installed_box.
Proof.
  exists (mkGlobal 0 0), [], 2, 2, 0, (fresh 2 2),
    [SetInitConstraints box_mat 2 4 box_rhs 4; SetNoOutputConstraints].
  split; evaluate.
Defined.

Lemma different_floats (a b : float) :
  PrimFloat.eqb a a = true -> PrimFloat.eqb a b = false -> a <> b.
Proof. intros Ha Hb E. rewrite <- E, Ha in Hb. discriminate. Qed.

(** C1, as stated, fails: on the box with [x] scaled by 2, minimizing along
    [(1, 0)] with a buffer of length 2 returns [(-1, -1)], the values of the
    two initial variables, while output variable 0 (column 3) has the
    value -2. *)
Lemma result_is_not_output_point :
  box_min vertex_solver [0; 0]%float
    = Done (0, [-1; -1]%float) (final (box_min vertex_solver [0; 0]%float))
  /\ glp_get_col_prim (lp (this (final (box_min vertex_solver [0; 0]%float)))) 3
     = Some (-2)%float
  /\ ~ result_is_output_point vertex_solver.
Proof.
  split; [evaluate|]. split; [evaluate|].
  intros H.
  destruct (H (box_instance vertex_solver) (final (box_min vertex_solver [0; 0]%float))
              [1; 0]%float 2 [0; 0]%float [-1; -1]%float 0
              box_instance_reachable ltac:(evaluate) ltac:(evaluate)
              ltac:(eexists _, _; evaluate) ltac:(evaluate)) as [_ Hpt].
  specialize (Hpt 0 ltac:(vm_compute; split; [discriminate | reflexivity])).
  vm_compute in Hpt. apply (f_equal (default 0%float)) in Hpt. simpl in Hpt.
  revert Hpt. apply different_floats; reflexivity.
Qed.

Lemma minimize_optimal_point_witness :
  box_min vertex_solver [0; 0; 0; 0]%float
    = Done (0, [-1; -1; -2; -1]%float) (final (box_min vertex_solver [0; 0; 0; 0]%float))
  /\ [-1; -1; -2; -1]%float !! 2%nat
     = glp_get_col_prim (lp (this (final (box_min vertex_solver [0; 0; 0; 0]%float)))) 3.
Proof.
  split; [evaluate|].
  destruct (minimize_optimal_point vertex_solver
              (box_instance vertex_solver)
              (final (box_min vertex_solver [0; 0; 0; 0]%float))
              [1; 0]%float 2 [0; 0; 0; 0]%float [-1; -1; -2; -1]%float 4 0
              box_instance_reachable ltac:(evaluate)
              ltac:(eexists _, _; evaluate) ltac:(evaluate)) as (_ & _ & Hout).
  apply (Hout 0); [vm_compute; split; [discriminate | reflexivity] | reflexivity | vm_compute; lia].
Defined.

Lemma row_count_layout_witness :
  nrows installed_box = 4 + 0 + numOutputVars (this installed_box)
  /\ nrows (final (run vertex_solver
                     [UpdateBasisMatrix scale_x 2 2;
                      Minimize [1; 0]%float 2 [0; 0; 0; 0]%float 4; ResetLp]
                     installed_box)) = nrows installed_box.
Proof.
  destruct (row_count_layout vertex_solver
              (fresh 2 2)
              (final (setInitConstraints box_mat 2 4 box_rhs 4 (fresh 2 2)))
              installed_box box_mat 2 4 box_rhs 4 [] 2 0 [] 0
              ltac:(evaluate) ltac:(right; split; evaluate) ltac:(lia)) as [Hn Hlater].
  split; [exact Hn|].
  apply Hlater. repeat constructor.
Defined.

Lemma no_second_install_witness :
  setInitConstraints box_mat 2 4 box_rhs 4 (box_instance vertex_solver)
    = Fatal ConfigError (box_instance vertex_solver)
  /\ exists s3, setNoOutputConstraints (box_instance vertex_solver) = Fatal ConfigError s3.
Proof.
  split.
  - apply (no_second_install vertex_solver
             (fresh 2 2) (final (setInitConstraints box_mat 2 4 box_rhs 4 (fresh 2 2)))
             (box_instance vertex_solver)
             (SetInitConstraints box_mat 2 4 box_rhs 4)
             [SetNoOutputConstraints; UpdateBasisMatrix scale_x 2 2]
             ltac:(evaluate) ltac:(evaluate)).
    eauto 6.
  - apply (no_second_install vertex_solver
             (final (setInitConstraints box_mat 2 4 box_rhs 4 (fresh 2 2)))
             installed_box (box_instance vertex_solver)
             SetNoOutputConstraints [UpdateBasisMatrix scale_x 2 2]
             ltac:(evaluate) ltac:(evaluate)).
    exact I.
Defined.

Lemma minimize_retries_once_witness :
  (exists P0 P1 s',
     simplex_calls (final (box_min (stale_solver GLP_ESING) [0; 0; 0; 0]%float))
       = [(P1, GLP_ESING); (P0, GLP_ESING)]
     /\ Forall (fun r => r_stat r = GLP_BS) (row P1)
     /\ Forall (fun c => c_stat c = GLP_NF) (col P1)
     /\ box_min (stale_solver GLP_ESING) [0; 0; 0; 0]%float
        = Fatal (SimplexError GLP_ESING) s')
  /\ (exists s', box_min (stale_solver GLP_ENOPFS) [0; 0; 0; 0]%float
                 = Done (1, [0; 0; 0; 0]%float) s').
Proof.
  split.
  - destruct (minimize_retries_once (stale_solver GLP_ESING)
                (box_instance (stale_solver GLP_ESING))
                [1; 0]%float 2 [0; 0; 0; 0]%float 4
                (box_instance_reachable_stale GLP_ESING)
                ltac:(vm_compute; discriminate) ltac:(vm_compute; discriminate)
                ltac:(evaluate)) as (P0 & later & Hlog & Hretry).
    destruct (Hretry ltac:(evaluate)) as (P1 & -> & Hbs & Hnf & Hfatal & _).
    destruct (Hfatal ltac:(evaluate)) as [s' Hs'].
    exists P0, P1, s'. split; [exact Hlog|]. split; [exact Hbs|]. split; [exact Hnf|].
    exact Hs'.
  - destruct (minimize_retries_once (stale_solver GLP_ENOPFS)
                (box_instance (stale_solver GLP_ENOPFS))
                [1; 0]%float 2 [0; 0; 0; 0]%float 4
                (box_instance_reachable_stale GLP_ENOPFS)
                ltac:(vm_compute; discriminate) ltac:(vm_compute; discriminate)
                ltac:(evaluate)) as (P0 & later & Hlog & Hretry).
    destruct (Hretry ltac:(evaluate)) as (P1 & _ & _ & _ & _ & Hinf).
    exact (Hinf ltac:(evaluate)).
Defined.

Lemma updateBasisMatrix_rewrites_basis_rows_witness :
  exists s',
    updateBasisMatrix scale_x 2 2 installed_box = Done tt s'
    /\ coef (lp (this s')) 5 1 = 2%float /\ coef (lp (this s')) 5 2 = 0%float
    /\ coef (lp (this s')) 5 3 = (-1)%float /\ coef (lp (this s')) 5 4 = 0%float
    /\ updateBasisMatrix scale_x 2 2 s' = Done tt s'.
Proof.
  destruct (updateBasisMatrix_rewrites_basis_rows vertex_solver installed_box scale_x 2 2
              installed_box_reachable ltac:(vm_compute; discriminate)
              ltac:(evaluate) ltac:(evaluate) ltac:(evaluate))
    as (s' & Hrun & Hrows & Hidem).
  exists s'. split; [exact Hrun|].
  destruct (Hrows 0 ltac:(vm_compute; split; [discriminate | reflexivity]))
    as (Hinit & Hout & Hother).
  split; [exact (Hinit 0 ltac:(vm_compute; split; [discriminate | reflexivity]))|].
  split; [exact (Hinit 1 ltac:(vm_compute; split; [discriminate | reflexivity]))|].
  split; [exact Hout|].
  split; [|exact Hidem].
  apply (Hother 4); [right; vm_compute; reflexivity | vm_compute; discriminate].
Defined.

Lemma minimize_objective_witness :
  exists P0 r0,
    simplex_calls (final (minimize vertex_solver [1; 0]%float
                            (Z.of_nat (length [1; 0]%float)) [0; 0; 0; 0]%float 4
                            (box_instance vertex_solver))) = [(P0, r0)]
    /\ glp_get_obj_coef P0 1 = 0%float /\ glp_get_obj_coef P0 2 = 0%float
    /\ glp_get_obj_coef P0 (2 + 0 + 1) = 1%float
    /\ glp_get_obj_coef P0 (2 + 1 + 1) = 0%float.
Proof.
  destruct (minimize_objective vertex_solver (box_instance vertex_solver)
              [1; 0]%float [0; 0; 0; 0]%float 4
              box_instance_reachable
              ltac:(vm_compute; discriminate) ltac:(vm_compute; discriminate)
              ltac:(evaluate)) as (P0 & r0 & later & Hlog & Hlen & Hall).
  replace (simplex_calls (box_instance vertex_solver))
    with (@nil (glp_prob * Z)) in Hlog by evaluate.
  replace (numInitVars (this (box_instance vertex_solver))) with 2 in Hall by evaluate.
  replace (numOutputVars (this (box_instance vertex_solver))) with 2 in Hall by evaluate.
  assert (Hone : length (later ++ [(P0, r0)]) = 1%nat) by (rewrite <- Hlog; evaluate).
  assert (Hl : later = []).
  { rewrite length_app in Hone. simpl in Hone.
    destruct later; [reflexivity | simpl in Hone; lia]. }
  subst later. exists P0, r0. split; [exact Hlog|].
  apply Forall_cons in Hall as [[Hout Hinit] _]. simpl in Hout, Hinit.
  split; [exact (Hinit 1 ltac:(lia))|].
  split; [exact (Hinit 2 ltac:(lia))|].
  split; [exact (Hout 0 ltac:(lia))|].
  exact (Hout 1 ltac:(lia)).
Defined.

Lemma late_box_reachable : reachable vertex_solver late_box.
Proof.
  exists full_counters, [], 2, 2, 0, (final (LpData_new full_counters [] 2 2 0)), box_calls.
  split; evaluate.
Defined.

(** C8, as stated, fails: in a process whose counters stand at [INT_MAX],
    a [minimize] call on the box returns, and the optimization count has
    wrapped to [INT_MIN] and the iteration count, two pivots later, to
    [INT_MIN + 1]. *)
Lemma statistics_wrap_around :
  global (final (minimize vertex_solver [1; 0]%float 2 [0; 0; 0; 0]%float 4 late_box))
    = mkGlobal INT_MIN (INT_MIN + 1)
  /\ ~ statistics_grow vertex_solver.
Proof.
  split; [evaluate|].
  intros H.
  destruct (H late_box
              (final (minimize vertex_solver [1; 0]%float 2 [0; 0; 0; 0]%float 4 late_box))
              [1; 0]%float 2 [0; 0; 0; 0]%float [-1; -1; -2; -1]%float 4 0
              late_box_reachable ltac:(evaluate)) as [Hopt _].
  vm_compute in Hopt. discriminate.
Qed.

Lemma minimize_statistics_witness :
  optimizations (global (final (box_min vertex_solver [0; 0; 0; 0]%float))) = 1
  /\ iterations (global (box_instance vertex_solver))
     <= iterations (global (final (box_min vertex_solver [0; 0; 0; 0]%float))).
Proof.
  destruct (minimize_statistics vertex_solver [1; 0]%float 2 [0; 0; 0; 0]%float 4
              (box_instance vertex_solver) 0 [-1; -1; -2; -1]%float
              (final (box_min vertex_solver [0; 0; 0; 0]%float))
              ltac:(evaluate)) as (n & Hit & _ & _ & Hopt & Hiter).
  replace (glp_get_it_cnt (lp (this (final (box_min vertex_solver [0; 0; 0; 0]%float)))))
    with 2 in Hit by evaluate.
  replace (glp_get_it_cnt (lp (this (box_instance vertex_solver)))) with 0 in Hit
    by evaluate.
  replace (optimizations (global (box_instance vertex_solver))) with 0 in Hopt
    by evaluate.
  replace (iterations (global (box_instance vertex_solver))) with 0 in Hiter |- *
    by evaluate.
  split.
  - apply Hopt. unfold int_range, INT_MIN, INT_MAX. lia.
  - apply Hiter. unfold int_range, INT_MIN, INT_MAX. lia.
Defined.

Lemma minimize_result_frame_witness :
  length [-1; -1]%float = length [0; 0]%float
  /\ forall k, 2 <= Z.of_nat k -> [-1; -1]%float !! k = [0; 0]%float !! k.
Proof.
  destruct (minimize_result_frame vertex_solver [1; 0]%float 2 [0; 0]%float 2
              (box_instance vertex_solver) 0 [-1; -1]%float
              (final (box_min vertex_solver [0; 0]%float))
              ltac:(evaluate)) as (_ & _ & _ & Hlen & _ & Hhigh).
  split; [exact Hlen | exact Hhigh].
Defined.

(** The model run on the box: six rows (four of the initial block, two of
    the basis block), the first basis row reading [2 x - x' = 0], and one
    [minimize] call counted with its two pivots. *)
Example box_instance_rows :
  nrows (box_instance vertex_solver) = 6
  /\ r_ptr <$> row (lp (this (box_instance vertex_solver))) !! 4%nat
     = Some [(1, 2%float); (2, 0%float); (3, (-1)%float)]
  /\ global (final (box_min vertex_solver [0; 0; 0; 0]%float)) = mkGlobal 1 2.
Proof. repeat split; evaluate. Qed.

(** * Further properties of the interface *)

(** ** How [minimize] ends *)

(** The copy loop of [processSimplexResult] returns when its bound is within
    the columns, leaving the state as it is. *)
Lemma copy_prims_total n result s :
  (n <= length (col (lp (this s))))%nat ->
  exists res',
    for_ n 0 (fun col result =>
      v <- glp_ask (fun P => glp_get_col_prim P (col + 1)) ;;
      ret (wr result col v)) result s = Done res' s.
Proof.
  intros Hn.
  destruct (for_total (fun (_ : nat) (_ : list float) s' => s' = s) n 0
    (fun col result =>
      v <- glp_ask (fun P => glp_get_col_prim P (col + 1)) ;;
      ret (wr result col v)) result s) as (res' & s' & Hrun & ->).
  - reflexivity.
  - intros k res s' Hk ->. rewrite Z.add_0_l. unfold bind, glp_ask, glp_get_col_prim.
    assert (E : in_range (Z.of_nat k + 1) (glp_get_num_cols (lp (this s))) = true).
    { unfold in_range, glp_get_num_cols. apply andb_true_iff.
      split; apply Z.leb_le; lia. }
    rewrite E.
    destruct (lookup_lt_is_Some_2 (col (lp (this s))) (pos (Z.of_nat k + 1))) as [c Hc];
      [unfold pos; lia|].
    rewrite Hc. simpl. eauto.
  - eauto.
Qed.

(** [processSimplexResult] by cases on the return code and the status. *)
Lemma processSimplexResult_cases r result resLen s :
  let st := glp_get_status (lp (this s)) in
  let o := processSimplexResult r result resLen s in
  if r =? GLP_ENOPFS then o = Done (1, result) s
  else if negb (r =? 0) then o = Fatal (SimplexError r) s
  else if st =? GLP_OPT then exists res', o = Done (0, res') s
  else if st =? GLP_NOFEAS then o = Done (1, result) s
  else o = Fatal (StatusError st) s.
Proof.
  intros st o.
  assert (Ho : o = processSimplexResult r result resLen s) by reflexivity.
  clearbody o. unfold processSimplexResult in Ho.
  destruct (r =? GLP_ENOPFS); [exact Ho|].
  destruct (r =? 0); simpl in Ho |- *; [|exact Ho].
  unfold bind at 1, glp_get at 1 in Ho. cbv beta in Ho. fold st in Ho.
  destruct (st =? GLP_OPT).
  - unfold bind at 1, glp_get at 1 in Ho. unfold for_upto in Ho.
    destruct (copy_prims_total
                (Z.to_nat (Z.min resLen (glp_get_num_cols (lp (this s))))) result s)
      as [res' Hrun]; [unfold glp_get_num_cols; lia|].
    unfold bind at 1 in Ho. rewrite Hrun in Ho. eauto.
  - destruct (st =? GLP_NOFEAS); exact Ho.
Qed.

Section Outcomes.
Variable solver : simplex_method.

(** On an instance that passes the checks, [minimize] comes down to
    [processSimplexResult] on the code of its last simplex call. *)
Lemma minimize_to_result direction dirLen result resLen s :
  inv s ->
  numInitConstraints (this s) <> -1 -> numOutputConstraints (this s) <> -1 ->
  dirLen = numOutputVars (this s) ->
  exists r s3 P rest,
    minimize solver direction dirLen result resLen s
      = processSimplexResult r result resLen s3
    /\ simplex_calls s3 = (P, r) :: rest.
Proof.
  intros Hinv H1 H2 H3.
  destruct (set_objective_done direction s Hinv) as (s1 & Hobj & _).
  rewrite (minimize_from_solve solver _ _ _ _ _ _ H1 H2 H3 Hobj).
  unfold bind at 1. rewrite simplex_unfold.
  set (r1 := sa_ret _). set (s2 := mkProcess _ _ _).
  unfold bind at 1, retry.
  destruct (r1 =? 0) eqn:E; simpl.
  - unfold bind at 1, glp_get at 1. unfold bind at 1. simpl.
    eexists r1, _, _, _. split; reflexivity.
  - assert (Hfr : Forall (eq GLP_FR) (ctypes s2)).
    { pose proof (keeps_done _ _ _ _ _
        (set_objective_keeps_ctypes direction (numOutputVars (this s))) Hobj) as Kt.
      subst s2. unfold ctypes. simpl. rewrite fmap_imap_same by reflexivity.
      fold (ctypes s1). rewrite Kt. apply Hinv. }
    destruct (resetLp_done s2 Hfr) as (sr & Hr & _).
    unfold bind at 1. rewrite Hr, simplex_unfold.
    unfold bind at 1, glp_get at 1. unfold bind at 1. simpl.
    eexists _, _, _, _. split; reflexivity.
Qed.

(** How [minimize] ends once the checks are passed. *)
Lemma minimize_cases direction dirLen result resLen s :
  inv s ->
  numInitConstraints (this s) <> -1 -> numOutputConstraints (this s) <> -1 ->
  dirLen = numOutputVars (this s) ->
  let o := minimize solver direction dirLen result resLen s in
  let st := glp_get_status (lp (this (final o))) in
  exists P r rest,
    simplex_calls (final o) = (P, r) :: rest
    /\ (if r =? GLP_ENOPFS then o = Done (1, result) (final o)
        else if negb (r =? 0) then o = Fatal (SimplexError r) (final o)
        else if st =? GLP_OPT then exists res', o = Done (0, res') (final o)
        else if st =? GLP_NOFEAS then o = Done (1, result) (final o)
        else o = Fatal (StatusError st) (final o)).
Proof.
  intros Hinv H1 H2 H3 o st.
  destruct (minimize_to_result direction dirLen result resLen s Hinv H1 H2 H3)
    as (r & s3 & P & rest & Hmin & Hlog).
  assert (Hfin : final o = s3).
  { subst o. rewrite Hmin. apply (processSimplexResult_keeps (fun s => s)). }
  subst st. rewrite Hfin. subst o. rewrite Hmin.
  exists P, r, rest. split; [exact Hlog|].
  apply processSimplexResult_cases.
Qed.

(** X1: on an instance with both blocks set and a direction of length
    [numOutputVars], how [minimize] ends is decided by the return code [r]
    of its last simplex call and the solution status: [GLP_ENOPFS] gives
    answer 1 with the buffer untouched; any other nonzero code is fatal;
    with code 0, status optimal gives answer 0, status no-feasible gives
    answer 1 with the buffer untouched, and any other status is fatal. *)
Theorem minimize_outcomes (s : process) (direction : list float) (dirLen : Z)
    (result : list float) (resLen : Z) :
  reachable solver s ->
  numInitConstraints (this s) <> -1 -> numOutputConstraints (this s) <> -1 ->
  dirLen = numOutputVars (this s) ->
  let o := minimize solver direction dirLen result resLen s in
  let st := glp_get_status (lp (this (final o))) in
  exists P r rest,
    simplex_calls (final o) = (P, r) :: rest
    /\ (if r =? GLP_ENOPFS then o = Done (1, result) (final o)
        else if negb (r =? 0) then o = Fatal (SimplexError r) (final o)
        else if st =? GLP_OPT then exists res', o = Done (0, res') (final o)
        else if st =? GLP_NOFEAS then o = Done (1, result) (final o)
        else o = Fatal (StatusError st) (final o)).
Proof.
  intros Hreach H1 H2 H3. apply reachable_inv in Hreach.
  apply minimize_cases; assumption.
Qed.

(** X2: on a reachable instance, whatever was called before, [minimize] ends in
    the configuration error exactly when a constraint block is unset or the
    direction length is not [numOutputVars], and then leaves the process as
    it was; and it never ends in an abort of the solver library. *)
Theorem minimize_configuration_error (s : process) (direction : list float)
    (dirLen : Z) (result : list float) (resLen : Z) :
  reachable solver s ->
  let o := minimize solver direction dirLen result resLen s in
  ((exists s', o = Fatal ConfigError s')
   <-> (numInitConstraints (this s) = -1 \/ numOutputConstraints (this s) = -1
        \/ dirLen <> numOutputVars (this s)))
  /\ (forall s', o = Fatal ConfigError s' -> s' = s)
  /\ (forall s', o <> Fatal SolverAbort s').
Proof.
  intros Hreach o.
  destruct (decide (numInitConstraints (this s) = -1
                    \/ numOutputConstraints (this s) = -1
                    \/ dirLen <> numOutputVars (this s))) as [Hg|Hg].
  - assert (Ho : o = Fatal ConfigError s).
    { subst o. unfold minimize.
      rewrite (bind_gets numInitConstraints), (bind_gets numOutputConstraints).
      destruct (numInitConstraints (this s) =? -1) eqn:E1; [reflexivity|].
      destruct (numOutputConstraints (this s) =? -1) eqn:E2; [reflexivity|].
      simpl. rewrite (bind_gets numOutputVars).
      destruct (dirLen =? numOutputVars (this s)) eqn:E3; [|reflexivity].
      apply Z.eqb_neq in E1, E2. apply Z.eqb_eq in E3. tauto. }
    rewrite Ho. split; [split; eauto|]. split; [congruence | discriminate].
  - assert (H1 : numInitConstraints (this s) <> -1) by tauto.
    assert (H2 : numOutputConstraints (this s) <> -1) by tauto.
    assert (H3 : dirLen = numOutputVars (this s)) by lia.
    destruct (minimize_cases direction dirLen result resLen s
                (reachable_inv solver s Hreach) H1 H2 H3)
      as (P & r & rest & _ & Hcase).
    fold o in Hcase.
    assert (Hno : forall e s', o = Fatal e s' -> e <> ConfigError /\ e <> SolverAbort).
    { intros e s' He.
      destruct (r =? GLP_ENOPFS); [rewrite Hcase in He; discriminate|].
      destruct (negb (r =? 0));
        [rewrite Hcase in He; injection He as <- _; split; discriminate|].
      destruct (_ =? GLP_OPT);
        [destruct Hcase as [res' Hcase]; rewrite Hcase in He; discriminate|].
      destruct (_ =? GLP_NOFEAS); [rewrite Hcase in He; discriminate|].
      rewrite Hcase in He. injection He as <- _. split; discriminate. }
    split; [split|split].
    + intros [s' Hs']. destruct (Hno _ _ Hs') as [Hc _]. congruence.
    + intros Hg'. contradiction.
    + intros s' Hs'. destruct (Hno _ _ Hs') as [Hc _]. congruence.
    + intros s' Hs'. destruct (Hno _ _ Hs') as [_ Hc]. congruence.
Qed.

End Outcomes.

(** ** What [minimize] and [resetLp] leave alone *)

Lemma alter_fixed {A} (h : A -> A) (i : nat) (l : list A) :
  (forall x, l !! i = Some x -> h x = x) -> alter h i l = l.
Proof.
  intros H. apply list_eq. intros k. destruct (decide (i = k)) as [<-|Hne].
  - rewrite list_lookup_alter_eq. destruct (l !! i) as [x|] eqn:E; [|reflexivity].
    simpl. rewrite (H x eq_refl). reflexivity.
  - apply list_lookup_alter_ne. exact Hne.
Qed.

Lemma with_rows_same s : with_rows s (row (lp (this s))) = s.
Proof. apply process_eta. Qed.

Lemma with_cols_same s : with_cols s (col (lp (this s))) = s.
Proof. destruct s as [g c [? ? ? ? ? ? ? ? ? []]]. reflexivity. Qed.

Lemma row_part_of_row g : gkeeps row g -> gkeeps row_part g.
Proof. intros H P P' E. unfold row_part. rewrite (H _ _ E). reflexivity. Qed.

Lemma col_part_of_col g : gkeeps col g -> gkeeps col_part g.
Proof. intros H P P' E. unfold col_part. rewrite (H _ _ E). reflexivity. Qed.

Lemma set_row_stat_row_part i st : gkeeps row_part (glp_set_row_stat i st).
Proof. intros P P' H. glp_inv H. apply fmap_alter_same. reflexivity. Qed.

Lemma set_col_stat_col_part j st : gkeeps col_part (glp_set_col_stat j st).
Proof. intros P P' H. glp_inv H. apply fmap_alter_same. reflexivity. Qed.

Lemma set_obj_coef_col_part j c : gkeeps col_part (glp_set_obj_coef j c).
Proof.
  intros P P' H. glp_inv H; [reflexivity|]. apply fmap_alter_same. reflexivity.
Qed.

Lemma keeps_constraints_glp g :
  gkeeps row_part g -> gkeeps col_part g -> keeps constraints (glp g).
Proof.
  intros Hr Hc. apply keeps_glp. intros s P E. unfold constraints. simpl.
  rewrite (Hr _ _ E), (Hc _ _ E). reflexivity.
Qed.

Lemma resetLp_keeps_constraints : keeps constraints resetLp.
Proof.
  unfold resetLp. keeps_split; apply keeps_constraints_glp;
    auto using set_row_stat_row_part, set_col_stat_col_part,
               row_part_of_row, col_part_of_col with glpk.
Qed.

Section Frames.
Variable solver : simplex_method.

Lemma simplex_keeps_constraints : keeps constraints (simplex solver).
Proof.
  intros s. rewrite simplex_unfold. unfold constraints, row_part, col_part. simpl.
  rewrite !fmap_imap_same by reflexivity. reflexivity.
Qed.


End Frames.

(** [resetLp] on a problem whose rows are all basic and whose columns are
    all free and non-basic changes nothing. *)
Lemma resetLp_fixed s :
  Forall (fun r => r_stat r = GLP_BS) (row (lp (this s))) ->
  Forall (fun c => c_type c = GLP_FR /\ c_stat c = GLP_NF) (col (lp (this s))) ->
  resetLp s = Done tt s.
Proof.
  intros Hbs Hnf. unfold resetLp.
  unfold bind at 1, glp_get at 1. unfold bind at 1, glp_get at 1. unfold for_upto.
  destruct (for_total (fun (_ : nat) (_ : unit) s' => s' = s)
    (Z.to_nat (glp_get_num_rows (lp (this s)))) 0
    (fun r _ => glp (glp_set_row_stat (r + 1) GLP_BS)) tt s) as ([] & s1 & Ha & ->).
  { reflexivity. }
  { intros k [] s' Hk ->. rewrite Z.add_0_l. unfold glp.
    rewrite set_row_stat_effect; [|unfold glp_get_num_rows in *; lia|reflexivity].
    eexists tt, _. split; [reflexivity|].
    rewrite alter_fixed; [apply with_rows_same|].
    intros [t lb ub st es] Hx. eapply Forall_lookup_1 in Hbs; [|exact Hx].
    simpl in Hbs. subst st. reflexivity. }
  unfold bind at 1. rewrite Ha.
  destruct (for_total (fun (_ : nat) (_ : unit) s' => s' = s)
    (Z.to_nat (glp_get_num_cols (lp (this s)))) 0
    (fun c _ => glp (glp_set_col_stat (c + 1) GLP_NF)) tt s) as ([] & s1 & Hb & ->).
  { reflexivity. }
  { intros k [] s' Hk ->. rewrite Z.add_0_l. unfold glp.
    rewrite set_col_stat_effect; [|unfold glp_get_num_cols in *; lia|reflexivity].
    eexists tt, _. split; [reflexivity|].
    rewrite alter_fixed; [apply with_cols_same|].
    intros [t lb ub co st pr] Hx. eapply Forall_lookup_1 in Hnf; [|exact Hx].
    simpl in Hnf. destruct Hnf as [-> ->]. reflexivity. }
  exact Hb.
Qed.

Lemma resetLp_keeps_prims : keeps (fun s => c_prim <$> col (lp (this s))) resetLp.
Proof.
  unfold resetLp. keeps_split;
    apply (keeps_glp_part (fun P => c_prim <$> col P)).
  - intros P P' E. rewrite (row_only_col _ (row_only_set_row_stat _ _) _ _ E). reflexivity.
  - intros P P' E. glp_inv E. apply fmap_alter_same. reflexivity.
Qed.

Section Reset.
Variable solver : simplex_method.


End Reset.

(** ** Construction *)

Lemma alter_replicate_step {A} (h : A -> A) (a b : A) (k n : nat) :
  (k < n)%nat -> h b = a ->
  alter h k (replicate k a ++ replicate (n - k) b)
  = replicate (S k) a ++ replicate (n - S k) b.
Proof.
  intros Hk Hh. apply list_eq. intros i.
  destruct (decide (k = i)) as [<-|Hne].
  - rewrite list_lookup_alter_eq.
    rewrite (lookup_app_r (replicate k a)) by (rewrite length_replicate; lia).
    rewrite length_replicate, Nat.sub_diag.
    rewrite (lookup_replicate_2 (n - k)) by lia.
    rewrite (lookup_app_l (replicate (S k) a)) by (rewrite length_replicate; lia).
    rewrite lookup_replicate_2 by lia. simpl. rewrite Hh. reflexivity.
  - rewrite list_lookup_alter_ne by exact Hne.
    destruct (decide (i < k)%nat).
    + rewrite !lookup_app_l by (rewrite length_replicate; lia).
      rewrite !lookup_replicate_2 by lia. reflexivity.
    + rewrite !lookup_app_r by (rewrite length_replicate; lia).
      rewrite !length_replicate.
      destruct (decide (i < n)%nat).
      * rewrite !lookup_replicate_2 by lia. reflexivity.
      * rewrite !(proj1 (lookup_replicate_None _ _ _)) by lia. reflexivity.
Qed.

Lemma set_col_bnds_effect_in j t lb ub P :
  1 <= j <= glp_get_num_cols P -> valid_type t = true ->
  glp_set_col_bnds j t lb ub P =
    Some (set_col P (alter (fun c =>
      mkCOL t (bnds_of t lb ub).1 (bnds_of t lb ub).2 (c_coef c)
            (stat_after_bnds t lb ub (c_stat c)) (c_prim c)) (pos j) (col P))).
Proof.
  intros Hj Hv. unfold glp_set_col_bnds, in_range. rewrite Hv.
  destruct (1 <=? j) eqn:E1; [|apply Z.leb_gt in E1; lia].
  destruct (j <=? glp_get_num_cols P) eqn:E2; [|apply Z.leb_gt in E2; lia].
  reflexivity.
Qed.

(** What the constructor does, by cases on its arguments. *)
Lemma LpData_new_decided (g : GlobalLpData) (calls : list (glp_prob * Z))
    (nOV nIV nIn : Z) :
  LpData_new g calls nOV nIV nIn
  = if (0 <? nOV) && (0 <? nIV) && (nIn =? 0)
    then Done tt (constructed g calls nOV nIV)
    else Fatal ConfigError (mkProcess g calls (blank nOV nIV nIn)).
Proof.
  unfold LpData_new, LpData_body.
  rewrite (bind_gets numOutputVars), (bind_gets numInitVars). simpl.
  destruct (nOV <=? 0) eqn:E1.
  { apply Z.leb_le in E1. destruct (0 <? nOV) eqn:E; [apply Z.ltb_lt in E; lia|].
    reflexivity. }
  destruct (nIV <=? 0) eqn:E2.
  { apply Z.leb_le in E2. destruct (0 <? nIV) eqn:E; [apply Z.ltb_lt in E; lia|].
    rewrite andb_false_r. reflexivity. }
  apply Z.leb_gt in E1, E2.
  destruct (0 <? nOV) eqn:E1'; [|apply Z.ltb_ge in E1'; lia].
  destruct (0 <? nIV) eqn:E2'; [|apply Z.ltb_ge in E2'; lia].
  simpl. rewrite (bind_gets numInputs). simpl.
  destruct (nIn =? 0) eqn:E3; simpl; [|reflexivity].
  apply Z.eqb_eq in E3. subst nIn.
  unfold bind at 1, glp at 1. simpl.
  unfold bind at 1, glp at 1. simpl.
  unfold bind at 1, glp at 1, glp_add_cols. simpl.
  destruct (nOV + nIV <? 1) eqn:E4; [apply Z.ltb_lt in E4; lia|]. simpl.
  set (n := Z.to_nat (nOV + nIV)).
  set (s0 := mkProcess g calls (blank nOV nIV 0)).
  unfold for_upto. fold n.
  match goal with
  | |- for_ _ _ ?body _ ?st = _ =>
      destruct (for_total (fun k (_ : unit) s' =>
          s' = with_cols s0 (replicate k free_col ++ replicate (n - k) new_col))
        n 0 body tt st) as ([] & s' & Hrun & ->)
  end.
  - unfold with_cols, with_this, with_lp, set_col. simpl.
    rewrite Nat.sub_0_r. reflexivity.
  - intros k [] s' Hk ->. rewrite Z.add_0_l. unfold glp.
    rewrite set_col_bnds_effect_in.
    + eexists tt, _. split; [reflexivity|]. simpl.
      replace (pos (Z.of_nat k + 1)) with k by (unfold pos; lia).
      rewrite (alter_replicate_step _ free_col new_col k n) by (reflexivity || lia).
      reflexivity.
    + unfold glp_get_num_cols. simpl.
      rewrite length_app, !length_replicate. lia.
    + reflexivity.
  - rewrite Hrun, Nat.sub_diag. simpl. rewrite app_nil_r. reflexivity.
Qed.

(** X5: the constructor accepts exactly positive [numOutputVars] and
    [numInitVars] with [numInputs = 0]; every other call ends in the
    configuration error.  The instance it builds has one free, non-basic
    column with zero objective per variable, no rows, a minimization
    objective, and both row counts unset. *)
Theorem LpData_new_accepts (g : GlobalLpData) (calls : list (glp_prob * Z))
    (nOV nIV nIn : Z) :
  LpData_new g calls nOV nIV nIn
  = if (0 <? nOV) && (0 <? nIV) && (nIn =? 0)
    then Done tt (constructed g calls nOV nIV)
    else Fatal ConfigError (mkProcess g calls (blank nOV nIV nIn)).
Proof. apply LpData_new_decided. Qed.

(** ** The basis block, again *)

Lemma set_basis_rows_overwrite m1 m2 w base k rows :
  set_basis_rows m2 w base k (set_basis_rows m1 w base k rows)
  = set_basis_rows m2 w base k rows.
Proof.
  unfold set_basis_rows. apply list_eq. intros i. rewrite !list_lookup_imap.
  destruct (rows !! i) as [x|]; simpl; [|reflexivity].
  destruct (decide _); reflexivity.
Qed.

Lemma with_basis_overwrite m1 m2 s : with_basis m2 (with_basis m1 s) = with_basis m2 s.
Proof. unfold with_basis. simpl. rewrite set_basis_rows_overwrite. reflexivity. Qed.

Section BasisAgain.
Variable solver : simplex_method.

(** X6: on an instance whose output block is installed with a
    non-negative row count, or not installed at all, [updateBasisMatrix]
    ends in the configuration error, with the process as it was, exactly
    when [w] is not [numInitVars], [h] is not [numOutputVars] or the output
    block is not installed; in every other case it returns. *)
Theorem updateBasisMatrix_accepts (s : process) (mat : list float) (w h : Z) :
  reachable solver s ->
  -1 <= numOutputConstraints (this s) ->
  updateBasisMatrix mat w h s
  = if (w =? numInitVars (this s)) && (h =? numOutputVars (this s))
       && negb (numOutputConstraints (this s) =? -1)
    then Done tt (with_basis mat s)
    else Fatal ConfigError s.
Proof.
  intros Hreach Hoc. apply reachable_inv in Hreach as Hinv.
  destruct (w =? numInitVars (this s)) eqn:E1;
    [destruct (h =? numOutputVars (this s)) eqn:E2;
     [destruct (numOutputConstraints (this s) =? -1) eqn:E3|]|]; simpl.
  - unfold updateBasisMatrix.
    rewrite (bind_gets numInitVars), (bind_gets numOutputVars), E1, E2.
    change (negb true || negb true) with false. cbv iota.
    rewrite (bind_gets numOutputConstraints), E3. reflexivity.
  - apply Z.eqb_eq in E1, E2. apply Z.eqb_neq in E3.
    apply updateBasisMatrix_exact; [exact Hinv | lia | exact E1 | exact E2].
  - unfold updateBasisMatrix.
    rewrite (bind_gets numInitVars), (bind_gets numOutputVars), E1, E2. reflexivity.
  - unfold updateBasisMatrix.
    rewrite (bind_gets numInitVars), (bind_gets numOutputVars), E1. reflexivity.
Qed.

(** X7: on an instance with both blocks installed, an [updateBasisMatrix]
    call overwrites the basis block whole: updating with one matrix and
    then with another leaves the same state as updating with the second
    alone. *)
Theorem updateBasisMatrix_last_wins (s : process) (m1 m2 : list float) (w h : Z) :
  reachable solver s ->
  0 <= numOutputConstraints (this s) ->
  w = numInitVars (this s) -> h = numOutputVars (this s) ->
  Z.of_nat (length m1) = h * w -> Z.of_nat (length m2) = h * w ->
  exists s1 s2,
    updateBasisMatrix m1 w h s = Done tt s1
    /\ updateBasisMatrix m2 w h s1 = Done tt s2
    /\ updateBasisMatrix m2 w h s = Done tt s2.
Proof.
  intros Hreach Hoc Hw Hh _ _. apply reachable_inv in Hreach as Hinv.
  pose proof (updateBasisMatrix_exact m1 w h s Hinv Hoc Hw Hh) as H1.
  pose proof (updateBasisMatrix_exact m2 w h s Hinv Hoc Hw Hh) as H2.
  assert (Hinv1 : inv (with_basis m1 s)).
  { apply (exec_inv solver (UpdateBasisMatrix m1 w h) s); [exact H1 | exact Hinv]. }
  exists (with_basis m1 s), (with_basis m2 s).
  split; [exact H1|]. split; [|exact H2].
  rewrite (updateBasisMatrix_exact m2 w h (with_basis m1 s) Hinv1);
    [rewrite with_basis_overwrite; reflexivity | exact Hoc | exact Hw | exact Hh].
Qed.

End BasisAgain.

(** ** Loops that rewrite a block of rows *)

Lemma staged_0 F base rows : staged F base 0 rows = rows.
Proof.
  unfold staged. apply list_eq. intros i. rewrite list_lookup_imap.
  destruct (rows !! i); simpl; [|reflexivity].
  destruct (decide _); [lia | reflexivity].
Qed.

Lemma length_staged F base k rows : length (staged F base k rows) = length rows.
Proof. apply length_imap. Qed.

Lemma staged_S F (base k : nat) rows :
  alter (F k) (base + k)%nat (staged F base k rows) = staged F base (S k) rows.
Proof.
  unfold staged. apply list_eq. intros i.
  destruct (decide (base + k = i)%nat) as [<-|Hne].
  - rewrite list_lookup_alter_eq, !list_lookup_imap.
    destruct (rows !! (base + k)%nat) as [x|]; simpl; [|reflexivity].
    destruct (decide (base <= base + k < base + k)%nat); [lia|].
    destruct (decide (base <= base + k < base + S k)%nat); [|lia].
    replace (base + k - base)%nat with k by lia. reflexivity.
  - rewrite list_lookup_alter_ne by exact Hne. rewrite !list_lookup_imap.
    destruct (rows !! i) as [x|]; simpl; [|reflexivity].
    destruct (decide (base <= i < base + k)%nat);
      destruct (decide (base <= i < base + S k)%nat); try lia; reflexivity.
Qed.

Lemma staged_app F (base n : nat) (old mid : list GLPROW) :
  length old = base -> length mid = n ->
  staged F base n (old ++ mid) = old ++ imap F mid.
Proof.
  intros Ho Hm. unfold staged. apply list_eq. intros i. rewrite list_lookup_imap.
  destruct (decide (i < base)%nat).
  - rewrite !lookup_app_l by lia. destruct (old !! i); simpl; [|reflexivity].
    destruct (decide _); [lia | reflexivity].
  - rewrite !lookup_app_r by lia. rewrite list_lookup_imap, Ho.
    destruct (mid !! (i - base)%nat) as [x|] eqn:E; simpl; [|reflexivity].
    apply lookup_lt_Some in E. destruct (decide _); [reflexivity | lia].
Qed.

Lemma imap_replicate {A B} (G : nat -> A -> B) (n : nat) (x : A) :
  imap G (replicate n x) = (fun r => G r x) <$> seq 0 n.
Proof.
  apply list_eq. intros i. rewrite list_lookup_imap, list_lookup_fmap.
  destruct (decide (i < n)%nat).
  - rewrite lookup_replicate_2, lookup_seq_lt by lia. reflexivity.
  - rewrite (proj1 (lookup_replicate_None n x i)) by lia.
    rewrite lookup_ge_None_2 by (rewrite length_seq; lia). reflexivity.
Qed.

Lemma imap_fmap_seq {A B} (G : nat -> A -> B) (f : nat -> A) (n : nat) :
  imap G (f <$> seq 0 n) = (fun r => G r (f r)) <$> seq 0 n.
Proof.
  apply list_eq. intros i. rewrite list_lookup_imap, !list_lookup_fmap.
  destruct (decide (i < n)%nat).
  - rewrite lookup_seq_lt by lia. reflexivity.
  - rewrite lookup_ge_None_2 by (rewrite length_seq; lia). reflexivity.
Qed.

(** A loop whose round [k] rewrites row [base + k] by [F k], whatever the
    rows are at that point, leaves the rows [staged]. *)
Lemma rows_loop {A} (J : A -> Prop) (F : nat -> GLPROW -> GLPROW) (base n : nat)
    (body : Z -> A -> M A) (a : A) (s : process) :
  J a ->
  (forall k a' X, (k < n)%nat -> J a' -> length X = length (row (lp (this s))) ->
     exists a'', J a''
       /\ body (Z.of_nat k) a' (with_rows s X)
          = Done a'' (with_rows s (alter (F k) (base + k)%nat X))) ->
  exists a'', J a''
    /\ for_ n 0 body a s
       = Done a'' (with_rows s (staged F base n (row (lp (this s))))).
Proof.
  intros Ha Hbody.
  destruct (for_total (fun k a' s' =>
      J a' /\ s' = with_rows s (staged F base k (row (lp (this s)))))
    n 0 body a s) as (a'' & s' & Hrun & Ha'' & ->).
  - split; [exact Ha|]. rewrite staged_0. symmetry. apply with_rows_same.
  - intros k a' s' Hk [Ha' ->]. rewrite Z.add_0_l.
    destruct (Hbody k a' (staged F base k (row (lp (this s)))) Hk Ha')
      as (a'' & Ha'' & Hrun); [apply length_imap|].
    exists a'', (with_rows s (alter (F k) (base + k)%nat
                                    (staged F base k (row (lp (this s)))))).
    split; [exact Hrun|]. split; [exact Ha''|]. rewrite staged_S. reflexivity.
  - exists a''. split; [exact Ha''|exact Hrun].
Qed.

Lemma set_row_bnds_effect_in i t lb ub P :
  1 <= i <= glp_get_num_rows P -> valid_type t = true ->
  glp_set_row_bnds i t lb ub P =
    Some (set_row P (alter (fun r =>
      mkROW t (bnds_of t lb ub).1 (bnds_of t lb ub).2
            (stat_after_bnds t lb ub (r_stat r)) (r_ptr r)) (pos i) (row P))).
Proof.
  intros Hi Hv. unfold glp_set_row_bnds, in_range. rewrite Hv.
  destruct (1 <=? i) eqn:E1; [|apply Z.leb_gt in E1; lia].
  destruct (i <=? glp_get_num_rows P) eqn:E2; [|apply Z.leb_gt in E2; lia].
  reflexivity.
Qed.

(** [glp_set_mat_row] accepts entries with distinct columns that exist. *)
Lemma set_mat_row_accepts i len ind val es P :
  entries len ind val = es -> len = Z.of_nat (length es) ->
  1 <= i <= glp_get_num_rows P ->
  Z.of_nat (length es) <= glp_get_num_cols P ->
  Forall (fun e => 1 <= e.1 <= glp_get_num_cols P) es ->
  NoDup es.*1 ->
  glp_set_mat_row i len ind val P =
    Some (set_row P (alter (fun x =>
      mkROW (r_type x) (r_lb x) (r_ub x) (r_stat x) es) (pos i) (row P))).
Proof.
  intros He Hlen Hi Hc Hall Hnd. unfold glp_set_mat_row. rewrite He.
  assert (E1 : in_range i (glp_get_num_rows P) = true).
  { unfold in_range. apply andb_true_iff. split; apply Z.leb_le; lia. }
  assert (E2 : (0 <=? len) = true) by (apply Z.leb_le; lia).
  assert (E3 : (len <=? glp_get_num_cols P) = true) by (apply Z.leb_le; lia).
  assert (E4 : forallb (fun e => in_range e.1 (glp_get_num_cols P)) es = true).
  { apply forallb_forall. intros e Hin. apply list_elem_of_In in Hin.
    rewrite Forall_forall in Hall. specialize (Hall e Hin).
    unfold in_range. apply andb_true_iff. split; apply Z.leb_le; lia. }
  rewrite E1, E2, E3, E4, (distinct_NoDup _ Hnd). reflexivity.
Qed.

(** *** The scan of a dense row *)

Lemma sparse_from_cons mat w row off a n :
  sparse_from mat w row off a (S n)
  = (if nonzero (rd mat (row * w + Z.of_nat a))
     then [(off + Z.of_nat a + 1, rd mat (row * w + Z.of_nat a))] else [])
    ++ sparse_from mat w row off (S a) n.
Proof. reflexivity. Qed.

Lemma sparse_from_snoc mat w row off a n :
  sparse_from mat w row off a (S n)
  = sparse_from mat w row off a n
    ++ (if nonzero (rd mat (row * w + Z.of_nat (a + n)))
        then [(off + Z.of_nat (a + n) + 1, rd mat (row * w + Z.of_nat (a + n)))] else []).
Proof.
  unfold sparse_from. rewrite seq_S, bind_app. f_equal. simpl.
  rewrite app_nil_r. reflexivity.
Qed.

Lemma sparse_from_keys mat w row off a n :
  Forall (fun e => off + Z.of_nat a + 1 <= e.1 <= off + Z.of_nat a + Z.of_nat n)
         (sparse_from mat w row off a n).
Proof.
  revert a. induction n as [|n IH]; intros a; [constructor|].
  rewrite sparse_from_cons. apply Forall_app. split.
  - destruct (nonzero _); repeat constructor; simpl; lia.
  - eapply Forall_impl; [apply IH|]. simpl. intros e He. lia.
Qed.

Lemma sparse_from_NoDup mat w row off a n :
  NoDup (sparse_from mat w row off a n).*1.
Proof.
  revert a. induction n as [|n IH]; intros a; [constructor|].
  rewrite sparse_from_cons, fmap_app. apply NoDup_app. split; [|split].
  - destruct (nonzero _); simpl; [apply NoDup_singleton | constructor].
  - intros j Hj Hj'. apply list_elem_of_fmap in Hj' as (e & -> & He).
    pose proof (sparse_from_keys mat w row off (S a) n) as Hk.
    rewrite Forall_forall in Hk. specialize (Hk e He). simpl in Hk.
    destruct (nonzero _); simpl in Hj.
    + apply list_elem_of_singleton in Hj. lia.
    + apply elem_of_nil in Hj. exact Hj.
  - apply IH.
Qed.

Lemma sparse_from_length mat w row off a n :
  (length (sparse_from mat w row off a n) <= n)%nat.
Proof.
  revert a. induction n as [|n IH]; intros a; [simpl; lia|].
  rewrite sparse_from_cons, length_app. specialize (IH (S a)).
  destruct (nonzero _); simpl; lia.
Qed.

(** The coefficient a sparse row gives column [j]: the matrix entry if [j]
    is one of the scanned columns and the entry is not zero, else zero. *)
Lemma assoc_sparse_from mat w row off a n j :
  assoc j (sparse_from mat w row off a n)
  = if decide (off + Z.of_nat a + 1 <= j <= off + Z.of_nat a + Z.of_nat n)
    then (if nonzero (rd mat (row * w + (j - off - 1)))
          then rd mat (row * w + (j - off - 1)) else 0%float)
    else 0%float.
Proof.
  revert a. induction n as [|n IH]; intros a.
  - simpl. destruct (decide _); [lia | reflexivity].
  - rewrite sparse_from_cons.
    destruct (decide (j = off + Z.of_nat a + 1)) as [Hj|Hne].
    + destruct (decide _); [|lia].
      replace (j - off - 1) with (Z.of_nat a) by lia.
      destruct (nonzero (rd mat (row * w + Z.of_nat a))) eqn:E; cbn [app assoc].
      * replace (off + Z.of_nat a + 1 =? j) with true by (symmetry; apply Z.eqb_eq; lia).
        reflexivity.
      * rewrite IH. destruct (decide _); [lia | reflexivity].
    + assert (Hhd : forall tl,
                assoc j ((if nonzero (rd mat (row * w + Z.of_nat a))
                          then [(off + Z.of_nat a + 1, rd mat (row * w + Z.of_nat a))]
                          else []) ++ tl) = assoc j tl).
      { intros tl. destruct (nonzero (rd mat (row * w + Z.of_nat a)));
          cbn [app assoc]; [|reflexivity].
        destruct (off + Z.of_nat a + 1 =? j) eqn:E; [apply Z.eqb_eq in E; lia|].
        reflexivity. }
      rewrite Hhd, IH.
      destruct (decide _); destruct (decide _); try lia; reflexivity.
Qed.

Lemma entries_S (n : nat) ind val :
  entries (Z.of_nat (S n)) ind val
  = entries (Z.of_nat n) ind val ++ [(ind !!! S n, val !!! S n)].
Proof. unfold entries. rewrite !Nat2Z.id, seq_S, fmap_app. reflexivity. Qed.

Lemma entries_insert_beyond (n k : nat) x y ind val :
  (n < k)%nat ->
  entries (Z.of_nat n) (<[k := x]> ind) (<[k := y]> val) = entries (Z.of_nat n) ind val.
Proof.
  intros Hk. unfold entries. rewrite Nat2Z.id. apply list_fmap_ext. intros i j Hj.
  apply lookup_seq in Hj as [-> Hlt].
  rewrite !list_lookup_total_insert_ne by lia. reflexivity.
Qed.

(** The scan leaves the nonzero entries of the matrix row, in column order,
    at positions [1 .. rowIndex - 1] of the two arrays. *)
Lemma scan_row_spec mat w row off (ri : list Z) (rdat : list float) :
  0 <= w -> length ri = Z.to_nat (w + 1) -> length rdat = Z.to_nat (w + 1) ->
  let '(rowIndex, ri', rd') := scan_row mat w row off ri rdat in
  rowIndex - 1 = Z.of_nat (length (sparse_row mat w row off))
  /\ length ri' = Z.to_nat (w + 1) /\ length rd' = Z.to_nat (w + 1)
  /\ entries (rowIndex - 1) ri' rd' = sparse_row mat w row off.
Proof.
  intros Hw Hli Hld. unfold scan_row, loop_upto, sparse_row.
  pose proof (loop_inv (fun n '(idx, ri', rd') =>
      idx = 1 + Z.of_nat (length (sparse_from mat w row off 0 n))
      /\ length ri' = Z.to_nat (w + 1) /\ length rd' = Z.to_nat (w + 1)
      /\ entries (Z.of_nat (length (sparse_from mat w row off 0 n))) ri' rd'
         = sparse_from mat w row off 0 n)
    (Z.to_nat w) 0
    (fun i '(rowIndex, rowIndices, rowData) =>
       let d := rd mat (row * w + i) in
       if nonzero d
       then (rowIndex + 1, wr rowIndices rowIndex (off + i + 1), wr rowData rowIndex d)
       else (rowIndex, rowIndices, rowData)) (1, ri, rdat)) as L.
  destruct (loop _ _ _ _) as [[idx ri'] rd'].
  destruct L as (L1 & L2 & L3 & L4).
  - split; [reflexivity|]. split; [exact Hli|]. split; [exact Hld|]. reflexivity.
  - intros n [[idx0 ri0] rd0] Hn (L1 & L2 & L3 & L4). rewrite Z.add_0_l.
    rewrite sparse_from_snoc. rewrite Nat.add_0_l. cbv zeta.
    pose proof (sparse_from_length mat w row off 0 n) as Hlen.
    destruct (nonzero (rd mat (row * w + Z.of_nat n))).
    + rewrite length_app. simpl length. unfold wr. subst idx0.
      replace (Z.to_nat (1 + Z.of_nat (length (sparse_from mat w row off 0 n))))
        with (S (length (sparse_from mat w row off 0 n))) by lia.
      rewrite !length_insert.
      split; [lia|]. split; [exact L2|]. split; [exact L3|].
      replace (length (sparse_from mat w row off 0 n) + 1)%nat
        with (S (length (sparse_from mat w row off 0 n))) by lia.
      rewrite entries_S, entries_insert_beyond by lia.
      rewrite !list_lookup_total_insert_eq by lia.
      rewrite L4. reflexivity.
    + rewrite app_nil_r. split; [exact L1|]. split; [exact L2|]. split; [exact L3|exact L4].
  - split; [lia|]. split; [exact L2|]. split; [exact L3|].
    replace (idx - 1) with (Z.of_nat (length (sparse_from mat w row off 0 (Z.to_nat w))))
      by lia.
    exact L4.
Qed.

(** *** One round of the installers' loops *)

Lemma glp_with_rows g s X Y :
  g (set_row (lp (this s)) X) = Some (set_row (lp (this s)) Y) ->
  glp g (with_rows s X) = Done tt (with_rows s Y).
Proof.
  intros H. unfold glp.
  change (lp (this (with_rows s X))) with (set_row (lp (this s)) X).
  rewrite H. reflexivity.
Qed.

Lemma bnds_step s X i t lb ub :
  1 <= i <= Z.of_nat (length X) -> valid_type t = true ->
  glp (glp_set_row_bnds i t lb ub) (with_rows s X)
  = Done tt (with_rows s (alter (with_bnds t lb ub) (pos i) X)).
Proof.
  intros Hi Ht. apply glp_with_rows.
  rewrite set_row_bnds_effect_in by assumption. reflexivity.
Qed.

Lemma scan_step s X i mat w row off (ri : list Z) (rdat : list float) :
  0 <= w -> 0 <= off -> off + w <= ncols s ->
  length ri = Z.to_nat (w + 1) -> length rdat = Z.to_nat (w + 1) ->
  1 <= i <= Z.of_nat (length X) ->
  let '(rowIndex, ri', rd') := scan_row mat w row off ri rdat in
  glp (glp_set_mat_row i (rowIndex - 1) ri' rd') (with_rows s X)
  = Done tt (with_rows s (alter (with_entries (sparse_row mat w row off)) (pos i) X))
  /\ length ri' = Z.to_nat (w + 1) /\ length rd' = Z.to_nat (w + 1).
Proof.
  intros Hw Hoff Hcols Hli Hld Hi.
  pose proof (scan_row_spec mat w row off ri rdat Hw Hli Hld) as Hs.
  destruct (scan_row mat w row off ri rdat) as [[idx ri'] rd'].
  destruct Hs as (Hidx & Hli' & Hld' & He).
  split; [|split; assumption].
  apply glp_with_rows.
  pose proof (sparse_from_length mat w row off 0 (Z.to_nat w)) as Hlen.
  fold (sparse_row mat w row off) in Hlen.
  unfold ncols, glp_get_num_cols in Hcols.
  rewrite (set_mat_row_accepts _ _ _ _ (sparse_row mat w row off)).
  - reflexivity.
  - exact He.
  - exact Hidx.
  - exact Hi.
  - unfold glp_get_num_cols. simpl. lia.
  - eapply Forall_impl; [apply sparse_from_keys|].
    intros e He'. simpl in He'. unfold glp_get_num_cols. simpl. lia.
  - apply sparse_from_NoDup.
Qed.

(** The rows that the two loops over a block of new rows leave. *)
Lemma ineq_block mat w off rhs (base n : nat) (old : list GLPROW) :
  length old = base ->
  staged (fun k => with_entries (sparse_row mat w (Z.of_nat k) off)) base n
    (staged (fun k => with_bnds GLP_UP 0%float (rd rhs (Z.of_nat k))) base n
       (old ++ replicate n new_row))
  = old ++ ineq_rows mat w off rhs n.
Proof.
  intros Ho. rewrite (staged_app _ base n old) by (try apply length_replicate; exact Ho).
  rewrite staged_app by (try (rewrite length_imap; apply length_replicate); exact Ho).
  f_equal. rewrite imap_replicate, imap_fmap_seq. reflexivity.
Qed.

Lemma fixed_block (base n : nat) (old : list GLPROW) :
  length old = base ->
  staged (fun _ => with_bnds GLP_FX 0%float 0%float) base n (old ++ replicate n new_row)
  = old ++ replicate n fixed_row.
Proof.
  intros Ho. rewrite staged_app by (try apply length_replicate; exact Ho).
  f_equal. rewrite imap_replicate.
  rewrite (const_fmap _ (seq 0 n) fixed_row) by reflexivity.
  rewrite length_seq. reflexivity.
Qed.

(** ** The rows the installers leave *)

Lemma bind_run {A B} (m : M A) (k : A -> M B) s a s' :
  m s = Done a s' -> bind m k s = k a s'.
Proof. intros H. unfold bind. rewrite H. reflexivity. Qed.

Lemma bind_modify {B} f (k : unit -> M B) s :
  bind (modify f) k s = k tt (with_this s (f (this s))).
Proof. reflexivity. Qed.

Lemma bind_glp_get {A B} (f : glp_prob -> A) (k : A -> M B) s :
  bind (glp_get f) k s = k (f (lp (this s))) s.
Proof. reflexivity. Qed.

Lemma with_rows_twice s X Y : with_rows (with_rows s X) Y = with_rows s Y.
Proof. reflexivity. Qed.

Lemma row_with_rows s X : row (lp (this (with_rows s X))) = X.
Proof. reflexivity. Qed.

Lemma add_rows_step {B} n (k : unit -> M B) s :
  1 <= n ->
  bind (glp (glp_add_rows n)) k s
  = k tt (with_rows s (row (lp (this s)) ++ replicate (Z.to_nat n) new_row)).
Proof.
  intros Hn. unfold bind, glp, glp_add_rows.
  destruct (n <? 1) eqn:E; [apply Z.ltb_lt in E; lia|]. reflexivity.
Qed.

Lemma add_rows_abort {B} n (k : unit -> M B) s :
  n < 1 -> bind (glp (glp_add_rows n)) k s = Fatal SolverAbort s.
Proof.
  intros Hn. unfold bind, glp, glp_add_rows.
  destruct (n <? 1) eqn:E; [reflexivity | apply Z.ltb_ge in E; lia].
Qed.

(** On an instance without rows, [setInitConstraints] with matching sizes
    and at least one constraint leaves exactly the rows [ineq_rows]. *)
Lemma setInitConstraints_exact mat w h rhs rhsLen s :
  numInitConstraints (this s) = -1 -> nrows s = 0 ->
  0 < numInitVars (this s) -> numInitVars (this s) <= ncols s ->
  w = numInitVars (this s) -> h = rhsLen -> 1 <= rhsLen ->
  setInitConstraints mat w h rhs rhsLen s
  = Done tt (with_rows (with_this s (with_numInitConstraints (this s) rhsLen))
                       (ineq_rows mat w 0 rhs (Z.to_nat rhsLen))).
Proof.
  intros Hic Hrows Hiv Hcols -> -> Hlen.
  assert (Hnil : row (lp (this s)) = []).
  { unfold nrows, glp_get_num_rows in Hrows. apply length_zero_iff_nil. lia. }
  unfold setInitConstraints.
  rewrite (bind_gets numInitConstraints), Hic.
  change (negb (-1 =? -1)) with false. cbv iota.
  rewrite bind_modify.
  set (s1 := with_this s (with_numInitConstraints (this s) rhsLen)).
  rewrite Z.eqb_refl. change (negb true) with false. cbv iota.
  rewrite (bind_gets numInitVars).
  change (numInitVars (this s1)) with (numInitVars (this s)).
  rewrite Z.eqb_refl. change (negb true) with false. cbv iota.
  rewrite bind_glp_get.
  change (glp_get_num_rows (lp (this s1))) with (nrows s). rewrite Hrows.
  change (negb (0 =? 0)) with false. cbv iota.
  rewrite add_rows_step by exact Hlen.
  change (row (lp (this s1))) with (row (lp (this s))). rewrite Hnil, app_nil_l.
  set (n := Z.to_nat rhsLen). set (nIV := numInitVars (this s)) in *.
  unfold for_upto. fold n.
  match goal with
  | |- bind (for_ ?m ?i ?body ?a) _ ?st = _ =>
      destruct (rows_loop (fun _ : unit => True)
                  (fun k => with_bnds GLP_UP 0%float (rd rhs (Z.of_nat k)))
                  0 m body a st) as (a1 & _ & Hrun1)
  end.
  { exact I. }
  { intros k [] X Hk _ HX. exists tt. split; [exact I|].
    rewrite row_with_rows, length_replicate in HX.
    rewrite bnds_step by (try reflexivity; lia).
    replace (pos (Z.of_nat k + 1)) with (0 + k)%nat by (unfold pos; lia).
    reflexivity. }
  rewrite (bind_run _ _ _ _ _ Hrun1). clear Hrun1.
  rewrite row_with_rows, with_rows_twice.
  match goal with
  | |- bind (for_ ?m ?i ?body ?a) _ ?st = _ =>
      destruct (rows_loop
                  (fun '(ri, rdat) => length ri = Z.to_nat (nIV + 1)
                                      /\ length rdat = Z.to_nat (nIV + 1))
                  (fun k => with_entries (sparse_row mat nIV (Z.of_nat k) 0))
                  0 m body a st) as (a2 & _ & Hrun2)
  end.
  { split; unfold vector; apply length_replicate. }
  { intros k [ri rdat] X Hk [Hli Hld] HX.
    rewrite row_with_rows, length_staged, length_replicate in HX.
    pose proof (scan_step s1 X (Z.of_nat k + 1) mat nIV (Z.of_nat k) 0 ri rdat
                  ltac:(lia) ltac:(lia) ltac:(exact Hcols) Hli Hld ltac:(lia)) as Hs.
    destruct (scan_row mat nIV (Z.of_nat k) 0 ri rdat) as [[idx ri'] rd'].
    destruct Hs as (Hrun & Hli' & Hld').
    exists (ri', rd'). split; [split; assumption|].
    rewrite (bind_run _ _ _ _ _ Hrun).
    replace (pos (Z.of_nat k + 1)) with (0 + k)%nat by (unfold pos; lia).
    reflexivity. }
  rewrite (bind_run _ _ _ _ _ Hrun2). clear Hrun2.
  rewrite row_with_rows, with_rows_twice.
  rewrite <- (app_nil_l (replicate n new_row)).
  rewrite (ineq_block mat nIV 0 rhs 0 n []) by reflexivity.
  reflexivity.
Qed.

Lemma length_ineq_rows mat w off rhs n : length (ineq_rows mat w off rhs n) = n.
Proof. unfold ineq_rows. rewrite length_fmap. apply length_seq. Qed.

(** Right after the initial block, [setOutputConstraints] with a matrix of
    the right width appends the output block and then one fixed row per
    output variable. *)
Lemma setOutputConstraints_exact mat w h rhs rhsLen s :
  numOutputConstraints (this s) = -1 -> nrows s = numInitConstraints (this s) ->
  0 < numOutputVars (this s) -> 0 <= numInitVars (this s) ->
  numInitVars (this s) + numOutputVars (this s) <= ncols s ->
  w = numOutputVars (this s) -> 0 <= rhsLen ->
  setOutputConstraints mat w h rhs rhsLen s
  = Done tt (with_rows (with_this s (with_numOutputConstraints (this s) rhsLen))
       (row (lp (this s))
        ++ ineq_rows mat w (numInitVars (this s)) rhs (Z.to_nat rhsLen)
        ++ replicate (Z.to_nat (numOutputVars (this s))) fixed_row)).
Proof.
  intros Hoc Hrows Hov Hiv Hcols -> Hlen.
  unfold setOutputConstraints.
  rewrite (bind_gets numOutputConstraints), Hoc.
  change (negb (-1 =? -1)) with false. cbv iota.
  rewrite bind_modify.
  set (s1 := with_this s (with_numOutputConstraints (this s) rhsLen)).
  rewrite (bind_gets numOutputVars).
  change (numOutputVars (this s1)) with (numOutputVars (this s)).
  rewrite Z.eqb_refl. change (negb true) with false. cbv iota.
  rewrite bind_glp_get, (bind_gets numInitConstraints).
  change (glp_get_num_rows (lp (this s1))) with (nrows s).
  change (numInitConstraints (this s1)) with (numInitConstraints (this s)).
  rewrite Hrows, Z.eqb_refl. change (negb true) with false. cbv iota.
  rewrite (bind_gets numOutputConstraints).
  change (numOutputConstraints (this s1)) with rhsLen.
  set (n := Z.to_nat rhsLen). set (nOV := numOutputVars (this s)) in *.
  set (nIV := numInitVars (this s)) in *. set (nIC := numInitConstraints (this s)) in *.
  set (rows := row (lp (this s))).
  assert (Hrl : length rows = Z.to_nat nIC /\ 0 <= nIC).
  { unfold nrows, glp_get_num_rows in Hrows. fold rows in Hrows. lia. }
  destruct Hrl as [Hrl Hic].
  match goal with
  | |- bind ?blk _ ?st = _ =>
      assert (Hb : blk st = Done tt (with_rows s1 (rows ++ ineq_rows mat nOV nIV rhs n)))
  end.
  { destruct (0 <? rhsLen) eqn:E.
    - apply Z.ltb_lt in E. rewrite add_rows_step by lia.
      change (row (lp (this s1))) with rows. unfold for_upto. fold n.
      match goal with
      | |- bind (for_ ?m ?i ?body ?a) _ ?st = _ =>
          destruct (rows_loop (fun _ : unit => True)
                      (fun k => with_bnds GLP_UP 0%float (rd rhs (Z.of_nat k)))
                      (Z.to_nat nIC) m body a st) as (a1 & _ & Hrun1)
      end.
      { exact I. }
      { intros k [] X Hk _ HX. exists tt. split; [exact I|].
        rewrite row_with_rows, length_app, length_replicate in HX.
        rewrite (bind_gets numInitConstraints).
        change (numInitConstraints (this (with_rows _ X))) with nIC.
        rewrite bnds_step by (try reflexivity; lia).
        replace (pos (nIC + Z.of_nat k + 1)) with (Z.to_nat nIC + k)%nat
          by (unfold pos; lia).
        reflexivity. }
      rewrite (bind_run _ _ _ _ _ Hrun1). clear Hrun1.
      rewrite row_with_rows, with_rows_twice.
      match goal with
      | |- bind (for_ ?m ?i ?body ?a) _ ?st = _ =>
          destruct (rows_loop
                      (fun '(ri, rdat) => length ri = Z.to_nat (nOV + 1)
                                          /\ length rdat = Z.to_nat (nOV + 1))
                      (fun k => with_entries (sparse_row mat nOV (Z.of_nat k) nIV))
                      (Z.to_nat nIC) m body a st) as (a2 & _ & Hrun2)
      end.
      { split; unfold vector; apply length_replicate. }
      { intros k [ri rdat] X Hk [Hli Hld] HX.
        rewrite row_with_rows, length_staged, length_app, length_replicate in HX.
        rewrite (bind_gets numInitVars), (bind_gets numInitConstraints).
        change (numInitVars (this (with_rows _ X))) with nIV.
        change (numInitConstraints (this (with_rows _ X))) with nIC.
        pose proof (scan_step s1 X (nIC + Z.of_nat k + 1) mat nOV (Z.of_nat k) nIV ri rdat
                      ltac:(lia) ltac:(lia) ltac:(exact Hcols) Hli Hld ltac:(lia)) as Hs.
        destruct (scan_row mat nOV (Z.of_nat k) nIV ri rdat) as [[idx ri'] rd'].
        destruct Hs as (Hrun & Hli' & Hld').
        exists (ri', rd'). split; [split; assumption|].
        rewrite (bind_run _ _ _ _ _ Hrun).
        replace (pos (nIC + Z.of_nat k + 1)) with (Z.to_nat nIC + k)%nat
          by (unfold pos; lia).
        reflexivity. }
      rewrite (bind_run _ _ _ _ _ Hrun2). clear Hrun2.
      rewrite row_with_rows, with_rows_twice.
      rewrite (ineq_block mat nOV nIV rhs (Z.to_nat nIC) n rows) by exact Hrl.
      reflexivity.
    - apply Z.ltb_ge in E. replace n with 0%nat by lia.
      unfold ineq_rows. simpl. rewrite app_nil_r.
      unfold ret. change rows with (row (lp (this s1))).
      rewrite with_rows_same. reflexivity. }
  rewrite (bind_run _ _ _ _ _ Hb). clear Hb.
  rewrite (bind_gets numOutputVars).
  change (numOutputVars (this (with_rows s1 _))) with nOV.
  rewrite add_rows_step by lia. rewrite row_with_rows, with_rows_twice.
  unfold for_upto.
  match goal with
  | |- for_ ?m ?i ?body ?a ?st = _ =>
      destruct (rows_loop (fun _ : unit => True)
                  (fun _ => with_bnds GLP_FX 0%float 0%float)
                  (Z.to_nat (nIC + rhsLen)) m body a st) as ([] & _ & Hrun3)
  end.
  { exact I. }
  { intros k [] X Hk _ HX. exists tt. split; [exact I|].
    rewrite row_with_rows, !length_app, length_ineq_rows, length_replicate in HX.
    rewrite (bind_gets numInitConstraints), (bind_gets numOutputConstraints).
    change (numInitConstraints (this (with_rows _ X))) with nIC.
    change (numOutputConstraints (this (with_rows _ X))) with rhsLen.
    rewrite bnds_step by (try reflexivity; lia).
    replace (pos (nIC + rhsLen + Z.of_nat k + 1)) with (Z.to_nat (nIC + rhsLen) + k)%nat
      by (unfold pos; lia).
    reflexivity. }
  rewrite Hrun3, row_with_rows, with_rows_twice.
  rewrite fixed_block by (rewrite length_app, length_ineq_rows; lia).
  rewrite <- app_assoc. reflexivity.
Qed.

Section Installers.
Variable solver : simplex_method.

Lemma exec_no_rows c s s' :
  exec solver c s = Done tt s' ->
  (numInitConstraints (this s) = -1 -> nrows s = 0) ->
  numInitConstraints (this s') = -1 -> nrows s' = 0.
Proof.
  intros H Hs Hic. pose proof (post_call_done solver c s s') as Hp.
  pose proof (nrows_nonneg s) as Hnn.
  destruct c; simpl in H, Hp.
  1,2,6,7: (destruct (Hp I H) as [Kd Kr]; apply dims_eq in Kd as (_ & _ & Kd & _);
            rewrite Kr; apply Hs; congruence).
  - apply setInitConstraints_done in H. lia.
  - apply setNoOutputConstraints_done, setOutputConstraints_done in H. lia.
  - apply setOutputConstraints_done in H. lia.
Qed.

Lemma run_no_rows cs s s' :
  run solver cs s = Done tt s' ->
  (numInitConstraints (this s) = -1 -> nrows s = 0) ->
  numInitConstraints (this s') = -1 -> nrows s' = 0.
Proof.
  revert s. induction cs as [|c cs IH]; intros s H Hs; simpl in H.
  - injection H as <-. exact Hs.
  - apply bind_done in H as ([] & s1 & Hc & Hr).
    apply (IH s1 Hr). apply (exec_no_rows c s s1 Hc Hs).
Qed.

(** As long as the initial block has not been installed, a reachable
    instance has no rows. *)
Lemma reachable_no_rows s :
  reachable solver s -> numInitConstraints (this s) = -1 -> nrows s = 0.
Proof.
  intros (g & calls & nOV & nIV & nIn & s0 & cs & Hnew & Hrun).
  apply (run_no_rows cs s0 s Hrun).
  apply LpData_new_done in Hnew. tauto.
Qed.

(** X8: On a reachable instance whose initial block has not been
    installed, [setInitConstraints] ends in the configuration error when
    [h] differs from [rhsLen] or [w] from [numInitVars], is aborted by the
    solver when [rhsLen] is below 1, and otherwise returns; the rows are
    then exactly [rhsLen] rows [<= rhs[r]] holding the nonzero entries of
    matrix row [r] on the columns [1 .. w], in column order. In each case
    [numInitConstraints] has become [rhsLen]. *)
Theorem setInitConstraints_accepts (s : process) (mat : list float) (w h : Z)
    (rhs : list float) (rhsLen : Z) :
  reachable solver s -> numInitConstraints (this s) = -1 ->
  setInitConstraints mat w h rhs rhsLen s
  = let s1 := with_this s (with_numInitConstraints (this s) rhsLen) in
    if negb (h =? rhsLen) || negb (w =? numInitVars (this s))
    then Fatal ConfigError s1
    else if rhsLen <? 1 then Fatal SolverAbort s1
    else Done tt (with_rows s1 (ineq_rows mat w 0 rhs (Z.to_nat rhsLen))).
Proof.
  intros Hre Hic. pose proof (reachable_no_rows s Hre Hic) as Hrows.
  destruct (reachable_inv solver s Hre) as (Hov & Hiv & Hcols & _).
  cbv zeta.
  destruct (h =? rhsLen) eqn:E1; cbn [negb orb].
  - destruct (w =? numInitVars (this s)) eqn:E2; cbn [negb].
    + apply Z.eqb_eq in E1, E2. destruct (rhsLen <? 1) eqn:E3.
      * apply Z.ltb_lt in E3. subst h w. unfold setInitConstraints.
        rewrite (bind_gets numInitConstraints), Hic.
        change (negb (-1 =? -1)) with false. cbv iota.
        rewrite bind_modify, Z.eqb_refl. change (negb true) with false. cbv iota.
        rewrite (bind_gets numInitVars).
        change (numInitVars (this (with_this s _))) with (numInitVars (this s)).
        rewrite Z.eqb_refl. change (negb true) with false. cbv iota.
        rewrite bind_glp_get.
        change (glp_get_num_rows (lp (this (with_this s _)))) with (nrows s).
        rewrite Hrows. change (negb (0 =? 0)) with false. cbv iota.
        apply add_rows_abort. exact E3.
      * apply Z.ltb_ge in E3. apply setInitConstraints_exact; try assumption; lia.
    + unfold setInitConstraints.
      rewrite (bind_gets numInitConstraints), Hic.
      change (negb (-1 =? -1)) with false. cbv iota.
      rewrite bind_modify, E1. change (negb true) with false. cbv iota.
      rewrite (bind_gets numInitVars).
      change (numInitVars (this (with_this s _))) with (numInitVars (this s)).
      rewrite E2. reflexivity.
  - unfold setInitConstraints.
    rewrite (bind_gets numInitConstraints), Hic.
    change (negb (-1 =? -1)) with false. cbv iota.
    rewrite bind_modify, E1. reflexivity.
Qed.

(** The outcome of [setOutputConstraints] on an instance with the columns
    of its variables, before the output block is installed. *)
Lemma setOutputConstraints_decided mat w h rhs rhsLen s :
  0 < numOutputVars (this s) -> 0 <= numInitVars (this s) ->
  numInitVars (this s) + numOutputVars (this s) <= ncols s ->
  numOutputConstraints (this s) = -1 -> 0 <= rhsLen ->
  setOutputConstraints mat w h rhs rhsLen s
  = let s1 := with_this s (with_numOutputConstraints (this s) rhsLen) in
    if (w =? numOutputVars (this s)) && (nrows s =? numInitConstraints (this s))
    then Done tt (with_rows s1
           (row (lp (this s))
            ++ ineq_rows mat w (numInitVars (this s)) rhs (Z.to_nat rhsLen)
            ++ replicate (Z.to_nat (numOutputVars (this s))) fixed_row))
    else Fatal ConfigError s1.
Proof.
  intros Hov Hiv Hcols Hoc Hlen.
  cbv zeta.
  destruct (w =? numOutputVars (this s)) eqn:E1; cbn [andb].
  - destruct (nrows s =? numInitConstraints (this s)) eqn:E2.
    + apply Z.eqb_eq in E1, E2.
      apply setOutputConstraints_exact; try assumption; lia.
    + unfold setOutputConstraints.
      rewrite (bind_gets numOutputConstraints), Hoc.
      change (negb (-1 =? -1)) with false. cbv iota.
      rewrite bind_modify, (bind_gets numOutputVars).
      change (numOutputVars (this (with_this s _))) with (numOutputVars (this s)).
      rewrite E1. change (negb true) with false. cbv iota.
      rewrite bind_glp_get, (bind_gets numInitConstraints).
      change (glp_get_num_rows (lp (this (with_this s _)))) with (nrows s).
      change (numInitConstraints (this (with_this s _)))
        with (numInitConstraints (this s)).
      rewrite E2. reflexivity.
  - unfold setOutputConstraints.
    rewrite (bind_gets numOutputConstraints), Hoc.
    change (negb (-1 =? -1)) with false. cbv iota.
    rewrite bind_modify, (bind_gets numOutputVars).
    change (numOutputVars (this (with_this s _))) with (numOutputVars (this s)).
    rewrite E1. reflexivity.
Qed.

(** X9: On a reachable instance whose output block has not been installed,
    [setOutputConstraints] with [rhsLen >= 0] returns exactly when [w] is
    [numOutputVars] and the row count is [numInitConstraints] ([h] is not
    looked at); it then appends [rhsLen] rows [<= rhs[r]] holding the
    nonzero entries of matrix row [r] on the output columns
    [numInitVars + 1 ..], followed by [numOutputVars] rows fixed at 0
    without entries, and leaves the earlier rows as they were. Otherwise it
    ends in the configuration error, with [numOutputConstraints] changed. *)
Theorem setOutputConstraints_accepts (s : process) (mat : list float) (w h : Z)
    (rhs : list float) (rhsLen : Z) :
  reachable solver s -> numOutputConstraints (this s) = -1 -> 0 <= rhsLen ->
  setOutputConstraints mat w h rhs rhsLen s
  = let s1 := with_this s (with_numOutputConstraints (this s) rhsLen) in
    if (w =? numOutputVars (this s)) && (nrows s =? numInitConstraints (this s))
    then Done tt (with_rows s1
           (row (lp (this s))
            ++ ineq_rows mat w (numInitVars (this s)) rhs (Z.to_nat rhsLen)
            ++ replicate (Z.to_nat (numOutputVars (this s))) fixed_row))
    else Fatal ConfigError s1.
Proof.
  intros Hre Hoc Hlen.
  destruct (reachable_inv solver s Hre) as (Hov & Hiv & Hcols & _).
  apply setOutputConstraints_decided; try assumption; lia.
Qed.

(** X10: On a reachable instance, [setNoOutputConstraints] returns exactly
    when the output block has not been installed and the row count is
    [numInitConstraints]; it then sets [numOutputConstraints] to 0 and
    appends [numOutputVars] rows fixed at 0 without entries, nothing
    else. *)
Theorem setNoOutputConstraints_accepts (s : process) :
  reachable solver s ->
  setNoOutputConstraints s
  = if numOutputConstraints (this s) =? -1
    then let s1 := with_this s (with_numOutputConstraints (this s) 0) in
         if nrows s =? numInitConstraints (this s)
         then Done tt (with_rows s1
                (row (lp (this s))
                 ++ replicate (Z.to_nat (numOutputVars (this s))) fixed_row))
         else Fatal ConfigError s1
    else Fatal ConfigError s.
Proof.
  intros Hre. destruct (numOutputConstraints (this s) =? -1) eqn:E.
  - apply Z.eqb_eq in E. rewrite (setNoOutputConstraints_eq s E).
    destruct (reachable_inv solver s Hre) as (Hov & Hiv & Hcols & _).
    rewrite (setOutputConstraints_decided [] (numOutputVars (this s)) 0 [] 0 s)
      by (try assumption; lia).
    cbv zeta. rewrite Z.eqb_refl. cbn [andb]. reflexivity.
  - unfold setNoOutputConstraints. rewrite (bind_gets numOutputConstraints), E.
    reflexivity.
Qed.

End Installers.

(** ** The constraints the installers give the solver *)

Lemma lookup_ineq_rows mat w off rhs n (old tl : list GLPROW) (r : nat) :
  (r < n)%nat ->
  (old ++ ineq_rows mat w off rhs n ++ tl) !! (length old + r)%nat
  = Some (ineq_row (rd rhs (Z.of_nat r)) (sparse_row mat w (Z.of_nat r) off)).
Proof.
  intros Hr. rewrite lookup_app_r by lia.
  replace (length old + r - length old)%nat with r by lia.
  rewrite lookup_app_l by (rewrite length_ineq_rows; exact Hr).
  unfold ineq_rows. rewrite list_lookup_fmap, lookup_seq_lt by exact Hr. reflexivity.
Qed.

Lemma assoc_sparse_row mat w row off j :
  0 <= w ->
  assoc j (sparse_row mat w row off)
  = if decide (off + 1 <= j <= off + w)
    then kept (rd mat (row * w + (j - off - 1))) else 0%float.
Proof.
  intros Hw. unfold sparse_row. rewrite assoc_sparse_from. unfold kept.
  destruct (decide _); destruct (decide _); try lia; reflexivity.
Qed.

(** A row of an inequality block reads [sum_j kept(mat[r][j]) * x_(off+j+1)
    <= rhs[r]]. *)
Lemma ineq_rows_read P mat w off rhs n (old tl : list GLPROW) (base r : Z) :
  row P = old ++ ineq_rows mat w off rhs n ++ tl ->
  base = Z.of_nat (length old) -> 0 <= r < Z.of_nat n -> 0 <= w ->
  row_type P (base + r + 1) = Some GLP_UP
  /\ row_ub P (base + r + 1) = Some (rd rhs r)
  /\ forall j, coef P (base + r + 1) j
       = if decide (off + 1 <= j <= off + w)
         then kept (rd mat (r * w + (j - off - 1))) else 0%float.
Proof.
  intros Hrow -> Hr Hw. unfold row_type, row_ub, coef. rewrite Hrow.
  replace (pos (Z.of_nat (length old) + r + 1)) with (length old + Z.to_nat r)%nat
    by (unfold pos; lia).
  rewrite lookup_ineq_rows by lia. rewrite Z2Nat.id by lia.
  split; [reflexivity|]. split; [reflexivity|].
  intros j. simpl. apply assoc_sparse_row. exact Hw.
Qed.

Lemma fixed_rows_read P (old : list GLPROW) (n : nat) (base r : Z) :
  row P = old ++ replicate n fixed_row ->
  base = Z.of_nat (length old) -> 0 <= r < Z.of_nat n ->
  row_type P (base + r + 1) = Some GLP_FX
  /\ row_ub P (base + r + 1) = Some 0%float
  /\ forall j, coef P (base + r + 1) j = 0%float.
Proof.
  intros Hrow -> Hr. unfold row_type, row_ub, coef. rewrite Hrow.
  replace (pos (Z.of_nat (length old) + r + 1)) with (length old + Z.to_nat r)%nat
    by (unfold pos; lia).
  rewrite lookup_app_r by lia.
  replace (length old + Z.to_nat r - length old)%nat with (Z.to_nat r) by lia.
  rewrite lookup_replicate_2 by lia. repeat split.
Qed.

Section Matrix.
Variable solver : simplex_method.

(** X11: When [setInitConstraints] returns on a reachable instance, the
    instance has [rhsLen] rows, and row [r + 1] is the constraint
    [sum_j mat[r * w + j] * x_(j+1) <= rhs[r]] over the initial-variable
    columns: its bound type is [GLP_UP] with upper bound [rhs[r]], its
    coefficient in column [j] in [1 .. w] is the matrix entry (zero if the
    entry compares equal to zero), and it has no coefficient in any other
    column. *)
Theorem setInitConstraints_matrix (s s' : process) (mat : list float) (w h : Z)
    (rhs : list float) (rhsLen : Z) (u : unit) :
  reachable solver s ->
  setInitConstraints mat w h rhs rhsLen s = Done u s' ->
  nrows s' = rhsLen
  /\ forall r, 0 <= r < rhsLen ->
       row_type (lp (this s')) (r + 1) = Some GLP_UP
       /\ row_ub (lp (this s')) (r + 1) = Some (rd rhs r)
       /\ forall j, coef (lp (this s')) (r + 1) j
            = if decide (1 <= j <= w)
              then kept (rd mat (r * w + (j - 1))) else 0%float.
Proof.
  intros Hre Hrun. destruct u.
  destruct (reachable_inv solver s Hre) as (Hov & Hiv & Hcols & _).
  pose proof (setInitConstraints_done _ _ _ _ _ _ _ _ Hrun)
    as (Hic & Hh & Hw & Hrows & Hlen & _ & Hrows' & _).
  split; [exact Hrows'|].
  rewrite (setInitConstraints_exact mat w h rhs rhsLen s) in Hrun
    by (try assumption; lia).
  injection Hrun as <-. intros r Hr.
  destruct (ineq_rows_read
              (lp (this (with_rows (with_this s (with_numInitConstraints (this s) rhsLen))
                                   (ineq_rows mat w 0 rhs (Z.to_nat rhsLen)))))
              mat w 0 rhs (Z.to_nat rhsLen) [] [] 0 r)
    as (Ht & Hu & Hc); try lia.
  { rewrite row_with_rows, app_nil_r. reflexivity. }
  { reflexivity. }
  rewrite Z.add_0_l in Ht, Hu, Hc.
  split; [exact Ht|]. split; [exact Hu|].
  intros j. rewrite Hc.
  replace (j - 0 - 1) with (j - 1) by lia.
  destruct (decide (0 + 1 <= j <= 0 + w)); destruct (decide (1 <= j <= w));
    try lia; reflexivity.
Qed.

(** X12: When [setOutputConstraints] with [rhsLen >= 0] returns on a
    reachable instance, the coefficients of the rows of the initial block
    are as before; row [numInitConstraints + r + 1] is the constraint
    [sum_j mat[r * w + j] * y_j <= rhs[r]] over the output-variable columns
    [numInitVars + 1 .. numInitVars + w], with no coefficient on an
    initial-variable column; and each of the [numOutputVars] rows after these
    is fixed at 0 and has no coefficient yet. *)
Theorem setOutputConstraints_matrix (s s' : process) (mat : list float) (w h : Z)
    (rhs : list float) (rhsLen : Z) (u : unit) :
  reachable solver s -> 0 <= rhsLen ->
  setOutputConstraints mat w h rhs rhsLen s = Done u s' ->
  let nIC := numInitConstraints (this s) in
  let nIV := numInitVars (this s) in
  (forall i j, 1 <= i <= nIC -> coef (lp (this s')) i j = coef (lp (this s)) i j)
  /\ (forall r, 0 <= r < rhsLen ->
        row_type (lp (this s')) (nIC + r + 1) = Some GLP_UP
        /\ row_ub (lp (this s')) (nIC + r + 1) = Some (rd rhs r)
        /\ forall j, coef (lp (this s')) (nIC + r + 1) j
             = if decide (nIV + 1 <= j <= nIV + w)
               then kept (rd mat (r * w + (j - nIV - 1))) else 0%float)
  /\ (forall r, 0 <= r < numOutputVars (this s) ->
        row_type (lp (this s')) (nIC + rhsLen + r + 1) = Some GLP_FX
        /\ row_ub (lp (this s')) (nIC + rhsLen + r + 1) = Some 0%float
        /\ forall j, coef (lp (this s')) (nIC + rhsLen + r + 1) j = 0%float).
Proof.
  intros Hre Hlen Hrun nIC nIV. destruct u.
  destruct (reachable_inv solver s Hre) as (Hov & Hiv & Hcols & _).
  pose proof (setOutputConstraints_done _ _ _ _ _ _ _ _ Hrun)
    as (Hoc & Hw & Hrows & _).
  rewrite (setOutputConstraints_exact mat w h rhs rhsLen s) in Hrun
    by (try assumption; lia).
  injection Hrun as <-.
  assert (Hold : Z.of_nat (length (row (lp (this s)))) = nIC).
  { unfold nrows, glp_get_num_rows in Hrows. exact Hrows. }
  split; [|split].
  - intros i j Hi. unfold coef. rewrite row_with_rows.
    rewrite lookup_app_l by (unfold pos; lia). reflexivity.
  - intros r Hr.
    apply (ineq_rows_read _ mat w nIV rhs (Z.to_nat rhsLen) (row (lp (this s)))
             (replicate (Z.to_nat (numOutputVars (this s))) fixed_row));
      try lia.
    apply row_with_rows.
  - intros r Hr.
    apply (fixed_rows_read _
             (row (lp (this s)) ++ ineq_rows mat w nIV rhs (Z.to_nat rhsLen))
             (Z.to_nat (numOutputVars (this s)))).
    + rewrite row_with_rows, <- app_assoc. reflexivity.
    + rewrite length_app, length_ineq_rows. lia.
    + lia.
Qed.

End Matrix.

(** ** The private helper [addRows] *)

(** X13: [addRows] is aborted by the solver, with the process as it was,
    when [num] is below 1; otherwise it returns, having appended [num] rows
    [<= bound_vec[r]] without coefficients and left the earlier rows as
    they were. *)
Theorem addRows_appends (s : process) (num : Z) (bound_vec : list float) :
  addRows num bound_vec s
  = if num <? 1 then Fatal SolverAbort s
    else Done tt (with_rows s
           (row (lp (this s))
            ++ ((fun r => ineq_row (rd bound_vec (Z.of_nat r)) [])
                <$> seq 0 (Z.to_nat num)))).
Proof.
  unfold addRows. rewrite bind_glp_get.
  destruct (num <? 1) eqn:E.
  - apply Z.ltb_lt in E. apply add_rows_abort. exact E.
  - apply Z.ltb_ge in E. rewrite add_rows_step by exact E.
    unfold for_upto.
    match goal with
    | |- for_ ?m ?i ?body ?a ?st = _ =>
        destruct (rows_loop (fun _ : unit => True)
                    (fun k => with_bnds GLP_UP 0%float (rd bound_vec (Z.of_nat k)))
                    (length (row (lp (this s)))) m body a st) as ([] & _ & Hrun)
    end.
    { exact I. }
    { intros k [] X Hk _ HX. exists tt. split; [exact I|].
      rewrite row_with_rows, length_app, length_replicate in HX.
      rewrite bnds_step by (try reflexivity; unfold glp_get_num_rows; lia).
      replace (pos (glp_get_num_rows (lp (this s)) + Z.of_nat k + 1))
        with (length (row (lp (this s))) + k)%nat
        by (unfold pos, glp_get_num_rows; lia).
      reflexivity. }
    rewrite Hrun, row_with_rows, with_rows_twice.
    rewrite staged_app by (try apply length_replicate; reflexivity).
    rewrite imap_replicate. reflexivity.
Qed.

(** ** The stored input constraints *)

Lemma blind_ret {A} (a : A) : blind (ret a).
Proof. intros ? ? ? ? ?. reflexivity. Qed.

Lemma blind_fatal {A} e : blind (@fatal A e).
Proof. intros ? ? ? ? ?. reflexivity. Qed.

Lemma blind_bind {A B} (m : M A) (k : A -> M B) :
  blind m -> (forall a, blind (k a)) -> blind (bind m k).
Proof.
  intros Hm Hk data indices indptr rhs s. unfold bind. rewrite Hm.
  destruct (m s) as [a s'|e s']; simpl; [apply Hk | reflexivity].
Qed.

Lemma blind_for {A} n i (body : Z -> A -> M A) a :
  (forall i a, blind (body i a)) -> blind (for_ n i body a).
Proof.
  intros Hb. revert i a. induction n as [|n IH]; intros i a; simpl.
  - apply blind_ret.
  - apply blind_bind; [apply Hb | intros; apply IH].
Qed.

Lemma blind_for_upto {A} hi (body : Z -> A -> M A) a :
  (forall i a, blind (body i a)) -> blind (for_upto hi body a).
Proof. intros Hb. apply blind_for, Hb. Qed.

Lemma blind_glp g : blind (glp g).
Proof.
  intros data indices indptr rhs s. unfold glp, with_inputs. simpl.
  destruct (g (lp (this s))); reflexivity.
Qed.

Lemma blind_glp_get {A} (f : glp_prob -> A) : blind (glp_get f).
Proof. intros ? ? ? ? ?. reflexivity. Qed.

Lemma blind_glp_ask {A} (f : glp_prob -> option A) : blind (glp_ask f).
Proof.
  intros data indices indptr rhs s. unfold glp_ask, with_inputs. simpl.
  destruct (f (lp (this s))); reflexivity.
Qed.

Lemma blind_gets {A} (f : LpData -> A) :
  (forall d data indices indptr rhs, f (with_inputCsr d data indices indptr rhs) = f d) ->
  blind (gets f).
Proof.
  intros Hf data indices indptr rhs s. unfold gets, with_inputs. simpl.
  rewrite Hf. reflexivity.
Qed.

Lemma blind_modify (f : LpData -> LpData) :
  (forall d data indices indptr rhs,
     f (with_inputCsr d data indices indptr rhs)
     = with_inputCsr (f d) data indices indptr rhs) ->
  blind (modify f).
Proof.
  intros Hf data indices indptr rhs s. unfold modify, with_inputs. simpl.
  rewrite Hf. reflexivity.
Qed.

Lemma blind_add_statistics n : blind (add_statistics n).
Proof. intros ? ? ? ? ?. reflexivity. Qed.

Lemma blind_simplex solver : blind (simplex solver).
Proof.
  intros data indices indptr rhs s. reflexivity.
Qed.

Create HintDb blind.
#[local] Hint Resolve blind_ret blind_fatal blind_glp blind_glp_get blind_glp_ask
  blind_add_statistics blind_simplex : blind.

Ltac blind_step :=
  lazymatch goal with
  | |- blind (bind _ _) => apply blind_bind; [|intros]
  | |- blind (for_upto _ _ _) => apply blind_for_upto; intros
  | |- blind (gets _) => apply blind_gets; reflexivity
  | |- blind (modify _) => apply blind_modify; reflexivity
  | |- blind (match ?x with _ => _ end) => destruct x
  | |- blind _ => solve [auto with blind]
  end.

Ltac blind_auto := repeat (cbv beta; blind_step).

Lemma blind_resetLp : blind resetLp.
Proof. unfold resetLp. blind_auto. Qed.

Lemma blind_setInitConstraints mat w h rhs rhsLen :
  blind (setInitConstraints mat w h rhs rhsLen).
Proof. unfold setInitConstraints. blind_auto. Qed.

Lemma blind_setOutputConstraints mat w h rhs rhsLen :
  blind (setOutputConstraints mat w h rhs rhsLen).
Proof. unfold setOutputConstraints. blind_auto. Qed.

Lemma blind_setNoOutputConstraints : blind setNoOutputConstraints.
Proof.
  unfold setNoOutputConstraints. blind_auto. apply blind_setOutputConstraints.
Qed.

Lemma blind_updateBasisMatrix mat w h : blind (updateBasisMatrix mat w h).
Proof. unfold updateBasisMatrix. blind_auto. Qed.

Lemma blind_processSimplexResult r result resLen :
  blind (processSimplexResult r result resLen).
Proof. unfold processSimplexResult. blind_auto. Qed.

Lemma blind_minimize solver direction dirLen result resLen :
  blind (minimize solver direction dirLen result resLen).
Proof.
  unfold minimize. blind_auto.
  - apply blind_resetLp.
  - apply blind_processSimplexResult.
Qed.

Section Inputs.
Variable solver : simplex_method.

(** X14: no method other than [setInputConstraintsCsr] reads the stored
    input constraints.  Run on an instance that differs only in the stored
    CSR arrays and input right-hand side, each of [resetLp],
    [setInitConstraints], [setNoOutputConstraints], [setOutputConstraints],
    [updateBasisMatrix] and [minimize] ends the same way and leaves the same
    process but for that difference; [minimize] gives the same answer and
    the same result buffer. *)
Theorem input_constraints_never_read (s : process)
    (data : list float) (indices indptr : list Z) (rhs : list float) :
  resetLp (with_inputs data indices indptr rhs s)
  = after (with_inputs data indices indptr rhs) (resetLp s)
  /\ (forall mat w h b bLen,
        setInitConstraints mat w h b bLen (with_inputs data indices indptr rhs s)
        = after (with_inputs data indices indptr rhs)
                (setInitConstraints mat w h b bLen s))
  /\ setNoOutputConstraints (with_inputs data indices indptr rhs s)
     = after (with_inputs data indices indptr rhs) (setNoOutputConstraints s)
  /\ (forall mat w h b bLen,
        setOutputConstraints mat w h b bLen (with_inputs data indices indptr rhs s)
        = after (with_inputs data indices indptr rhs)
                (setOutputConstraints mat w h b bLen s))
  /\ (forall mat w h,
        updateBasisMatrix mat w h (with_inputs data indices indptr rhs s)
        = after (with_inputs data indices indptr rhs) (updateBasisMatrix mat w h s))
  /\ (forall direction dirLen result resLen,
        minimize solver direction dirLen result resLen
                 (with_inputs data indices indptr rhs s)
        = after (with_inputs data indices indptr rhs)
                (minimize solver direction dirLen result resLen s)).
Proof.
  split; [apply blind_resetLp|].
  split; [intros; apply blind_setInitConstraints|].
  split; [apply blind_setNoOutputConstraints|].
  split; [intros; apply blind_setOutputConstraints|].
  split; [intros; apply blind_updateBasisMatrix|].
  intros. apply blind_minimize.
Qed.

End Inputs.

(** ** Setting an instance up *)

Lemma with_basis_staged mat s :
  with_basis mat s
  = with_rows s
      (staged (fun k => with_entries (basis_entries mat (numInitVars (this s)) (Z.of_nat k)))
         (Z.to_nat (numInitConstraints (this s) + numOutputConstraints (this s)))
         (Z.to_nat (numOutputVars (this s)))
         (row (lp (this s)))).
Proof. reflexivity. Qed.

Lemma basis_block mat w (base n : nat) (old : list GLPROW) :
  length old = base ->
  staged (fun k => with_entries (basis_entries mat w (Z.of_nat k))) base n
    (old ++ replicate n fixed_row)
  = old ++ basis_rows mat w n.
Proof.
  intros Ho. rewrite staged_app by (try apply length_replicate; exact Ho).
  f_equal. rewrite imap_replicate. reflexivity.
Qed.

Section Setup.
Variable solver : simplex_method.

(** X15: The documented set-up, with arguments of the right shape, never
    ends in an error, and it builds exactly the problem
    [A x <= a], [B y <= b], [M x - y = 0]: the constructor with positive
    variable counts, then [setInitConstraints] with at least one row, then
    [setOutputConstraints], then [updateBasisMatrix] leave one free column
    per variable, the rows of [A] over the initial-variable columns, the
    rows of [B] over the output-variable columns, and for each output
    variable [r] a row fixed at 0 holding row [r] of [M] on the columns
    [1 .. numInitVars] and -1 on the column of that output variable. *)
Theorem setup_builds (g : GlobalLpData) (calls : list (glp_prob * Z)) (nOV nIV : Z)
    (A a : list float) (lenA : Z) (B b : list float) (hB lenB : Z) (M' : list float) :
  0 < nOV -> 0 < nIV -> 1 <= lenA -> 0 <= lenB ->
  let s0 := constructed g calls nOV nIV in
  LpData_new g calls nOV nIV 0 = Done tt s0
  /\ run solver [SetInitConstraints A nIV lenA a lenA;
                 SetOutputConstraints B nOV hB b lenB;
                 UpdateBasisMatrix M' nIV nOV] s0
     = Done tt
         (with_rows
            (with_this s0
               (with_numOutputConstraints (with_numInitConstraints (this s0) lenA) lenB))
            (ineq_rows A nIV 0 a (Z.to_nat lenA)
             ++ ineq_rows B nOV nIV b (Z.to_nat lenB)
             ++ basis_rows M' nIV (Z.to_nat nOV))).
Proof.
  intros Hov Hiv HlenA HlenB s0.
  assert (Hnew : LpData_new g calls nOV nIV 0 = Done tt s0).
  { rewrite LpData_new_decided.
    destruct (0 <? nOV) eqn:E1; [|apply Z.ltb_ge in E1; lia].
    destruct (0 <? nIV) eqn:E2; [|apply Z.ltb_ge in E2; lia].
    reflexivity. }
  split; [exact Hnew|].
  pose proof (LpData_new_done _ _ _ _ _ _ Hnew) as (Hinv0 & _).
  assert (Hcols0 : ncols s0 = nOV + nIV).
  { unfold ncols, glp_get_num_cols. subst s0. simpl. rewrite length_replicate. lia. }
  assert (H1 : setInitConstraints A nIV lenA a lenA s0
               = Done tt (with_rows (with_this s0 (with_numInitConstraints (this s0) lenA))
                                    (ineq_rows A nIV 0 a (Z.to_nat lenA)))).
  { apply setInitConstraints_exact; try reflexivity; try assumption.
    change (numInitVars (this s0)) with nIV. lia. }
  set (s1 := with_rows (with_this s0 (with_numInitConstraints (this s0) lenA))
                       (ineq_rows A nIV 0 a (Z.to_nat lenA))) in *.
  assert (Hinv1 : inv s1).
  { apply (exec_inv solver (SetInitConstraints A nIV lenA a lenA) s0 s1 H1 Hinv0). }
  assert (H2 : setOutputConstraints B nOV hB b lenB s1
               = Done tt (with_rows (with_this s1 (with_numOutputConstraints (this s1) lenB))
                    (row (lp (this s1)) ++ ineq_rows B nOV nIV b (Z.to_nat lenB)
                     ++ replicate (Z.to_nat nOV) fixed_row))).
  { apply (setOutputConstraints_exact B nOV hB b lenB s1); try reflexivity; try assumption.
    - unfold nrows, glp_get_num_rows. subst s1. rewrite row_with_rows, length_ineq_rows.
      change (numInitConstraints (this (with_rows _ _))) with lenA. lia.
    - change (numInitVars (this s1)) with nIV. lia.
    - change (numInitVars (this s1)) with nIV. change (numOutputVars (this s1)) with nOV.
      change (ncols s1) with (ncols s0). lia. }
  set (s2 := with_rows (with_this s1 (with_numOutputConstraints (this s1) lenB)) _) in *.
  assert (Hinv2 : inv s2).
  { apply (exec_inv solver (SetOutputConstraints B nOV hB b lenB) s1 s2 H2 Hinv1). }
  assert (H3 : updateBasisMatrix M' nIV nOV s2 = Done tt (with_basis M' s2)).
  { apply updateBasisMatrix_exact; try reflexivity; assumption. }
  unfold run, exec.
  rewrite (bind_run _ _ _ _ _ H1), (bind_run _ _ _ _ _ H2), (bind_run _ _ _ _ _ H3).
  unfold ret. f_equal.
  rewrite with_basis_staged.
  transitivity (with_rows s2 (ineq_rows A nIV 0 a (Z.to_nat lenA)
                              ++ ineq_rows B nOV nIV b (Z.to_nat lenB)
                              ++ basis_rows M' nIV (Z.to_nat nOV))); [|reflexivity].
  f_equal.
  change (row (lp (this s2)))
    with (ineq_rows A nIV 0 a (Z.to_nat lenA)
          ++ ineq_rows B nOV nIV b (Z.to_nat lenB)
          ++ replicate (Z.to_nat nOV) fixed_row).
  change (numInitVars (this s2)) with nIV.
  change (numOutputVars (this s2)) with nOV.
  change (numInitConstraints (this s2)) with lenA.
  change (numOutputConstraints (this s2)) with lenB.
  rewrite app_assoc.
  rewrite basis_block
    by (rewrite length_app, !length_ineq_rows; lia).
  rewrite <- app_assoc. reflexivity.
Qed.

End Setup.

(** ** A negative length *)

Lemma set_row_bnds_rejects i t lb ub P :
  i < 1 -> glp_set_row_bnds i t lb ub P = None.
Proof.
  intros Hi. unfold glp_set_row_bnds, in_range.
  destruct (1 <=? i) eqn:E; [apply Z.leb_le in E; lia|]. reflexivity.
Qed.

Section NegativeLength.
Variable solver : simplex_method.

(** X16: [setOutputConstraints] does not reject a negative [rhsLen]. On a
    reachable instance right after the initial block, with [w] equal to
    [numOutputVars], a call with [rhsLen < 0] stores [rhsLen] as
    [numOutputConstraints], adds no output row and appends [numOutputVars]
    free rows; it then fixes at 0 the rows
    [numInitConstraints + rhsLen + 1 ..], of which the first [-rhsLen] are
    rows of the initial block (or as many as there are output variables),
    and returns; when [rhsLen < -numInitConstraints] the first of these row
    numbers is below 1 and the solver aborts. *)
Theorem setOutputConstraints_negative_length (s : process) (mat : list float)
    (w h : Z) (rhs : list float) (rhsLen : Z) :
  reachable solver s -> numOutputConstraints (this s) = -1 ->
  w = numOutputVars (this s) -> nrows s = numInitConstraints (this s) ->
  rhsLen < 0 ->
  setOutputConstraints mat w h rhs rhsLen s
  = let s1 := with_this s (with_numOutputConstraints (this s) rhsLen) in
    let rows := row (lp (this s))
                ++ replicate (Z.to_nat (numOutputVars (this s))) new_row in
    if numInitConstraints (this s) + rhsLen <? 0
    then Fatal SolverAbort (with_rows s1 rows)
    else Done tt (with_rows s1
           (staged (fun _ => with_bnds GLP_FX 0%float 0%float)
              (Z.to_nat (numInitConstraints (this s) + rhsLen))
              (Z.to_nat (numOutputVars (this s))) rows)).
Proof.
  intros Hre Hoc -> Hrows Hneg.
  destruct (reachable_inv solver s Hre) as (Hov & _).
  cbv zeta. unfold setOutputConstraints.
  rewrite (bind_gets numOutputConstraints), Hoc.
  change (negb (-1 =? -1)) with false. cbv iota.
  rewrite bind_modify.
  set (s1 := with_this s (with_numOutputConstraints (this s) rhsLen)).
  rewrite (bind_gets numOutputVars).
  change (numOutputVars (this s1)) with (numOutputVars (this s)).
  rewrite Z.eqb_refl. change (negb true) with false. cbv iota.
  rewrite bind_glp_get, (bind_gets numInitConstraints).
  change (glp_get_num_rows (lp (this s1))) with (nrows s).
  change (numInitConstraints (this s1)) with (numInitConstraints (this s)).
  rewrite Hrows, Z.eqb_refl. change (negb true) with false. cbv iota.
  rewrite (bind_gets numOutputConstraints).
  change (numOutputConstraints (this s1)) with rhsLen.
  destruct (0 <? rhsLen) eqn:E; [apply Z.ltb_lt in E; lia|]. clear E.
  rewrite (bind_run _ _ s1 tt s1) by reflexivity.
  rewrite (bind_gets numOutputVars).
  change (numOutputVars (this s1)) with (numOutputVars (this s)).
  rewrite add_rows_step by lia.
  change (row (lp (this s1))) with (row (lp (this s))).
  set (nOV := numOutputVars (this s)) in *. set (nIC := numInitConstraints (this s)) in *.
  set (rows := row (lp (this s)) ++ replicate (Z.to_nat nOV) new_row).
  assert (Hlen : Z.of_nat (length rows) = nIC + nOV).
  { subst rows. rewrite length_app, length_replicate.
    unfold nrows, glp_get_num_rows in Hrows. lia. }
  unfold for_upto.
  destruct (nIC + rhsLen <? 0) eqn:E.
  - apply Z.ltb_lt in E.
    destruct (Z.to_nat nOV) as [|n] eqn:En; [lia|].
    cbn [for_]. unfold bind, gets, glp. cbv beta iota.
    change (numInitConstraints (this (with_rows s1 rows))) with nIC.
    change (numOutputConstraints (this (with_rows s1 rows))) with rhsLen.
    rewrite set_row_bnds_rejects by lia. reflexivity.
  - apply Z.ltb_ge in E.
    match goal with
    | |- for_ ?m ?i ?body ?a ?st = _ =>
        destruct (rows_loop (fun _ : unit => True)
                    (fun _ => with_bnds GLP_FX 0%float 0%float)
                    (Z.to_nat (nIC + rhsLen)) m body a st) as ([] & _ & Hrun)
    end.
    { exact I. }
    { intros k [] X Hk _ HX. exists tt. split; [exact I|].
      rewrite row_with_rows in HX.
      rewrite (bind_gets numInitConstraints), (bind_gets numOutputConstraints).
      change (numInitConstraints (this (with_rows _ X))) with nIC.
      change (numOutputConstraints (this (with_rows _ X))) with rhsLen.
      rewrite bnds_step by (try reflexivity; lia).
      replace (pos (nIC + rhsLen + Z.of_nat k + 1))
        with (Z.to_nat (nIC + rhsLen) + k)%nat by (unfold pos; lia).
      reflexivity. }
    rewrite Hrun, row_with_rows, with_rows_twice. reflexivity.
Qed.

End NegativeLength.

(** ** The further properties on the worked instance *)

Lemma fresh_reachable : reachable vertex_solver (fresh 2 2).
Proof.
  exists (mkGlobal 0 0), [], 2, 2, 0, (fresh 2 2), [].
  split; evaluate.
Defined.

Lemma init_box_reachable : reachable vertex_solver init_box.
Proof.
  exists (mkGlobal 0 0), [], 2, 2, 0, (fresh 2 2),
    [SetInitConstraints box_mat 2 4 box_rhs 4].
  split; evaluate.
Defined.

Lemma minimize_outcomes_witness :
  exists P r rest,
    simplex_calls (final (minimize vertex_solver [1; 0]%float 2 [0; 0; 0; 0]%float 4
                            (box_instance vertex_solver)))
    = (P, r) :: rest.
Proof.
  destruct (minimize_outcomes vertex_solver (box_instance vertex_solver)
              [1; 0]%float 2 [0; 0; 0; 0]%float 4 box_instance_reachable
              ltac:(vm_compute; discriminate) ltac:(vm_compute; discriminate)
              ltac:(evaluate)) as (P & r & rest & Hlog & _).
  exists P, r, rest. exact Hlog.
Defined.

Lemma minimize_configuration_error_witness :
  exists s',
    minimize vertex_solver [1; 0]%float 2 [0; 0]%float 2 (fresh 2 2)
    = Fatal ConfigError s'.
Proof.
  destruct (minimize_configuration_error vertex_solver (fresh 2 2)
              [1; 0]%float 2 [0; 0]%float 2 fresh_reachable) as ([_ H] & _ & _).
  apply H. left. evaluate.
Defined.


Lemma updateBasisMatrix_accepts_witness :
  updateBasisMatrix scale_x 2 2 installed_box
  = if (2 =? numInitVars (this installed_box))
       && (2 =? numOutputVars (this installed_box))
       && negb (numOutputConstraints (this installed_box) =? -1)
    then Done tt (with_basis scale_x installed_box)
    else Fatal ConfigError installed_box.
Proof.
  exact (updateBasisMatrix_accepts vertex_solver installed_box scale_x 2 2
           installed_box_reachable ltac:(vm_compute; discriminate)).
Defined.

Lemma updateBasisMatrix_last_wins_witness :
  exists s1 s2,
    updateBasisMatrix scale_x 2 2 installed_box = Done tt s1
    /\ updateBasisMatrix [1; 0; 0; 1]%float 2 2 s1 = Done tt s2
    /\ updateBasisMatrix [1; 0; 0; 1]%float 2 2 installed_box = Done tt s2.
Proof.
  exact (updateBasisMatrix_last_wins vertex_solver installed_box
           scale_x [1; 0; 0; 1]%float 2 2
           installed_box_reachable ltac:(vm_compute; discriminate)
           ltac:(evaluate) ltac:(evaluate) ltac:(reflexivity) ltac:(reflexivity)).
Defined.

Lemma setInitConstraints_accepts_witness :
  setInitConstraints box_mat 2 4 box_rhs 4 (fresh 2 2)
  = let s1 := with_this (fresh 2 2) (with_numInitConstraints (this (fresh 2 2)) 4) in
    if negb (4 =? 4) || negb (2 =? numInitVars (this (fresh 2 2)))
    then Fatal ConfigError s1
    else if 4 <? 1 then Fatal SolverAbort s1
    else Done tt (with_rows s1 (ineq_rows box_mat 2 0 box_rhs (Z.to_nat 4))).
Proof.
  exact (setInitConstraints_accepts vertex_solver (fresh 2 2) box_mat 2 4 box_rhs 4
           fresh_reachable ltac:(evaluate)).
Defined.

Lemma setOutputConstraints_accepts_witness :
  setOutputConstraints sum_mat 2 1 sum_rhs 1 init_box
  = let s1 := with_this init_box (with_numOutputConstraints (this init_box) 1) in
    if (2 =? numOutputVars (this init_box))
       && (nrows init_box =? numInitConstraints (this init_box))
    then Done tt (with_rows s1
           (row (lp (this init_box))
            ++ ineq_rows sum_mat 2 (numInitVars (this init_box)) sum_rhs (Z.to_nat 1)
            ++ replicate (Z.to_nat (numOutputVars (this init_box))) fixed_row))
    else Fatal ConfigError s1.
Proof.
  exact (setOutputConstraints_accepts vertex_solver init_box sum_mat 2 1 sum_rhs 1
           init_box_reachable ltac:(evaluate) ltac:(lia)).
Defined.

Lemma setNoOutputConstraints_accepts_witness :
  setNoOutputConstraints init_box
  = if numOutputConstraints (this init_box) =? -1
    then let s1 := with_this init_box (with_numOutputConstraints (this init_box) 0) in
         if nrows init_box =? numInitConstraints (this init_box)
         then Done tt (with_rows s1
                (row (lp (this init_box))
                 ++ replicate (Z.to_nat (numOutputVars (this init_box))) fixed_row))
         else Fatal ConfigError s1
    else Fatal ConfigError init_box.
Proof.
  exact (setNoOutputConstraints_accepts vertex_solver init_box init_box_reachable).
Defined.

Lemma setInitConstraints_matrix_witness :
  nrows init_box = 4
  /\ row_ub (lp (this init_box)) (2 + 1) = Some (rd box_rhs 2)
  /\ coef (lp (this init_box)) (2 + 1) 1
     = if decide (1 <= 1 <= 2) then kept (rd box_mat (2 * 2 + (1 - 1))) else 0%float.
Proof.
  destruct (setInitConstraints_matrix vertex_solver (fresh 2 2) init_box
              box_mat 2 4 box_rhs 4 tt fresh_reachable ltac:(evaluate)) as [Hn Hrow].
  destruct (Hrow 2 ltac:(lia)) as (_ & Hub & Hco).
  split; [exact Hn|]. split; [exact Hub | exact (Hco 1)].
Defined.

Lemma setOutputConstraints_matrix_witness :
  coef (lp (this output_box)) 1 1 = coef (lp (this init_box)) 1 1
  /\ row_type (lp (this output_box)) (numInitConstraints (this init_box) + 0 + 1)
     = Some GLP_UP
  /\ row_type (lp (this output_box)) (numInitConstraints (this init_box) + 1 + 1 + 1)
     = Some GLP_FX.
Proof.
  destruct (setOutputConstraints_matrix vertex_solver init_box output_box
              sum_mat 2 1 sum_rhs 1 tt init_box_reachable ltac:(lia) ltac:(evaluate))
    as (Hold & Hnew & Hfix).
  split; [apply Hold; vm_compute; split; discriminate|].
  split.
  - apply (Hnew 0). lia.
  - apply (Hfix 1). vm_compute. split; [discriminate | reflexivity].
Defined.

(** With other input constraints stored, [minimize] on the box gives the
    same answer and the same buffer. *)
Example box_min_other_inputs :
  minimize vertex_solver [1; 0]%float 2 [0; 0; 0; 0]%float 4
           (with_inputs [1]%float [0] [0; 1] [5]%float (box_instance vertex_solver))
  = Done (0, [-1; -1; -2; -1]%float)
         (with_inputs [1]%float [0] [0; 1] [5]%float
            (final (box_min vertex_solver [0; 0; 0; 0]%float))).
Proof. evaluate. Qed.

Lemma setup_builds_witness :
  LpData_new (mkGlobal 0 0) [] 2 2 0 = Done tt (constructed (mkGlobal 0 0) [] 2 2)
  /\ run vertex_solver
       [SetInitConstraints box_mat 2 4 box_rhs 4;
        SetOutputConstraints sum_mat 2 1 sum_rhs 1;
        UpdateBasisMatrix scale_x 2 2] (constructed (mkGlobal 0 0) [] 2 2)
     = Done tt
         (with_rows
            (with_this (constructed (mkGlobal 0 0) [] 2 2)
               (with_numOutputConstraints
                  (with_numInitConstraints (this (constructed (mkGlobal 0 0) [] 2 2)) 4) 1))
            (ineq_rows box_mat 2 0 box_rhs (Z.to_nat 4)
             ++ ineq_rows sum_mat 2 2 sum_rhs (Z.to_nat 1)
             ++ basis_rows scale_x 2 (Z.to_nat 2))).
Proof.
  exact (setup_builds vertex_solver (mkGlobal 0 0) [] 2 2 box_mat box_rhs 4
           sum_mat sum_rhs 1 1 scale_x
           ltac:(lia) ltac:(lia) ltac:(lia) ltac:(lia)).
Defined.

Lemma setOutputConstraints_negative_length_witness :
  exists s',
    setOutputConstraints [] 2 0 [] (-1) init_box = Done tt s'
    /\ numOutputConstraints (this s') = -1
    /\ row_type (lp (this init_box)) 4 = Some GLP_UP
    /\ row_type (lp (this s')) 4 = Some GLP_FX.
Proof.
  pose proof (setOutputConstraints_negative_length vertex_solver init_box [] 2 0 [] (-1)
                init_box_reachable ltac:(evaluate) ltac:(evaluate) ltac:(evaluate)
                ltac:(lia)) as H.
  cbv zeta in H.
  replace (numInitConstraints (this init_box) + -1 <? 0) with false in H by evaluate.
  eexists. split; [exact H|]. split; [evaluate|]. split; evaluate.
Defined.
